(** * KOVA landing page: section registry, feature flags and section helpers

  A shallow embedding of

    - [src/core/constants/feature-flags.ts]   (module [FeatureFlags]),
    - [src/layouts/section-registry.ts]       (modules [Registry], [Loader]),
    - [src/core/utils/section-helpers.ts]     (module [Helpers]),

  together with the properties of these modules that the specification
  states.  TypeScript types are erased at run time, so section identifiers
  and flag names are plain strings here, exactly as the compiled program
  sees them (the source itself passes section identifiers where flag names
  are expected through [as any]).  The [order] field is an integer, as the
  specification says. *)

From Stdlib Require Import ZArith String Ascii List Bool Lia Sorted Permutation.
From stdpp Require Import gmap strings list.
Import ListNotations.
Local Open Scope string_scope.

(* ===================================================================== *)
(** * JavaScript run-time values and plain objects                        *)
(* ===================================================================== *)

Module JS.

(** The part of the JavaScript value universe the three modules touch. *)
#[local] Unset Elimination Schemes.
Inductive Value : Type :=
  | VUndefined
  | VNull
  | VBool (b : bool)
  | VNumber (n : Z)
  | VString (s : string)
  | VArray (elems : list Value)
  | VObject (fields : list (string * Value))
  | VFunction (name : string).
#[local] Set Elimination Schemes.

(** [typeof v] *)
Definition typeof (v : Value) : string :=
  match v with
  | VUndefined => "undefined"
  | VNull => "object"
  | VBool _ => "boolean"
  | VNumber _ => "number"
  | VString _ => "string"
  | VArray _ => "object"
  | VObject _ => "object"
  | VFunction _ => "function"
  end.

(** [Array.isArray(v)] *)
Definition isArray (v : Value) : bool :=
  match v with VArray _ => true | _ => false end.

(** ToBoolean, as used by [if], [&&], [!] and [Array.prototype.filter]. *)
Definition truthy (v : Value) : bool :=
  match v with
  | VUndefined | VNull => false
  | VBool b => b
  | VNumber n => negb (n =? 0)%Z
  | VString s => negb (String.eqb s "")
  | VArray _ | VObject _ | VFunction _ => true
  end.

(** [a && b] on values: the left operand when it is falsy, else the right. *)
Definition and_then (a b : Value) : Value := if truthy a then b else a.

(** Property names every object literal inherits from [Object.prototype]. *)
Definition object_prototype_members : list string :=
  [ "constructor"; "hasOwnProperty"; "isPrototypeOf"; "propertyIsEnumerable";
    "toLocaleString"; "toString"; "valueOf"; "__defineGetter__";
    "__defineSetter__"; "__lookupGetter__"; "__lookupSetter__"; "__proto__" ].

Definition inherited (key : string) : bool :=
  existsb (String.eqb key) object_prototype_members.

(** What reading [Object.prototype[key]] gives for an inherited name: the
    built-in method, or the prototype object itself for [__proto__]. *)
Definition prototype_value (key : string) : Value :=
  if String.eqb key "__proto__" then VObject [] else VFunction key.

(** A plain object (an object literal): its own enumerable string-keyed
    properties in enumeration order. *)
Definition PlainObject (V : Type) : Type := list (string * V).

Fixpoint own {V} (o : PlainObject V) (key : string) : option V :=
  match o with
  | [] => None
  | (k, v) :: rest => if String.eqb k key then Some v else own rest key
  end.

(** [key in o] : own or inherited. *)
Definition has_property {V} (o : PlainObject V) (key : string) : bool :=
  match own o key with
  | Some _ => true
  | None => inherited key
  end.

(** [o[key]] for an object whose own values inject into [Value] by [inj]. *)
Definition get {V} (inj : V -> Value) (o : PlainObject V) (key : string) : Value :=
  match own o key with
  | Some v => inj v
  | None => if inherited key then prototype_value key else VUndefined
  end.

(** [o[key] = v] : overwrite in place, or append a new own property. *)
Fixpoint set {V} (o : PlainObject V) (key : string) (v : V) : PlainObject V :=
  match o with
  | [] => [(key, v)]
  | (k, x) :: rest =>
      if String.eqb k key then (k, v) :: rest else (k, x) :: set rest key v
  end.

(** [s.includes(sub)] *)
Fixpoint includes (s sub : string) : bool :=
  String.prefix sub s
  || match s with
     | EmptyString => false
     | String _ s' => includes s' sub
     end.

(** [s.endsWith(suffix)] *)
Fixpoint endsWith (s suffix : string) : bool :=
  String.eqb s suffix
  || match s with
     | EmptyString => false
     | String _ s' => endsWith s' suffix
     end.

(** The double-quote character, for template literals that contain it. *)
Definition dquote : string := String "034"%char EmptyString.

(** ** [Array.prototype.sort(compareFn)]

    The language specification makes [sort] stable, and for a consistent
    comparator (here always a difference of integers) the stable sorted
    arrangement of an array is unique, so any stable algorithm denotes the
    same function.  We use insertion from the right: an element moves past
    the elements it is strictly greater than, and past no other. *)
Section Sort.
Context {A : Type} (compareFn : A -> A -> Z).

Fixpoint sort_insert (x : A) (sorted : list A) : list A :=
    match sorted with
    | [] => [x]
    | y :: rest =>
        if (0 <? compareFn x y)%Z then y :: sort_insert x rest
        else x :: y :: rest
    end.

Definition sort (l : list A) : list A := fold_right sort_insert [] l.
End Sort.

(** ** [Map]: keyed store that iterates in insertion order

    [Map.prototype.set] keeps the position of a key that is already present
    and appends a new key at the end.  A [Map] has no inherited keys. *)
Section MapModel.
Context {V : Type}.
Definition MapOf : Type := list (string * V).

Fixpoint map_get (m : MapOf) (key : string) : option V :=
    match m with
    | [] => None
    | (k, v) :: rest => if String.eqb k key then Some v else map_get rest key
    end.

Definition map_has (m : MapOf) (key : string) : bool :=
    match map_get m key with Some _ => true | None => false end.

Fixpoint map_set (m : MapOf) (key : string) (v : V) : MapOf :=
    match m with
    | [] => [(key, v)]
    | (k, x) :: rest =>
        if String.eqb k key then (k, v) :: rest else (k, x) :: map_set rest key v
    end.

Definition map_values (m : MapOf) : list V := map snd m.
Definition map_keys (m : MapOf) : list string := map fst m.
End MapModel.
Arguments MapOf V : clear implicits.

End JS.

(* ===================================================================== *)
(** * [src/core/constants/feature-flags.ts]                               *)
(* ===================================================================== *)

Module FeatureFlags.
Import JS.

(** The shape of the [FEATURE_FLAGS] object: flag name to boolean. *)
Definition FlagTable : Type := PlainObject bool.

Definition FEATURE_FLAGS : FlagTable :=
  [ ("HERO_SECTION", true);
    ("FEATURES_SECTION", false);
    ("PRICING_SECTION", false);
    ("TESTIMONIALS_SECTION", false);
    ("CONTACT_SECTION", false) ].

(** A table with the source's five keys and arbitrary values: what
    [FEATURE_FLAGS] is after editing the literal, or after [setFeatureFlag]
    calls with well-typed flag names. *)
Definition flag_table (hero features pricing testimonials contact : bool) : FlagTable :=
  [ ("HERO_SECTION", hero);
    ("FEATURES_SECTION", features);
    ("PRICING_SECTION", pricing);
    ("TESTIMONIALS_SECTION", testimonials);
    ("CONTACT_SECTION", contact) ].

(** [process.env]: variable name to string value. *)
Abbreviation Env := (gmap string string).

(** [process.env.NODE_ENV === 'development'] *)
Definition development (env : Env) : bool :=
  match env !! "NODE_ENV" with
  | Some mode => String.eqb mode "development"
  | None => false
  end.

(** [FEATURE_FLAGS[feature]] *)
Definition flag_lookup (flags : FlagTable) (feature : string) : Value :=
  get VBool flags feature.

Definition isFeatureEnabled (env : Env) (flags : FlagTable) (feature : string) : Value :=
  if development env then
    match env !! ("FEATURE_" +:+ feature) with
    | Some envOverride => VBool (String.eqb envOverride "true")
    | None => flag_lookup flags feature
    end
  else flag_lookup flags feature.

Definition getEnabledFeatures (env : Env) (flags : FlagTable) : list string :=
  List.filter (fun feature => truthy (isFeatureEnabled env flags feature))
         (map fst flags).

Definition setFeatureFlag (env : Env) (flags : FlagTable) (feature : string)
    (enabled : bool) : FlagTable :=
  if development env then set flags feature enabled else flags.

End FeatureFlags.

(* ===================================================================== *)
(** * [src/core/types/section.types.ts] and [src/layouts/section-registry.ts] *)
(* ===================================================================== *)

Module Registry.
Import JS FeatureFlags.

(** A React component is opaque to the registry: a handle, or [null]. *)
Inductive Component : Type :=
| NullComponent
| ComponentRef (name : string).

(** [interface SectionConfig]; the fields carry the source's names behind a
    [cfg_] prefix. *)
Record SectionConfig : Type := mkConfig {
  cfg_id : string;
  cfg_name : string;
  cfg_version : string;
  cfg_enabled : bool;
  cfg_dependencies : list string;
  cfg_props : PlainObject string;
  cfg_order : Z;
  cfg_component : Component
}.

(** [interface SectionRegistryEntry] *)
Record SectionRegistryEntry : Type := mkEntry {
  config : SectionConfig;
  component : Component
}.

(** [type SectionId]: a string at run time. *)
Abbreviation SectionId := string.

(** The five members of the [SectionId] union. *)
Definition allSectionIds : list SectionId :=
  ["hero"; "features"; "pricing"; "testimonials"; "contact"].

(** A promise is referred to by its index in the run-time promise table. *)
Abbreviation PromiseRef := nat.

(** The two private fields of [class SectionRegistryManager]. *)
Record SectionRegistryManager : Type := mkManager {
  sections : MapOf SectionRegistryEntry;
  loadPromises : gmap SectionId PromiseRef
}.

(** [new SectionRegistryManager()] *)
Definition sectionRegistry : SectionRegistryManager :=
  {| sections := []; loadPromises := ∅ |}.

Definition register (this : SectionRegistryManager) (id : SectionId)
    (entry : SectionRegistryEntry) : SectionRegistryManager :=
  {| sections := map_set (sections this) id entry;
     loadPromises := loadPromises this |}.

Definition getSection (this : SectionRegistryManager) (id : SectionId)
  : option SectionRegistryEntry :=
  map_get (sections this) id.

Definition getAllSections (this : SectionRegistryManager) : list SectionRegistryEntry :=
  map_values (sections this).

(** The comparator both sorts pass: [(a, b) => a.config.order - b.config.order]. *)
Definition byOrder (a b : SectionRegistryEntry) : Z :=
  (cfg_order (config a) - cfg_order (config b))%Z.

Section WithFlags.
Context (env : Env) (flags : FlagTable).

Definition getEnabledSections (this : SectionRegistryManager) : list SectionRegistryEntry :=
  sort byOrder
    (List.filter (fun entry => truthy (isFeatureEnabled env flags (cfg_id (config entry))))
                 (getAllSections this)).

Definition getSectionsInOrder (this : SectionRegistryManager) : list SectionRegistryEntry :=
  sort byOrder (getEnabledSections this).

Definition hasSection (this : SectionRegistryManager) (id : SectionId) : bool :=
  map_has (sections this) id.

(** [this.hasSection(id) && isFeatureEnabled(id as any)]: the value of the
    conjunction, which is the flag lookup's value when the section is
    registered. *)
Definition isSectionEnabled (this : SectionRegistryManager) (id : SectionId) : Value :=
  and_then (VBool (hasSection this id)) (isFeatureEnabled env flags id).

(** The message pushed for a missing dependency. *)
Definition missingDependency (id dep : string) : string :=
  "Section " +:+ dquote +:+ id +:+ dquote
  +:+ " requires missing dependency: " +:+ dquote +:+ dep +:+ dquote.

Record Validation : Type := mkValidation {
  valid : bool;
  errors : list string
}.

(** The two nested [for ... of] loops, each [errors.push] appending. *)
Definition validateDependencies (this : SectionRegistryManager) : Validation :=
  let errors :=
    fold_left
      (fun (errors : list string) entry =>
         fold_left
           (fun (errors : list string) dep =>
              if negb (hasSection this dep)
              then (errors ++ [missingDependency (cfg_id (config entry)) dep])%list
              else errors)
           (cfg_dependencies (config entry)) errors)
      (getEnabledSections this) [] in
  {| valid := Nat.eqb (length errors) 0; errors := errors |}.

End WithFlags.

Inductive LoadStatus : Type := loaded | loading | not_loaded | error.

(** [getLoadStatus]: the loop assigns one property of [status] per known
    identifier. *)
Definition getLoadStatus (this : SectionRegistryManager) : PlainObject LoadStatus :=
  fold_left
    (fun status id =>
       if map_has (sections this) id then set status id loaded
       else if bool_decide (is_Some (loadPromises this !! id)) then set status id loading
       else set status id not_loaded)
    allSectionIds [].

End Registry.

(* ===================================================================== *)
(** * [loadSection]: the asynchronous load protocol                        *)
(* ===================================================================== *)

(** [loadSection] is an [async] method.  A call runs synchronously up to its
    first [await] (or to a [return]); the module system later settles the
    promise [dynamicImport] returned; the suspended call is then resumed.  The
    run-time state therefore holds, next to the manager's two maps, the table
    of promises made by [dynamicImport], the table of [loadSection] calls made
    so far, the log of [dynamicImport] invocations and the console.  In this
    repository [register] is invoked from [loadSection] only, so executions
    consist of calls, import completions and resumptions. *)

Module Loader.
Import JS FeatureFlags Registry.

(** [const AVAILABLE_SECTIONS: SectionId[] = ['hero']] *)
Definition AVAILABLE_SECTIONS : list SectionId := ["hero"].

(** [AVAILABLE_SECTIONS.includes(id)] *)
Definition available (id : SectionId) : bool :=
  existsb (String.eqb id) AVAILABLE_SECTIONS.

(** What [import('@/sections/hero')] delivers: the two exports
    [dynamicImport] reads. *)
Record HeroModule : Type := mkHeroModule {
  export_heroSectionConfig : SectionConfig;
  export_default : Component
}.

(** [src/sections/hero/section.config.ts] *)
Definition heroSectionConfig : SectionConfig :=
  {| cfg_id := "hero";
     cfg_name := "Hero Section";
     cfg_version := "1.0.0";
     cfg_enabled := true;
     cfg_dependencies := ["ethereal-depth"];
     cfg_props := [ ("title", "string"); ("subtitle", "string");
                    ("description", "string"); ("features", "Feature[]");
                    ("dynamicWords", "string[]") ];
     cfg_order := 1;
     cfg_component := NullComponent |}.

(** [src/sections/hero/index.tsx] *)
Definition heroModule : HeroModule :=
  {| export_heroSectionConfig := heroSectionConfig;
     export_default := ComponentRef "HeroSectionWithErrorBoundary" |}.

Inductive JsError : Type := Error (message : string).

Inductive ImportResult : Type :=
| Loaded (heroModule : HeroModule)
| Failed (reason : JsError).

Inductive PromiseState : Type :=
| Pending
| Fulfilled (entry : SectionRegistryEntry)
| Rejected (reason : JsError).

Inductive LogLine : Type :=
| console_warn (message : string)
| console_error (message : string) (reason : JsError).

(** Where a [loadSection] call stands: it has returned a value, it has
    returned the in-flight promise (so its own promise follows that one), or
    it is suspended at [await promise]. *)
Inductive CallStatus : Type :=
| Returned (result : option SectionRegistryEntry)
| Forwarded (loadPromise : PromiseRef)
| Awaiting (promise : PromiseRef).

Record LoadCall : Type := mkCall {
  call_id : SectionId;
  call_status : CallStatus
}.

Record World : Type := mkWorld {
  manager : SectionRegistryManager;
  promises : list PromiseState;
  calls : list LoadCall;
  imports : list SectionId;
  console : list LogLine
}.

Definition initial : World :=
  {| manager := sectionRegistry; promises := []; calls := [];
     imports := []; console := [] |}.

(** [dynamicImport(id)] up to its first suspension: the ['hero'] case awaits
    the module system, every other case has thrown already. *)
Definition dynamicImport (id : SectionId) : PromiseState :=
  if String.eqb id "hero" then Pending
  else Rejected (Error ("Section " +:+ id +:+ " is not available for import")).

(** The object [dynamicImport] builds from the imported module:
    [{ config: heroModule.heroSectionConfig, component: heroModule.default }]. *)
Definition moduleEntry (m : HeroModule) : SectionRegistryEntry :=
  {| config := export_heroSectionConfig m; component := export_default m |}.

(** [dynamicImport('hero')] after [import()] has completed. *)
Definition dynamicImport_settle (r : ImportResult) : PromiseState :=
  match r with
  | Loaded m => Fulfilled (moduleEntry m)
  | Failed reason => Rejected reason
  end.

Definition add_call (w : World) (id : SectionId) (s : CallStatus) : World :=
  {| manager := manager w; promises := promises w;
     calls := (calls w ++ [mkCall id s])%list;
     imports := imports w; console := console w |}.

Definition log (w : World) (line : LogLine) : World :=
  {| manager := manager w; promises := promises w; calls := calls w;
     imports := imports w; console := (console w ++ [line])%list |}.

(** [loadSection(id)] from its entry to its first [return] or [await]. *)
Definition loadSection_enter (w : World) (id : SectionId) : World :=
  if negb (available id) then
    add_call (log w (console_warn ("Section " +:+ id +:+ " is not implemented yet")))
             id (Returned None)
  else
    match getSection (manager w) id with
    | Some existing => add_call w id (Returned (Some existing))
    | None =>
        match loadPromises (manager w) !! id with
        | Some loadPromise => add_call w id (Forwarded loadPromise)
        | None =>
            let promise := length (promises w) in
            {| manager := {| sections := sections (manager w);
                             loadPromises := <[id := promise]> (loadPromises (manager w)) |};
               promises := (promises w ++ [dynamicImport id])%list;
               calls := (calls w ++ [mkCall id (Awaiting promise)])%list;
               imports := (imports w ++ [id])%list;
               console := console w |}
        end
    end.

(** [loadSection(id)] from [await promise] to its end: the [try] body or the
    [catch] body, then the [finally] block. *)
Definition loadSection_resume (w : World) (c : nat) (id : SectionId)
    (settled : SectionRegistryEntry + JsError) : World :=
  match settled with
  | inl entry =>
      let registered := register (manager w) id entry in
      {| manager := {| sections := sections registered;
                       loadPromises := delete id (loadPromises registered) |};
         promises := promises w;
         calls := <[c := mkCall id (Returned (Some entry))]> (calls w);
         imports := imports w;
         console := console w |}
  | inr reason =>
      {| manager := {| sections := sections (manager w);
                       loadPromises := delete id (loadPromises (manager w)) |};
         promises := promises w;
         calls := <[c := mkCall id (Returned None)]> (calls w);
         imports := imports w;
         console := (console w ++
                     [console_error ("Failed to load section: " +:+ id) reason])%list |}
  end.

Inductive Event : Type :=
| Call (id : SectionId)
| ImportDone (p : PromiseRef) (r : ImportResult)
| Resume (c : nat).

(** One step of an execution; [None] when the event cannot happen in [w]. *)
Definition step (w : World) (ev : Event) : option World :=
  match ev with
  | Call id => Some (loadSection_enter w id)
  | ImportDone p r =>
      match promises w !! p with
      | Some Pending =>
          Some {| manager := manager w;
                  promises := <[p := dynamicImport_settle r]> (promises w);
                  calls := calls w; imports := imports w; console := console w |}
      | _ => None
      end
  | Resume c =>
      match calls w !! c with
      | Some {| call_id := id; call_status := Awaiting p |} =>
          match promises w !! p with
          | Some (Fulfilled entry) => Some (loadSection_resume w c id (inl entry))
          | Some (Rejected reason) => Some (loadSection_resume w c id (inr reason))
          | _ => None
          end
      | _ => None
      end
  end.

Fixpoint run (w : World) (evs : list Event) : option World :=
  match evs with
  | [] => Some w
  | ev :: rest =>
      match step w ev with
      | Some w' => run w' rest
      | None => None
      end
  end.

Definition reachable (w : World) : Prop := exists evs, run initial evs = Some w.

(** What the promise returned by call number [c] has settled to, if it has. *)
Inductive Outcome : Type :=
| Resolved (result : option SectionRegistryEntry)
| RejectedWith (reason : JsError).

Definition outcome (w : World) (c : nat) : option Outcome :=
  match calls w !! c with
  | Some {| call_status := Returned result |} => Some (Resolved result)
  | Some {| call_status := Forwarded p |} =>
      match promises w !! p with
      | Some (Fulfilled entry) => Some (Resolved (Some entry))
      | Some (Rejected reason) => Some (RejectedWith reason)
      | _ => None
      end
  | _ => None
  end.

(** Number of [dynamicImport] invocations for [id] so far. *)
Definition fetches (w : World) (id : SectionId) : nat :=
  length (List.filter (String.eqb id) (imports w)).

(** The calls for [id] that are suspended at their [await]: the in-flight
    load operations for [id]. *)
Definition in_flight (w : World) (id : SectionId) : list LoadCall :=
  List.filter (fun c => String.eqb (call_id c) id
                        && match call_status c with Awaiting _ => true | _ => false end)
              (calls w).

End Loader.

(* ===================================================================== *)
(** * [src/core/utils/section-helpers.ts]                                  *)
(* ===================================================================== *)

Module Helpers.
Import JS Registry.

(** A call either returns or throws. *)
Inductive Completion (A : Type) : Type :=
| Normal (result : A)
| Throws (typeError : string).
Arguments Normal {A} result.
Arguments Throws {A} typeError.

(** First [forEach]: one message per schema key that is not [in props]. *)
Definition checkRequired (props : PlainObject Value) (schema : PlainObject string)
  : list string :=
  fold_left
    (fun (errors : list string) '(propName, propType) =>
       if negb (has_property props propName)
       then (errors ++ ["Missing required prop: " +:+ propName +:+ " (" +:+ propType +:+ ")"])%list
       else errors)
    schema [].

(** Body of the second [forEach] for one entry of [props]. *)
Definition checkType (schema : PlainObject string) (errors : list string)
    (propName : string) (propValue : Value) : Completion (list string) :=
  if has_property schema propName then
    match get VString schema propName with
    | VString expectedType =>
        let actualType := if isArray propValue then "array" else typeof propValue in
        if includes expectedType "[]" && negb (isArray propValue) then
          Normal (errors ++ ["Prop " +:+ propName +:+ " should be an array, got "
                             +:+ actualType])%list
        else if negb (includes expectedType "[]")
                && negb (String.eqb expectedType actualType)
                && negb (String.eqb actualType "undefined") then
          if negb (endsWith expectedType "?" && String.eqb actualType "undefined") then
            Normal (errors ++ ["Prop " +:+ propName +:+ " should be " +:+ expectedType
                               +:+ ", got " +:+ actualType])%list
          else Normal errors
        else Normal errors
    | _ => Throws "expectedType.includes is not a function"
    end
  else Normal errors.

Definition validateSectionProps (props : PlainObject Value) (config : SectionConfig)
  : Completion Validation :=
  let required := checkRequired props (cfg_props config) in
  let typed :=
    fold_left
      (fun (acc : Completion (list string)) '(propName, propValue) =>
         match acc with
         | Normal errors => checkType (cfg_props config) errors propName propValue
         | Throws e => Throws e
         end)
      props (Normal required) in
  match typed with
  | Normal errors => Normal {| valid := Nat.eqb (length errors) 0; errors := errors |}
  | Throws e => Throws e
  end.


(** [getSectionClassName(sectionId, additionalClasses?)]; an omitted second
    argument is [undefined], modelled by [None]. *)
Definition getSectionClassName (sectionId : SectionId) (additionalClasses : option string)
  : string :=
  let baseClass := "section-" +:+ sectionId in
  match additionalClasses with
  | Some classes =>
      if truthy (VString classes) then baseClass +:+ " " +:+ classes else baseClass
  | None => baseClass
  end.

(** The object [getSectionDataAttributes] returns. *)
Record DataAttributes : Type := mkDataAttributes {
  data_section : string;
  data_testid : string;
  data_enabled : string
}.

Section DataAttributes.
(** The text [v.toString()] yields for a value that is neither a boolean nor
    [undefined]/[null]; for built-in functions it depends on the engine, so it
    is left open. *)
Context (otherToString : Value -> string).

(** [v.toString()]: reading the method off [undefined] or [null] throws. *)
Definition toString (v : Value) : Completion string :=
  match v with
  | VUndefined => Throws "Cannot read properties of undefined (reading 'toString')"
  | VNull => Throws "Cannot read properties of null (reading 'toString')"
  | VBool b => Normal (if b then "true" else "false")
  | other => Normal (otherToString other)
  end.

Definition getSectionDataAttributes (env : FeatureFlags.Env) (flags : FeatureFlags.FlagTable)
    (sectionId : SectionId) : Completion DataAttributes :=
  match toString (FeatureFlags.isFeatureEnabled env flags sectionId) with
  | Normal enabled =>
      Normal {| data_section := sectionId;
                data_testid := "section-" +:+ sectionId;
                data_enabled := enabled |}
  | Throws e => Throws e
  end.
End DataAttributes.

(** [mergeDeep(target, source)].  [result] starts as the copy [{...target}];
    the [forEach] visits the own properties of [source] in turn, reading
    [result[key]] through the prototype chain as JavaScript does.  The
    condition of the [if] holds exactly when both values are non-array
    objects.  The function recurses on the source value, so it is written as
    a function of the source as a value; [mergeDeep] below is the entry point.
    The embedding is exact for sources without an own property named
    [__proto__] at any depth (assigning to that name sets the prototype). *)
Fixpoint mergeInto (target : PlainObject Value) (source : Value) {struct source}
  : PlainObject Value :=
  match source with
  | VObject fields =>
      (fix forEach (result : PlainObject Value) (entries : list (string * Value))
           {struct entries} : PlainObject Value :=
         match entries with
         | [] => result
         | (key, sourceValue) :: rest =>
             let targetValue := get (fun v => v) result key in
             forEach
               (set result key
                    match sourceValue, targetValue with
                    | VObject _, VObject targetFields =>
                        VObject (mergeInto targetFields sourceValue)
                    | _, _ => sourceValue
                    end)
               rest
         end) target fields
  | _ => target
  end.

Definition mergeDeep (target source : PlainObject Value) : PlainObject Value :=
  mergeInto target (VObject source).

End Helpers.

(* ===================================================================== *)
(** * [debounce] of [src/core/utils/section-helpers.ts]                    *)
(* ===================================================================== *)

(** The function [debounce(func, wait)] returns closes over one variable,
    [timeout].  Its behaviour over time is a small machine: a call clears the
    timer [timeout] refers to, if any, and schedules a new one; the host later
    runs a scheduled timer, which invokes [func] with the arguments of the
    call that scheduled it.  The delay [wait] only says how much later. *)

Module Debounce.
Section Debounced.
Context {Args : Type}.

(** The host's record of one [setTimeout] call. *)
Inductive Timer : Type :=
| Scheduled (args : Args)
| Cleared
| Fired.

Record State : Type := mkState {
  timeout : option nat;
  timers : list Timer;
  invoked : list Args
}.

(** Right after [debounce(func, wait)]: [timeout] is [null]. *)
Definition debounce : State := {| timeout := None; timers := []; invoked := [] |}.

(** [clearTimeout(t)]: cancels a pending timer, does nothing otherwise. *)
Definition clearTimeout (ts : list Timer) (t : nat) : list Timer :=
  match ts !! t with
  | Some (Scheduled _) => <[t := Cleared]> ts
  | _ => ts
  end.

(** One call of the returned function. *)
Definition call (s : State) (args : Args) : State :=
  let cleared :=
    match timeout s with
    | Some t => clearTimeout (timers s) t
    | None => timers s
    end in
  {| timeout := Some (length cleared);
     timers := (cleared ++ [Scheduled args])%list;
     invoked := invoked s |}.

(** The host runs timer [t]: possible only while it is scheduled. *)
Definition elapse (s : State) (t : nat) : option State :=
  match timers s !! t with
  | Some (Scheduled args) =>
      Some {| timeout := timeout s;
              timers := <[t := Fired]> (timers s);
              invoked := (invoked s ++ [args])%list |}
  | _ => None
  end.

Inductive Event : Type :=
| Invoke (args : Args)
| Elapse (t : nat).

Definition step (s : State) (ev : Event) : option State :=
  match ev with
  | Invoke args => Some (call s args)
  | Elapse t => elapse s t
  end.

Fixpoint run (s : State) (evs : list Event) : option State :=
  match evs with
  | [] => Some s
  | ev :: rest =>
      match step s ev with
      | Some s' => run s' rest
      | None => None
      end
  end.

(** The arguments of the calls among [evs], in order. *)
Fixpoint callsOf (evs : list Event) : list Args :=
  match evs with
  | [] => []
  | Invoke args :: rest => args :: callsOf rest
  | Elapse _ :: rest => callsOf rest
  end.

(** The arguments waiting in scheduled timers. *)
Fixpoint pending (ts : list Timer) : list Args :=
  match ts with
  | [] => []
  | Scheduled args :: rest => args :: pending rest
  | _ :: rest => pending rest
  end.

(** The only timer that can still be scheduled is the one [timeout] holds. *)
Definition single_timer (s : State) : Prop :=
  forall t args, timers s !! t = Some (Scheduled args) -> timeout s = Some t.

End Debounced.
Arguments Timer Args : clear implicits.
Arguments State Args : clear implicits.
Arguments Event Args : clear implicits.
End Debounce.

(* ===================================================================== *)
(** * [src/core/components/error-boundary.tsx]                             *)
(* ===================================================================== *)

(** [SectionErrorBoundary] is a React class component.  React drives it: when
    a descendant throws while rendering, React merges the result of
    [getDerivedStateFromError] into the state and then calls
    [componentDidCatch]; [setState] merges the given fields into the state.
    The methods are embedded as functions on the state, the callback and the
    console as a list of effects. *)

Module ErrorBoundary.
Import JS FeatureFlags Loader.

(** [React.ErrorInfo] *)
Record ErrorInfo : Type := mkErrorInfo { componentStack : string }.

(** [interface ErrorBoundaryState]; an absent field is [undefined]. *)
Record ErrorBoundaryState : Type := mkBoundaryState {
  hasError : bool;
  error : option JsError;
  errorInfo : option ErrorInfo
}.

(** [interface ErrorBoundaryProps], without [children]. *)
Record ErrorBoundaryProps : Type := mkBoundaryProps {
  fallback : option string;
  sectionId : option string;
  onError : bool
}.

Inductive Effect : Type :=
| onError_called (e : JsError) (info : ErrorInfo)
| console_error_section (message : string) (e : JsError)
| console_error_info (info : ErrorInfo).

(** What [render()] returns. *)
Inductive Rendered : Type :=
| Children
| Fallback (componentName : string) (shown : option JsError).

(** [this.state = { hasError: false }] *)
Definition constructor : ErrorBoundaryState :=
  {| hasError := false; error := None; errorInfo := None |}.

(** [getDerivedStateFromError(error)], merged into the previous state. *)
Definition getDerivedStateFromError (state : ErrorBoundaryState) (e : JsError)
  : ErrorBoundaryState :=
  {| hasError := true; error := Some e; errorInfo := errorInfo state |}.

(** The template literal's text for [this.props.sectionId]. *)
Definition sectionLabel (props : ErrorBoundaryProps) : string :=
  match sectionId props with
  | Some id => id
  | None => "undefined"
  end.

Definition componentDidCatch (env : Env) (props : ErrorBoundaryProps)
    (state : ErrorBoundaryState) (e : JsError) (info : ErrorInfo)
  : ErrorBoundaryState * list Effect :=
  ({| hasError := hasError state; error := Some e; errorInfo := Some info |},
   ((if onError props then [onError_called e info] else [])
    ++ (if development env
        then [console_error_section ("Section Error [" +:+ sectionLabel props +:+ "]:") e;
              console_error_info info]
        else []))%list).

Definition retry (state : ErrorBoundaryState) : ErrorBoundaryState :=
  {| hasError := false; error := None; errorInfo := None |}.

Definition render (props : ErrorBoundaryProps) (state : ErrorBoundaryState) : Rendered :=
  if hasError state then
    Fallback (match fallback props with
              | Some given => given
              | None => "DefaultErrorFallback"
              end)
             (error state)
  else Children.

(** What happens to a mounted boundary: a descendant throws during render, or
    the fallback's retry button is pressed. *)
Inductive Event : Type :=
| Caught (e : JsError) (info : ErrorInfo)
| Retry.

Definition step (env : Env) (props : ErrorBoundaryProps)
    (cfg : ErrorBoundaryState * list Effect) (ev : Event)
  : ErrorBoundaryState * list Effect :=
  match ev with
  | Caught e info =>
      let '(state', effects) :=
        componentDidCatch env props (getDerivedStateFromError (fst cfg) e) e info in
      (state', (snd cfg ++ effects)%list)
  | Retry => (retry (fst cfg), snd cfg)
  end.

Definition run (env : Env) (props : ErrorBoundaryProps) (evs : list Event)
  : ErrorBoundaryState * list Effect :=
  fold_left (step env props) evs (constructor, []).

(** The caught errors among [evs], in order. *)
Fixpoint caughtOf (evs : list Event) : list (JsError * ErrorInfo) :=
  match evs with
  | [] => []
  | Caught e info :: rest => (e, info) :: caughtOf rest
  | Retry :: rest => caughtOf rest
  end.

End ErrorBoundary.

(* ===================================================================== *)
(** * [initializeSections] of [src/layouts/landing-page.tsx]               *)
(* ===================================================================== *)

(** The effect of [LandingPage] runs [initializeSections] once.  It is
    embedded as it runs when nothing else uses the registry meanwhile: each
    [await sectionRegistry.loadSection(id)] runs the call and, when the call
    starts a fetch, the import's completion and the call's resumption.  The
    three [useState] cells are the fields of [PageState]; the functional
    updates are applied in program order. *)

Module LandingPage.
Import JS FeatureFlags Registry Loader.

(** The values of [loadingStatus]. *)
Inductive PageStatus : Type := page_loading | page_loaded | page_error.

Record PageState : Type := mkPage {
  sections : list SectionRegistryEntry;
  loadingStatus : PlainObject PageStatus;
  isInitialized : bool
}.

(** The initial values of the three [useState] cells. *)
Definition mounted : PageState :=
  {| sections := []; loadingStatus := []; isInitialized := false |}.

(** [setLoadingStatus(prev => ({ ...prev, [id]: status }))] *)
Definition setLoadingStatus (page : PageState) (id : string) (status : PageStatus)
  : PageState :=
  {| sections := sections page;
     loadingStatus := set (loadingStatus page) id status;
     isInitialized := isInitialized page |}.

Definition setSections (page : PageState) (entries : list SectionRegistryEntry)
  : PageState :=
  {| sections := entries;
     loadingStatus := loadingStatus page;
     isInitialized := isInitialized page |}.

Definition setIsInitialized (page : PageState) (value : bool) : PageState :=
  {| sections := sections page;
     loadingStatus := loadingStatus page;
     isInitialized := value |}.

(** [await sectionRegistry.loadSection(id)]: the call, and when it suspends,
    the completion of its import with [r] and its resumption.  The second
    component is what the awaited promise settled to; [None] when it has not
    settled (the call joined a load that nobody completes). *)
Definition awaitLoadSection (w : World) (id : SectionId) (r : ImportResult)
  : World * option Outcome :=
  let c := length (calls w) in
  let entered := loadSection_enter w id in
  let completed :=
    match calls entered !! c with
    | Some {| call_status := Awaiting p |} =>
        let imported :=
          match step entered (ImportDone p r) with
          | Some w' => w'
          | None => entered
          end in
        match step imported (Resume c) with
        | Some w' => w'
        | None => imported
        end
    | _ => entered
    end in
  (completed, outcome completed c).

(** The state of a run of [initializeSections]: the registry's world, the
    page's state, and whether the function is stuck at an [await] that never
    settles. *)
Record Progress : Type := mkProgress {
  world : World;
  page : PageState;
  suspended_forever : bool
}.

(** One round of the [for ... of additionalSections] loop. *)
Definition loadAdditional (r : ImportResult) (st : Progress) (entry : SectionRegistryEntry)
  : Progress :=
  if suspended_forever st then st
  else
    let id := cfg_id (config entry) in
    let marked := setLoadingStatus (page st) id page_loading in
    match awaitLoadSection (world st) id r with
    | (w', Some (Resolved (Some loadedEntry))) =>
        {| world := w';
           page := setLoadingStatus
                     (setSections marked
                        (sort byOrder (sections marked ++ [loadedEntry])%list))
                     id page_loaded;
           suspended_forever := false |}
    | (w', Some (Resolved None)) =>
        {| world := w'; page := marked; suspended_forever := false |}
    | (w', Some (RejectedWith reason)) =>
        {| world := log w' (console_error ("Failed to load section: " +:+ id) reason);
           page := setLoadingStatus marked id page_error;
           suspended_forever := false |}
    | (w', None) => {| world := w'; page := marked; suspended_forever := true |}
    end.

Definition initializeSections (env : Env) (flags : FlagTable) (w : World)
    (r : ImportResult) : Progress :=
  match awaitLoadSection w "hero" r with
  | (w', Some (Resolved heroEntry)) =>
      let seeded :=
        match heroEntry with
        | Some entry =>
            setLoadingStatus (setSections mounted [entry]) "hero" page_loaded
        | None => mounted
        end in
      let enabledSections := getEnabledSections env flags (manager w') in
      let additionalSections :=
        List.filter (fun entry => negb (String.eqb (cfg_id (config entry)) "hero"))
                    enabledSections in
      let looped :=
        fold_left (loadAdditional r) additionalSections
                  {| world := w'; page := seeded; suspended_forever := false |} in
      if suspended_forever looped then looped
      else {| world := world looped;
              page := setIsInitialized (page looped) true;
              suspended_forever := false |}
  | (w', Some (RejectedWith reason)) =>
      {| world := log w' (console_error "Failed to initialize sections:" reason);
         page := setIsInitialized mounted true;
         suspended_forever := false |}
  | (w', None) => {| world := w'; page := mounted; suspended_forever := true |}
  end.

End LandingPage.

(* ===================================================================== *)
(** * Vocabulary of the specification                                      *)
(* ===================================================================== *)

Import JS FeatureFlags Registry Loader Helpers.

(** [a] may precede [b] in an array sorted ascending by [key]. *)
Definition nondecreasing {A : Type} (key : A -> Z) (a b : A) : Prop :=
  (key a <= key b)%Z.

(** The entries' sort key. *)
Definition orderOf (entry : SectionRegistryEntry) : Z := cfg_order (config entry).

(** The sub-sequence of the entries whose [order] is [k]. *)
Definition ofOrder (k : Z) (l : list SectionRegistryEntry) : list SectionRegistryEntry :=
  List.filter (fun entry => (orderOf entry =? k)%Z) l.

(** The registered entries whose flag lookup is truthy, in registration order:
    what [getEnabledSections] hands to [sort]. *)
Definition enabledEntries (env : Env) (flags : FlagTable)
    (this : SectionRegistryManager) : list SectionRegistryEntry :=
  List.filter (fun entry => truthy (isFeatureEnabled env flags (cfg_id (config entry))))
              (getAllSections this).

(** Every entry is stored under its own [config.id], as [loadSection] stores
    the entries it registers. *)
Definition keyed_by_id (this : SectionRegistryManager) : Prop :=
  forall id entry, In (id, entry) (sections this) -> cfg_id (config entry) = id.

(** The status [getLoadStatus] derives for one identifier. *)
Definition statusOf (this : SectionRegistryManager) (id : SectionId) : LoadStatus :=
  if hasSection this id then loaded
  else if bool_decide (is_Some (loadPromises this !! id)) then loading
  else not_loaded.

(** The dependencies of [entry] that are not registered, in declaration order. *)
Definition missingOf (this : SectionRegistryManager) (entry : SectionRegistryEntry)
  : list string :=
  List.filter (fun dep => negb (hasSection this dep)) (cfg_dependencies (config entry)).

(** One message per enabled entry and missing dependency, in loop order. *)
Definition expectedErrors (env : Env) (flags : FlagTable)
    (this : SectionRegistryManager) : list string :=
  flat_map (fun entry => map (missingDependency (cfg_id (config entry)))
                             (missingOf this entry))
           (getEnabledSections env flags this).

(** ** Sample data and protocol vocabulary *)

(** A development environment that overrides two flags. *)
Definition devEnv : Env :=
  {[ "NODE_ENV" := "development";
     "FEATURE_hero" := "true";
     "FEATURE_PRICING_SECTION" := "yes" ]}.

(** A production environment: no variable is read. *)
Definition prodEnv : Env := {[ "NODE_ENV" := "production" ]}.

(** Three entries for the examples: two of the same [order], one below. *)
Definition sampleEntry (id : string) (order : Z) : SectionRegistryEntry :=
  {| config := {| cfg_id := id; cfg_name := id; cfg_version := "1.0.0";
                  cfg_enabled := true; cfg_dependencies := []; cfg_props := [];
                  cfg_order := order; cfg_component := NullComponent |};
     component := ComponentRef id |}.

Definition sampleRegistry : SectionRegistryManager :=
  register (register (register sectionRegistry
    "pricing" (sampleEntry "pricing" 2))
    "hero" (sampleEntry "hero" 2))
    "features" (sampleEntry "features" 1).

Definition sampleEnv : Env :=
  {[ "NODE_ENV" := "development"; "FEATURE_pricing" := "true";
     "FEATURE_hero" := "true"; "FEATURE_features" := "true" ]}.

Definition heroEntry : SectionRegistryEntry :=
  {| config := heroSectionConfig; component := ComponentRef "HeroSectionWithErrorBoundary" |}.

(** What every reachable run-time state satisfies: the in-flight markers and
    the suspended calls correspond one to one, a suspended call's section is
    loadable and not yet registered, and promises are referred to only once
    they exist. *)
Record consistent (w : World) : Prop := mkConsistent {
  marker_has_call : forall id p,
    loadPromises (manager w) !! id = Some p ->
    exists c, calls w !! c = Some (mkCall id (Awaiting p));
  call_has_marker : forall c id p,
    calls w !! c = Some (mkCall id (Awaiting p)) ->
    loadPromises (manager w) !! id = Some p
    /\ getSection (manager w) id = None
    /\ available id = true
    /\ p < length (promises w);
  awaited_once : forall c1 c2 id1 id2 p,
    calls w !! c1 = Some (mkCall id1 (Awaiting p)) ->
    calls w !! c2 = Some (mkCall id2 (Awaiting p)) -> c1 = c2;
  forwarded_known : forall c id p,
    calls w !! c = Some (mkCall id (Forwarded p)) -> p < length (promises w);
  one_promise_per_fetch : length (promises w) = length (imports w)
}.

(** Two overlapping loads of one loadable section, from a state in which it
    is neither registered nor being loaded, up to the first call's return. *)
Definition overlappingLoads (w : World) (id : SectionId) (r : ImportResult) : list Event :=
  [ Call id; Call id; ImportDone (length (promises w)) r; Resume (length (calls w)) ].

(** One load of a loadable section that is neither registered nor being
    loaded, run to the call's return. *)
Definition singleLoad (w : World) (id : SectionId) (r : ImportResult) : list Event :=
  [ Call id; ImportDone (length (promises w)) r; Resume (length (calls w)) ].

(** The state after two overlapping calls whose import has succeeded, before
    the first call is resumed. *)
Definition joinedLoad : World :=
  match run initial [Call "hero"; Call "hero"; ImportDone 0 (Loaded heroModule)] with
  | Some w => w
  | None => initial
  end.

(** The state after one completed, successful load of the hero section. *)
Definition heroLoaded : World :=
  match run initial (singleLoad initial "hero" (Loaded heroModule)) with
  | Some w => w
  | None => initial
  end.

(** The state after one call whose import has failed, before the call is
    resumed. *)
Definition failedImport : World :=
  match run initial [Call "hero"; ImportDone 0 (Failed (Error "ChunkLoadError"))] with
  | Some w => w
  | None => initial
  end.

(** A schema with one required and one optional property. *)
Definition optionalSchema : SectionConfig :=
  {| cfg_id := "hero"; cfg_name := "Hero Section"; cfg_version := "1.0.0";
     cfg_enabled := true; cfg_dependencies := [];
     cfg_props := [ ("title", "string"); ("className", "string?") ];
     cfg_order := 1; cfg_component := NullComponent |}.

(** Only allow-listed identifiers have been fetched, registered or marked as
    in flight. *)
Definition gated (w : World) : Prop :=
  (forall id, In id (imports w) -> In id AVAILABLE_SECTIONS)
  /\ (forall id entry, In (id, entry) (sections (manager w)) -> In id AVAILABLE_SECTIONS)
  /\ (forall id p, loadPromises (manager w) !! id = Some p -> In id AVAILABLE_SECTIONS).

(** Some [loadSection(id)] call is suspended at its [await]. *)
Definition suspended (w : World) (id : SectionId) : Prop :=
  exists c p, calls w !! c = Some (mkCall id (Awaiting p)).

(** [Array.isArray(propValue) ? 'array' : typeof propValue] *)
Definition actualTypeOf (propValue : Value) : string :=
  if isArray propValue then "array" else typeof propValue.

(** A property of [props] passes the second loop of [validateSectionProps]:
    its name is no own key of the schema, or its tag contains [[]] and the
    value is an array, or its tag has no [[]] and the value's type is the tag
    or the value is [undefined]. *)
Definition conforms (schema : PlainObject string) (propName : string) (propValue : Value)
  : bool :=
  match own schema propName with
  | Some expectedType =>
      if includes expectedType "[]" then isArray propValue
      else String.eqb expectedType (actualTypeOf propValue)
           || String.eqb (actualTypeOf propValue) "undefined"
  | None => true
  end.

(** A property name that is no own key of the schema but is found on it
    through [Object.prototype]. *)
Definition shadowsBuiltin (schema : PlainObject string) (propName : string) : bool :=
  match own schema propName with
  | Some _ => false
  | None => inherited propName
  end.

(** The keys are pairwise different, as the own keys of an object are. *)
Fixpoint distinct (keys : list string) : bool :=
  match keys with
  | [] => true
  | key :: rest => negb (existsb (String.eqb key) rest) && distinct rest
  end.

(** A value as [mergeDeep] can meet it: every object reached through object
    properties has pairwise different keys, none of them [__proto__]. *)
Fixpoint well_formed (v : Value) : bool :=
  match v with
  | VObject fields =>
      distinct (map fst fields)
      && negb (existsb (String.eqb "__proto__") (map fst fields))
      && (fix all (entries : list (string * Value)) : bool :=
            match entries with
            | [] => true
            | (_, x) :: rest => well_formed x && all rest
            end) fields
  | _ => true
  end.

(** The value [mergeDeep] stores for one key: the recursive merge when both
    sides are non-array objects, the source's value otherwise. *)
Definition mergeValue (sourceValue targetValue : Value) : Value :=
  match sourceValue, targetValue with
  | VObject _, VObject targetFields => VObject (mergeInto targetFields sourceValue)
  | _, _ => sourceValue
  end.

(** One round of the [forEach] of [mergeDeep]. *)
Definition mergeStep (result : PlainObject Value) (entry : string * Value)
  : PlainObject Value :=
  JS.set result (fst entry) (mergeValue (snd entry) (JS.get (fun v => v) result (fst entry))).

(* ===================================================================== *)
(** * Facts about the JavaScript library model                            *)
(* ===================================================================== *)

Section SortFacts.
Context {A : Type} (key : A -> Z) (compareFn : A -> A -> Z).
Hypothesis compareFn_key : forall a b, compareFn a b = (key a - key b)%Z.

Lemma sort_insert_perm (x : A) (l : list A) :
  Permutation (JS.sort_insert compareFn x l) (x :: l).
Proof.
  induction l as [|y r IH]; simpl.
  - apply Permutation_refl.
  - destruct (0 <? compareFn x y)%Z.
    + apply Permutation_trans with (y :: x :: r).
      * apply perm_skip, IH.
      * apply perm_swap.
    + apply Permutation_refl.
Qed.

Lemma sort_perm (l : list A) : Permutation (JS.sort compareFn l) l.
Proof.
  induction l as [|x r IH]; simpl.
  - apply Permutation_refl.
  - apply Permutation_trans with (x :: JS.sort compareFn r).
    + apply sort_insert_perm.
    + apply perm_skip, IH.
Qed.

Lemma sort_In (l : list A) (a : A) : In a (JS.sort compareFn l) <-> In a l.
Proof.
  split; apply Permutation_in.
  - apply sort_perm.
  - apply Permutation_sym, sort_perm.
Qed.

Lemma sort_insert_hd (x y : A) (l : list A) :
  nondecreasing key y x -> HdRel (nondecreasing key) y l ->
  HdRel (nondecreasing key) y (JS.sort_insert compareFn x l).
Proof.
  intros Hyx Hl. destruct l as [|z r]; simpl.
  - constructor. exact Hyx.
  - destruct (0 <? compareFn x z)%Z; constructor.
    + inversion Hl; assumption.
    + exact Hyx.
Qed.

Lemma sort_insert_sorted (x : A) (l : list A) :
  Sorted (nondecreasing key) l -> Sorted (nondecreasing key) (JS.sort_insert compareFn x l).
Proof.
  induction l as [|y r IH]; intros Hs; simpl.
  - repeat constructor.
  - destruct (0 <? compareFn x y)%Z eqn:Hc.
    + inversion Hs as [|? ? Hr Hhd]; subst.
      constructor.
      * apply IH, Hr.
      * apply sort_insert_hd; [|exact Hhd].
        unfold nondecreasing. rewrite compareFn_key in Hc. lia.
    + constructor; [exact Hs|].
      constructor. unfold nondecreasing. rewrite compareFn_key in Hc. lia.
Qed.

Lemma sort_sorted (l : list A) : Sorted (nondecreasing key) (JS.sort compareFn l).
Proof.
  induction l as [|x r IH]; simpl.
  - constructor.
  - apply sort_insert_sorted, IH.
Qed.

(** Stability: inserting [x] never moves it past an element of the same key,
    so the elements of any one key keep their relative positions. *)
Lemma sort_insert_stable (k : Z) (x : A) (l : list A) :
  List.filter (fun a => (key a =? k)%Z) (JS.sort_insert compareFn x l)
  = List.filter (fun a => (key a =? k)%Z) (x :: l).
Proof.
  induction l as [|y r IH]; simpl; [reflexivity|].
  destruct (0 <? compareFn x y)%Z eqn:Hc; [|reflexivity].
  rewrite compareFn_key in Hc. simpl. rewrite IH. simpl.
  destruct (key y =? k)%Z eqn:Hy, (key x =? k)%Z eqn:Hx; try reflexivity.
  lia.
Qed.

Lemma sort_stable (k : Z) (l : list A) :
  List.filter (fun a => (key a =? k)%Z) (JS.sort compareFn l)
  = List.filter (fun a => (key a =? k)%Z) l.
Proof.
  induction l as [|x r IH]; simpl; [reflexivity|].
  rewrite sort_insert_stable. simpl. rewrite IH. reflexivity.
Qed.

(** Sorting an array that is already in order leaves it as it is. *)
Lemma sort_sorted_id (l : list A) :
  Sorted (nondecreasing key) l -> JS.sort compareFn l = l.
Proof.
  induction l as [|x r IH]; intros Hs; simpl; [reflexivity|].
  inversion Hs as [|? ? Hr Hhd]; subst.
  rewrite (IH Hr).
  destruct r as [|y r']; simpl; [reflexivity|].
  inversion Hhd as [|? ? Hxy]; subst. unfold nondecreasing in Hxy.
  rewrite compareFn_key.
  destruct (0 <? key x - key y)%Z eqn:Hc; [lia|reflexivity].
Qed.

Lemma sort_idempotent (l : list A) :
  JS.sort compareFn (JS.sort compareFn l) = JS.sort compareFn l.
Proof. apply sort_sorted_id, sort_sorted. Qed.

End SortFacts.

Section SortUnique.
Context {A : Type} (key : A -> Z).

Local Abbreviation keyed k := (List.filter (fun a => (key a =? k)%Z)).

Lemma sorted_head_least (x : A) (l : list A) :
  Sorted (nondecreasing key) (x :: l) -> forall a, In a l -> (key x <= key a)%Z.
Proof.
  intros Hs a Ha.
  apply Sorted_StronglySorted in Hs.
  - inversion Hs as [|? ? _ Hall]; subst.
    rewrite List.Forall_forall in Hall. apply Hall, Ha.
  - intros u v w Huv Hvw. unfold nondecreasing in *. lia.
Qed.

(** Two sorted arrangements that agree on the sequence of elements of every
    key are the same list: the result of a stable sort is determined. *)
Lemma stable_sorted_unique (l1 l2 : list A) :
  Sorted (nondecreasing key) l1 -> Sorted (nondecreasing key) l2 ->
  (forall k, keyed k l1 = keyed k l2) -> l1 = l2.
Proof.
  revert l2. induction l1 as [|x r1 IH]; intros l2 H1 H2 Heq.
  - destruct l2 as [|y r2]; [reflexivity|].
    specialize (Heq (key y)). simpl in Heq. rewrite Z.eqb_refl in Heq. discriminate.
  - destruct l2 as [|y r2].
    + specialize (Heq (key x)). simpl in Heq. rewrite Z.eqb_refl in Heq. discriminate.
    + assert (Hxy : (key x <= key y)%Z).
      { destruct (Z.eq_dec (key x) (key y)) as [->|Hne]; [lia|].
        apply (sorted_head_least x r1 H1).
        assert (Hin : In y (keyed (key y) (x :: r1))).
        { rewrite Heq. simpl. rewrite Z.eqb_refl. left. reflexivity. }
        apply filter_In in Hin. destruct Hin as [[->|Hin] _]; [congruence|exact Hin]. }
      assert (Hyx : (key y <= key x)%Z).
      { destruct (Z.eq_dec (key x) (key y)) as [->|Hne]; [lia|].
        apply (sorted_head_least y r2 H2).
        assert (Hin : In x (keyed (key x) (y :: r2))).
        { rewrite <- Heq. simpl. rewrite Z.eqb_refl. left. reflexivity. }
        apply filter_In in Hin. destruct Hin as [[->|Hin] _]; [congruence|exact Hin]. }
      assert (Hk : key x = key y) by lia.
      assert (Hhead : x = y).
      { specialize (Heq (key x)). simpl in Heq.
        rewrite Z.eqb_refl in Heq. rewrite <- Hk, Z.eqb_refl in Heq. congruence. }
      subst y. f_equal. apply IH.
      * inversion H1; assumption.
      * inversion H2; assumption.
      * intros k. specialize (Heq k). simpl in Heq.
        destruct (key x =? k)%Z; congruence.
Qed.

(** Hence every stable sorting procedure computes [JS.sort]. *)
Lemma sort_determined (compareFn : A -> A -> Z) (l out : list A) :
  (forall a b, compareFn a b = (key a - key b)%Z) ->
  Sorted (nondecreasing key) out ->
  (forall k, keyed k out = keyed k l) ->
  out = JS.sort compareFn l.
Proof.
  intros Hc Hs Hst. apply stable_sorted_unique.
  - exact Hs.
  - apply sort_sorted, Hc.
  - intros k. rewrite Hst. symmetry. apply sort_stable, Hc.
Qed.

End SortUnique.

Section MapFacts.
Context {V : Type}.

Lemma map_get_In (m : JS.MapOf V) (k : string) (v : V) :
  JS.map_get m k = Some v -> In (k, v) m.
Proof.
  induction m as [|[k' v'] r IH]; simpl; [discriminate|].
  destruct (String.eqb k' k) eqn:Hk.
  - apply String.eqb_eq in Hk. intros [= ->]. left. congruence.
  - intros H. right. apply IH, H.
Qed.

Lemma In_map_has (m : JS.MapOf V) (k : string) (v : V) :
  In (k, v) m -> JS.map_has m k = true.
Proof.
  unfold JS.map_has.
  induction m as [|[k' v'] r IH]; simpl; [tauto|].
  intros [[= -> ->]|Hin].
  - rewrite String.eqb_refl. reflexivity.
  - destruct (String.eqb k' k); [reflexivity|]. apply IH, Hin.
Qed.

Lemma map_get_set_eq (m : JS.MapOf V) (k : string) (v : V) :
  JS.map_get (JS.map_set m k v) k = Some v.
Proof.
  induction m as [|[k' v'] r IH]; simpl.
  - rewrite String.eqb_refl. reflexivity.
  - destruct (String.eqb k' k) eqn:Hk; simpl; rewrite Hk; [reflexivity|exact IH].
Qed.

Lemma map_get_set_ne (m : JS.MapOf V) (k k' : string) (v : V) :
  k <> k' -> JS.map_get (JS.map_set m k v) k' = JS.map_get m k'.
Proof.
  intros Hne. induction m as [|[k0 v0] r IH]; simpl.
  - destruct (String.eqb k k') eqn:Hk; [|reflexivity].
    apply String.eqb_eq in Hk. contradiction.
  - destruct (String.eqb k0 k) eqn:Hk; simpl.
    + apply String.eqb_eq in Hk. subst k0.
      destruct (String.eqb k k') eqn:Hk'; [|reflexivity].
      apply String.eqb_eq in Hk'. contradiction.
    + destruct (String.eqb k0 k'); [reflexivity|exact IH].
Qed.

(** [Map.prototype.set] on a fresh key appends: insertion order. *)
Lemma map_set_fresh (m : JS.MapOf V) (k : string) (v : V) :
  JS.map_get m k = None -> JS.map_set m k v = (m ++ [(k, v)])%list.
Proof.
  induction m as [|[k' v'] r IH]; simpl; [reflexivity|].
  destruct (String.eqb k' k); [discriminate|].
  intros H. rewrite (IH H). reflexivity.
Qed.

End MapFacts.

(* ===================================================================== *)
(** * Feature flags                                                       *)
(* ===================================================================== *)

Lemma own_flag_table_section (h f p t c : bool) (id : SectionId) :
  In id allSectionIds -> own (flag_table h f p t c) id = None.
Proof.
  unfold allSectionIds. simpl.
  intros [<-|[<-|[<-|[<-|[<-|[]]]]]]; reflexivity.
Qed.

Lemma inherited_section (id : SectionId) :
  In id allSectionIds -> inherited id = false.
Proof.
  unfold allSectionIds. simpl.
  intros [<-|[<-|[<-|[<-|[<-|[]]]]]]; reflexivity.
Qed.

Lemma isFeatureEnabled_production (env : Env) (flags : FlagTable) (feature : string) :
  development env = false -> isFeatureEnabled env flags feature = flag_lookup flags feature.
Proof. unfold isFeatureEnabled. intros ->. reflexivity. Qed.

(** Outside development mode a section identifier looks up nothing in a table
    keyed by [*_SECTION] names. *)
Lemma isFeatureEnabled_section_undefined (env : Env) (h f p t c : bool) (id : SectionId) :
  development env = false -> In id allSectionIds ->
  isFeatureEnabled env (flag_table h f p t c) id = VUndefined.
Proof.
  intros Hdev Hid. rewrite isFeatureEnabled_production by exact Hdev.
  unfold flag_lookup, get.
  rewrite (own_flag_table_section _ _ _ _ _ _ Hid), (inherited_section _ Hid).
  reflexivity.
Qed.

(** C3, as the code has it: in development mode with the per-flag variable
    set, [isFeatureEnabled] returns the boolean "the variable equals the
    literal string true", whatever the table says; in every other case it
    returns the table lookup [FEATURE_FLAGS[feature]], which is the table's
    boolean for a key of the table and [undefined] (falsy, not the boolean
    false) for an identifier that names no property of the table object. *)
Theorem isFeatureEnabled_cases (env : Env) (flags : FlagTable) (feature : string) :
  (forall envOverride,
     development env = true -> env !! ("FEATURE_" +:+ feature) = Some envOverride ->
     isFeatureEnabled env flags feature = VBool (String.eqb envOverride "true")
     /\ (isFeatureEnabled env flags feature = VBool true <-> envOverride = "true"))
  /\ (development env = true -> env !! ("FEATURE_" +:+ feature) = None ->
      isFeatureEnabled env flags feature = flag_lookup flags feature)
  /\ (development env = false ->
      isFeatureEnabled env flags feature = flag_lookup flags feature)
  /\ (forall b, own flags feature = Some b -> flag_lookup flags feature = VBool b)
  /\ (own flags feature = None -> inherited feature = false ->
      flag_lookup flags feature = VUndefined
      /\ truthy (flag_lookup flags feature) = false).
Proof.
  unfold isFeatureEnabled, flag_lookup, get.
  split; [|split; [|split; [|split]]].
  - intros envOverride Hdev Hset. rewrite Hdev, Hset. split; [reflexivity|]. split.
    + intros [= Heq]. apply String.eqb_eq, Heq.
    + intros ->. reflexivity.
  - intros Hdev Hnone. rewrite Hdev, Hnone. reflexivity.
  - intros ->. reflexivity.
  - intros b ->. reflexivity.
  - intros Hown Hinh. rewrite Hown, Hinh. split; reflexivity.
Qed.

Lemma isFeatureEnabled_cases_witness :
  isFeatureEnabled devEnv FEATURE_FLAGS "hero" = VBool true
  /\ isFeatureEnabled devEnv FEATURE_FLAGS "PRICING_SECTION" = VBool false
  /\ isFeatureEnabled devEnv FEATURE_FLAGS "HERO_SECTION" = VBool true
  /\ isFeatureEnabled prodEnv FEATURE_FLAGS "FEATURES_SECTION" = VBool false
  /\ isFeatureEnabled prodEnv FEATURE_FLAGS "hero" = VUndefined.
Proof.
  split; [|split; [|split; [|split]]].
  - destruct (isFeatureEnabled_cases devEnv FEATURE_FLAGS "hero") as [H _].
    destruct (H "true") as [-> _]; reflexivity.
  - destruct (isFeatureEnabled_cases devEnv FEATURE_FLAGS "PRICING_SECTION") as [H _].
    destruct (H "yes") as [-> _]; reflexivity.
  - destruct (isFeatureEnabled_cases devEnv FEATURE_FLAGS "HERO_SECTION")
      as (_ & H & _ & Hown & _).
    rewrite H by reflexivity. apply Hown. reflexivity.
  - destruct (isFeatureEnabled_cases prodEnv FEATURE_FLAGS "FEATURES_SECTION")
      as (_ & _ & H & Hown & _).
    rewrite H by reflexivity. apply Hown. reflexivity.
  - destruct (isFeatureEnabled_cases prodEnv FEATURE_FLAGS "hero")
      as (_ & _ & H & _ & Habsent).
    rewrite H by reflexivity. apply Habsent; reflexivity.
Defined.

(** C3 as stated fails: ['hero'] is absent from the static table, and outside
    development mode [isFeatureEnabled('hero')] is [undefined], which is
    neither the boolean false nor any boolean. *)
Lemma isFeatureEnabled_absent_not_boolean :
  own FEATURE_FLAGS "hero" = None
  /\ isFeatureEnabled prodEnv FEATURE_FLAGS "hero" = VUndefined
  /\ isFeatureEnabled prodEnv FEATURE_FLAGS "hero" <> VBool false
  /\ forall b, isFeatureEnabled prodEnv FEATURE_FLAGS "hero" <> VBool b.
Proof.
  repeat split; try reflexivity; intros; discriminate.
Qed.

(* ===================================================================== *)
(** * The registry's synchronous views                                    *)
(* ===================================================================== *)

Section RegistryViews.
Context (env : Env) (flags : FlagTable) (this : SectionRegistryManager).

Lemma byOrder_orderOf (a b : SectionRegistryEntry) :
  byOrder a b = (orderOf a - orderOf b)%Z.
Proof. reflexivity. Qed.

Lemma getEnabledSections_sort :
  getEnabledSections env flags this = JS.sort byOrder (enabledEntries env flags this).
Proof. reflexivity. Qed.

Lemma getEnabledSections_In (entry : SectionRegistryEntry) :
  In entry (getEnabledSections env flags this)
  <-> In entry (getAllSections this)
      /\ truthy (isFeatureEnabled env flags (cfg_id (config entry))) = true.
Proof.
  rewrite getEnabledSections_sort, (sort_In byOrder).
  unfold enabledEntries. rewrite filter_In. reflexivity.
Qed.

Lemma getEnabledSections_sorted :
  Sorted (nondecreasing orderOf) (getEnabledSections env flags this).
Proof. apply (sort_sorted orderOf byOrder byOrder_orderOf). Qed.

Lemma getAllSections_registered (entry : SectionRegistryEntry) :
  keyed_by_id this -> In entry (getAllSections this) ->
  hasSection this (cfg_id (config entry)) = true.
Proof.
  intros Hkeyed Hin. unfold getAllSections, map_values in Hin.
  apply in_map_iff in Hin. destruct Hin as [[id e] [Heq Hin]]. simpl in Heq. subst e.
  rewrite (Hkeyed _ _ Hin). unfold hasSection. apply (In_map_has _ _ _ Hin).
Qed.

End RegistryViews.

Lemma map_set_In {V : Type} (m : MapOf V) (key k : string) (v x : V) :
  In (k, x) (map_set m key v) -> (k, x) = (key, v) \/ In (k, x) m.
Proof.
  induction m as [|[k0 v0] rest IH]; simpl.
  - intros [H|[]]. left. symmetry. exact H.
  - destruct (String.eqb k0 key) eqn:Hk; simpl.
    + apply String.eqb_eq in Hk. subst k0. intros [H|H].
      * left. symmetry. exact H.
      * right. right. exact H.
    + intros [H|H].
      * right. left. exact H.
      * destruct (IH H) as [E|Hin]; [left; exact E|right; right; exact Hin].
Qed.

(** The empty registry stores every entry under its own identifier, and so
    does a registry after registering an entry under its [config.id], which
    is what [loadSection('hero')] does with the hero module. *)
Lemma keyed_by_id_empty : keyed_by_id sectionRegistry.
Proof. intros id entry []. Qed.

Lemma keyed_by_id_register (this : SectionRegistryManager) (id : SectionId)
    (entry : SectionRegistryEntry) :
  keyed_by_id this -> cfg_id (config entry) = id -> keyed_by_id (register this id entry).
Proof.
  intros Hkeyed Hid k e Hin. simpl in Hin.
  apply map_set_In in Hin. destruct Hin as [[= -> ->]|Hin].
  - exact Hid.
  - apply (Hkeyed k e Hin).
Qed.

Lemma heroModule_keyed : cfg_id (config (moduleEntry heroModule)) = "hero".
Proof. reflexivity. Qed.

(** C2, as the code has it: in a registry whose entries are stored under their
    own [config.id], every entry of [getEnabledSections()] has a truthy
    [isSectionEnabled(id)]; and in every registry the output is sorted
    non-decreasing by [order], holds exactly the registered entries whose flag
    lookup is truthy, and keeps the entries of any one [order] in their
    registration order. *)
Theorem getEnabledSections_filtered_sorted_stable
    (env : Env) (flags : FlagTable) (this : SectionRegistryManager) :
  (keyed_by_id this ->
   forall entry, In entry (getEnabledSections env flags this) ->
     truthy (isSectionEnabled env flags this (cfg_id (config entry))) = true)
  /\ Sorted (nondecreasing orderOf) (getEnabledSections env flags this)
  /\ Permutation (getEnabledSections env flags this) (enabledEntries env flags this)
  /\ (forall k, ofOrder k (getEnabledSections env flags this)
                = ofOrder k (enabledEntries env flags this)).
Proof.
  split; [|split; [|split]].
  - intros Hkeyed entry Hin.
    apply getEnabledSections_In in Hin. destruct Hin as [Hreg Hflag].
    unfold isSectionEnabled, and_then.
    rewrite (getAllSections_registered this entry Hkeyed Hreg). simpl. exact Hflag.
  - apply getEnabledSections_sorted.
  - rewrite getEnabledSections_sort. apply sort_perm.
  - intros k. rewrite getEnabledSections_sort.
    apply (sort_stable orderOf byOrder byOrder_orderOf).
Qed.

Lemma sampleRegistry_keyed : keyed_by_id sampleRegistry.
Proof.
  intros id entry Hin. simpl in Hin.
  destruct Hin as [[= <- <-]|[[= <- <-]|[[= <- <-]|[]]]]; reflexivity.
Defined.

Lemma getEnabledSections_filtered_sorted_stable_witness :
  getEnabledSections sampleEnv FEATURE_FLAGS sampleRegistry
  = [sampleEntry "features" 1; sampleEntry "pricing" 2; sampleEntry "hero" 2]
  /\ truthy (isSectionEnabled sampleEnv FEATURE_FLAGS sampleRegistry "pricing") = true.
Proof.
  split; [reflexivity|].
  destruct (getEnabledSections_filtered_sorted_stable sampleEnv FEATURE_FLAGS sampleRegistry)
    as [H _].
  apply (H sampleRegistry_keyed (sampleEntry "pricing" 2)).
  simpl. right. left. reflexivity.
Defined.

(** C2 as stated fails for a registry state the API admits: [register('hero',
    e)] with [e.config.id = 'HERO_SECTION'].  Outside development mode the
    filter looks up [e.config.id] and keeps [e], while [isSectionEnabled] is
    false for ['HERO_SECTION'] (no such key is registered) and [undefined]
    for ['hero'] (no such flag). *)
Lemma getEnabledSections_lists_disabled_id :
  let e := sampleEntry "HERO_SECTION" 1 in
  let this := register sectionRegistry "hero" e in
  In e (getEnabledSections prodEnv FEATURE_FLAGS this)
  /\ isSectionEnabled prodEnv FEATURE_FLAGS this (cfg_id (config e)) = VBool false
  /\ isSectionEnabled prodEnv FEATURE_FLAGS this "hero" = VUndefined.
Proof.
  simpl. repeat split; try reflexivity. left. reflexivity.
Qed.

(** C10: [getSectionsInOrder()] returns the same sequence as
    [getEnabledSections()]: its second sort, by the same comparator, finds the
    array already in order and leaves it unchanged. *)
Theorem getSectionsInOrder_eq_getEnabledSections
    (env : Env) (flags : FlagTable) (this : SectionRegistryManager) :
  getSectionsInOrder env flags this = getEnabledSections env flags this.
Proof.
  unfold getSectionsInOrder.
  apply (sort_sorted_id orderOf byOrder byOrder_orderOf).
  apply getEnabledSections_sorted.
Qed.

(** C9: outside development mode, with any values in the five [*_SECTION]
    slots of the table, [isSectionEnabled(id)] is never true for a section
    identifier: it is false when [id] is not registered and [undefined] when
    it is; and a registry whose entries carry section identifiers has an empty
    [getEnabledSections()]. *)
Theorem section_id_is_no_flag_key
    (env : Env) (h f p t c : bool) (this : SectionRegistryManager) :
  development env = false ->
  (forall id, In id allSectionIds ->
     isSectionEnabled env (flag_table h f p t c) this id <> VBool true
     /\ truthy (isSectionEnabled env (flag_table h f p t c) this id) = false
     /\ (hasSection this id = true ->
         isSectionEnabled env (flag_table h f p t c) this id = VUndefined))
  /\ ((forall entry, In entry (getAllSections this) ->
         In (cfg_id (config entry)) allSectionIds) ->
      getEnabledSections env (flag_table h f p t c) this = []).
Proof.
  intros Hdev. split.
  - intros id Hid. unfold isSectionEnabled, and_then.
    rewrite (isFeatureEnabled_section_undefined env h f p t c id Hdev Hid).
    destruct (hasSection this id); simpl; repeat split; try discriminate; reflexivity.
  - intros Hids.
    destruct (getEnabledSections env (flag_table h f p t c) this) as [|entry rest] eqn:Hout;
      [reflexivity|].
    assert (Hin : In entry (getEnabledSections env (flag_table h f p t c) this))
      by (rewrite Hout; left; reflexivity).
    apply getEnabledSections_In in Hin. destruct Hin as [Hreg Hflag].
    rewrite (isFeatureEnabled_section_undefined env h f p t c _ Hdev (Hids _ Hreg)) in Hflag.
    discriminate.
Qed.

Lemma section_id_is_no_flag_key_witness :
  let this := register sectionRegistry "hero" heroEntry in
  hasSection this "hero" = true
  /\ own (flag_table true true true true true) "HERO_SECTION" = Some true
  /\ isSectionEnabled prodEnv (flag_table true true true true true) this "hero" = VUndefined
  /\ getEnabledSections prodEnv (flag_table true true true true true) this = [].
Proof.
  simpl.
  destruct (section_id_is_no_flag_key prodEnv true true true true true
              (register sectionRegistry "hero" heroEntry) eq_refl) as [Hid Hout].
  split; [reflexivity|]. split; [reflexivity|]. split.
  - apply (Hid "hero"); [left; reflexivity|reflexivity].
  - apply Hout. intros entry [<-|[]]. left. reflexivity.
Defined.

(* ===================================================================== *)
(** * [getLoadStatus]                                                      *)
(* ===================================================================== *)

Section ObjectFacts.
Context {V : Type}.

Lemma set_fresh (o : PlainObject V) (key : string) (v : V) :
  own o key = None -> JS.set o key v = (o ++ [(key, v)])%list.
Proof.
  induction o as [|[k x] rest IH]; simpl; [reflexivity|].
  destruct (String.eqb k key); [discriminate|].
  intros H. rewrite (IH H). reflexivity.
Qed.

Lemma own_app_fresh (o : PlainObject V) (key key' : string) (v : V) :
  key <> key' -> own (o ++ [(key, v)])%list key' = own o key'.
Proof.
  intros Hne. induction o as [|[k x] rest IH]; simpl.
  - destruct (String.eqb key key') eqn:Hk; [|reflexivity].
    apply String.eqb_eq in Hk. contradiction.
  - destruct (String.eqb k key'); [reflexivity|exact IH].
Qed.

(** A loop that assigns one property per key of a duplicate-free key list
    builds the object that lists those keys in order. *)
Lemma assign_each (f : string -> V) (keys : list string) (o : PlainObject V) :
  List.NoDup keys -> (forall key, In key keys -> own o key = None) ->
  fold_left (fun status key => JS.set status key (f key)) keys o
  = (o ++ map (fun key => (key, f key)) keys)%list.
Proof.
  revert o. induction keys as [|key rest IH]; intros o Hnd Hfresh; simpl.
  - rewrite app_nil_r. reflexivity.
  - inversion Hnd as [|? ? Hnotin Hnd']; subst.
    rewrite set_fresh by (apply Hfresh; left; reflexivity).
    rewrite IH.
    + rewrite <- app_assoc. reflexivity.
    + exact Hnd'.
    + intros key' Hin. rewrite own_app_fresh.
      * apply Hfresh. right. exact Hin.
      * intros ->. contradiction.
Qed.

Lemma own_In (o : PlainObject V) (key : string) (v : V) :
  own o key = Some v -> In (key, v) o.
Proof.
  induction o as [|[k x] rest IH]; simpl; [discriminate|].
  destruct (String.eqb k key) eqn:Hk.
  - apply String.eqb_eq in Hk. intros [= ->]. left. congruence.
  - intros H. right. apply IH, H.
Qed.

End ObjectFacts.

Lemma allSectionIds_NoDup : List.NoDup allSectionIds.
Proof.
  unfold allSectionIds.
  repeat (apply List.NoDup_cons; [simpl; intuition discriminate|]).
  apply List.NoDup_nil.
Qed.

Lemma getLoadStatus_loop (this : SectionRegistryManager) :
  getLoadStatus this
  = fold_left (fun status id => JS.set status id (statusOf this id)) allSectionIds [].
Proof.
  unfold getLoadStatus. generalize (@nil (string * LoadStatus)).
  induction allSectionIds as [|id rest IH]; intros status; simpl; [reflexivity|].
  rewrite IH. f_equal. unfold statusOf, hasSection.
  destruct (map_has (sections this) id); [reflexivity|].
  destruct (bool_decide (is_Some (loadPromises this !! id))); reflexivity.
Qed.

(** C7: [getLoadStatus()] lists exactly the five known identifiers, each with
    the status loaded if it is registered, else loading if it has an
    in-flight load, else not-loaded; the status error occurs nowhere in it. *)
Theorem getLoadStatus_derived (this : SectionRegistryManager) :
  getLoadStatus this
  = [ ("hero", statusOf this "hero"); ("features", statusOf this "features");
      ("pricing", statusOf this "pricing");
      ("testimonials", statusOf this "testimonials");
      ("contact", statusOf this "contact") ]
  /\ (forall id,
        statusOf this id
        = if map_has (sections this) id then loaded
          else if bool_decide (is_Some (loadPromises this !! id)) then loading
          else not_loaded)
  /\ (forall id status, In (id, status) (getLoadStatus this) ->
        In id allSectionIds /\ status = statusOf this id /\ status <> error).
Proof.
  assert (Heq : getLoadStatus this
                = map (fun id => (id, statusOf this id)) allSectionIds).
  { rewrite getLoadStatus_loop, assign_each.
    - reflexivity.
    - apply allSectionIds_NoDup.
    - reflexivity. }
  split; [exact Heq|]. split; [reflexivity|].
  intros id status Hin. rewrite Heq in Hin.
  apply in_map_iff in Hin. destruct Hin as [id' [[= <- <-] Hin]].
  split; [exact Hin|]. split; [reflexivity|].
  unfold statusOf. destruct (hasSection this id'); [discriminate|].
  destruct (bool_decide (is_Some (loadPromises this !! id'))); discriminate.
Qed.

(* ===================================================================== *)
(** * [validateDependencies]                                               *)
(* ===================================================================== *)

Section PushLoops.
Context {E D : Type} (deps : E -> list D) (missing : E -> D -> bool)
        (message : E -> D -> string).

Lemma inner_loop (e : E) (ds : list D) (acc : list string) :
  fold_left (fun (errors : list string) d =>
               if missing e d then (errors ++ [message e d])%list else errors) ds acc
  = (acc ++ map (message e) (List.filter (missing e) ds))%list.
Proof.
  revert acc. induction ds as [|d rest IH]; intros acc; simpl.
  - rewrite app_nil_r. reflexivity.
  - rewrite IH. destruct (missing e d); simpl; [|reflexivity].
    rewrite <- app_assoc. reflexivity.
Qed.

Lemma outer_loop (es : list E) (acc : list string) :
  fold_left (fun (errors : list string) e =>
               fold_left (fun (errors : list string) d =>
                            if missing e d then (errors ++ [message e d])%list else errors)
                         (deps e) errors) es acc
  = (acc ++ flat_map (fun e => map (message e) (List.filter (missing e) (deps e))) es)%list.
Proof.
  revert acc. induction es as [|e rest IH]; intros acc; simpl.
  - rewrite app_nil_r. reflexivity.
  - rewrite IH, inner_loop, <- app_assoc. reflexivity.
Qed.

Lemma no_message_iff (es : list E) :
  flat_map (fun e => map (message e) (List.filter (missing e) (deps e))) es = []
  <-> forall e, In e es -> forall d, In d (deps e) -> missing e d = false.
Proof.
  induction es as [|e rest IH]; simpl.
  - split; [intros _ e []|reflexivity].
  - split.
    + intros H. apply app_eq_nil in H. destruct H as [He Hrest].
      intros e' [<-|Hin] d Hd.
      * destruct (missing e d) eqn:Hm; [|reflexivity].
        assert (Hf : In d (List.filter (missing e) (deps e)))
          by (apply filter_In; split; assumption).
        destruct (List.filter (missing e) (deps e)); [destruct Hf|discriminate].
      * apply (proj1 IH Hrest e' Hin d Hd).
    + intros H.
      assert (He : List.filter (missing e) (deps e) = []).
      { destruct (List.filter (missing e) (deps e)) as [|d ds] eqn:Hf; [reflexivity|].
        assert (Hin : In d (List.filter (missing e) (deps e)))
          by (rewrite Hf; left; reflexivity).
        apply filter_In in Hin. destruct Hin as [Hd Hm].
        rewrite (H e (or_introl eq_refl) d Hd) in Hm. discriminate. }
      rewrite He. simpl. apply IH. intros e' Hin. apply H. right. exact Hin.
Qed.

End PushLoops.

Lemma prefix_append (s rest : string) : String.prefix s (s +:+ rest) = true.
Proof.
  induction s as [|a s IH]; simpl; [destruct rest; reflexivity|].
  destruct (ascii_dec a a); [exact IH|contradiction].
Qed.

Lemma includes_prefix (s sub : string) : String.prefix sub s = true -> includes s sub = true.
Proof. intros H. destruct s; cbn [includes]; rewrite H; reflexivity. Qed.

Lemma includes_append_r (before s sub : string) :
  includes s sub = true -> includes (before +:+ s) sub = true.
Proof.
  intros H. induction before as [|a before IH]; simpl; [exact H|].
  rewrite IH. apply orb_true_r.
Qed.

Lemma missingDependency_names (id dep : string) :
  includes (missingDependency id dep) id = true
  /\ includes (missingDependency id dep) dep = true.
Proof.
  unfold missingDependency. split.
  - do 2 apply includes_append_r. apply includes_prefix, prefix_append.
  - do 6 apply includes_append_r. apply includes_prefix, prefix_append.
Qed.

(** C4: [validateDependencies()] pushes exactly one message per enabled entry
    and dependency of it that is not registered, in loop order, each message
    containing the entry's identifier and the dependency's; [valid] is true
    iff no message was pushed; and the result is valid with no errors exactly
    when every dependency of every enabled entry is registered, whether or
    not that dependency is itself enabled. *)
Theorem validateDependencies_presence_only
    (env : Env) (flags : FlagTable) (this : SectionRegistryManager) :
  let result := validateDependencies env flags this in
  errors result = expectedErrors env flags this
  /\ (valid result = true <-> errors result = [])
  /\ (valid result = true /\ errors result = []
      <-> forall entry,
            In entry (getAllSections this) ->
            truthy (isFeatureEnabled env flags (cfg_id (config entry))) = true ->
            forall dep, In dep (cfg_dependencies (config entry)) ->
                        hasSection this dep = true)
  /\ (forall id dep, includes (missingDependency id dep) id = true
                     /\ includes (missingDependency id dep) dep = true).
Proof.
  assert (Herr : errors (validateDependencies env flags this)
                 = expectedErrors env flags this).
  { unfold validateDependencies, expectedErrors, missingOf. simpl.
    apply (outer_loop (fun entry => cfg_dependencies (config entry))
                      (fun _ dep => negb (hasSection this dep))
                      (fun entry dep => missingDependency (cfg_id (config entry)) dep)
                      (getEnabledSections env flags this) []). }
  assert (Hvalid : valid (validateDependencies env flags this) = true
                   <-> errors (validateDependencies env flags this) = []).
  { unfold validateDependencies. simpl.
    match goal with |- (length ?l =? 0)%nat = true <-> _ => destruct l end;
      simpl; split; intros; try reflexivity; discriminate. }
  cbv zeta. split; [exact Herr|]. split; [exact Hvalid|]. split.
  - rewrite Hvalid, Herr. unfold expectedErrors, missingOf.
    rewrite (no_message_iff (fun entry => cfg_dependencies (config entry))
                            (fun _ dep => negb (hasSection this dep))).
    split.
    + intros [_ H] entry Hreg Hflag dep Hdep.
      apply negb_false_iff. apply (H entry); [|exact Hdep].
      apply getEnabledSections_In. split; assumption.
    + intros H. assert (Hall : forall e, In e (getEnabledSections env flags this) ->
               forall d, In d (cfg_dependencies (config e)) ->
               negb (hasSection this d) = false).
      { intros e He d Hd. apply getEnabledSections_In in He. destruct He as [Hreg Hflag].
        apply negb_false_iff. apply (H e Hreg Hflag d Hd). }
      split; exact Hall.
  - apply missingDependency_names.
Qed.

Lemma validateDependencies_presence_only_witness :
  let this := register sectionRegistry "hero" heroEntry in
  validateDependencies sampleEnv FEATURE_FLAGS this
  = {| valid := false; errors := [missingDependency "hero" "ethereal-depth"] |}
  /\ validateDependencies prodEnv FEATURE_FLAGS this = {| valid := true; errors := [] |}.
Proof.
  cbv zeta.
  destruct (validateDependencies_presence_only sampleEnv FEATURE_FLAGS
              (register sectionRegistry "hero" heroEntry)) as (Herr & _).
  destruct (validateDependencies_presence_only prodEnv FEATURE_FLAGS
              (register sectionRegistry "hero" heroEntry)) as (_ & _ & Hiff & _).
  split.
  - destruct (validateDependencies sampleEnv FEATURE_FLAGS _) as [v errs] eqn:Hres.
    simpl in Herr. subst errs.
    apply (f_equal valid) in Hres as Hv. simpl in Hv. rewrite <- Hv. reflexivity.
  - destruct Hiff as [_ Hback].
    destruct (validateDependencies prodEnv FEATURE_FLAGS _) as [v errs].
    simpl in Hback. destruct Hback as [-> ->]; [|reflexivity].
    intros entry [<-|[]] Hflag. discriminate.
Defined.

(* ===================================================================== *)
(** * The load protocol: invariant                                         *)
(* ===================================================================== *)

Lemma consistent_initial : consistent initial.
Proof.
  split; simpl; try reflexivity; intros *; try rewrite lookup_empty;
    try rewrite lookup_nil; discriminate.
Qed.

Lemma lookup_old_call (cs : list LoadCall) (new : LoadCall) (c : nat) (x : LoadCall) :
  cs !! c = Some x -> (cs ++ [new])%list !! c = Some x.
Proof.
  intros H. rewrite lookup_app_l; [exact H|]. eapply lookup_lt_Some, H.
Qed.

(** Appending a call that is not suspended adds no suspended call. *)
Lemma lookup_awaiting_old (cs : list LoadCall) (id : SectionId) (s : CallStatus)
    (c : nat) (id' : SectionId) (p : PromiseRef) :
  (forall q, s <> Awaiting q) ->
  (cs ++ [mkCall id s])%list !! c = Some (mkCall id' (Awaiting p)) ->
  cs !! c = Some (mkCall id' (Awaiting p)).
Proof.
  intros Hs H. apply lookup_snoc_Some in H. destruct H as [[_ H]|[_ H]]; [exact H|].
  injection H as _ H. exfalso. apply (Hs p). exact H.
Qed.

(** A call that returns at once, or forwards a promise that exists, keeps the
    invariant. *)
Lemma consistent_add_call (w : World) (id : SectionId) (s : CallStatus) :
  consistent w ->
  (forall q, s <> Awaiting q) ->
  (forall q, s = Forwarded q -> q < length (promises w)) ->
  consistent (add_call w id s).
Proof.
  intros [Hmc Hcm Hao Hfk Hpf] Hs Hfwd. split; simpl.
  - intros id' p Hm. destruct (Hmc id' p Hm) as [c Hc].
    exists c. apply lookup_old_call, Hc.
  - intros c id' p Hc. apply (Hcm c). eapply lookup_awaiting_old; eassumption.
  - intros c1 c2 id1 id2 p H1 H2.
    apply (Hao c1 c2 id1 id2 p); eapply lookup_awaiting_old; eassumption.
  - intros c id' p Hc. apply lookup_snoc_Some in Hc.
    destruct Hc as [[_ Hc]|[_ Hc]].
    + apply (Hfk c id' p Hc).
    + injection Hc as _ Hc. apply Hfwd. exact Hc.
  - exact Hpf.
Qed.

Lemma consistent_log (w : World) (line : LogLine) : consistent w -> consistent (log w line).
Proof. intros [Hmc Hcm Hao Hfk Hpf]. split; assumption. Qed.

Lemma consistent_enter (w : World) (id : SectionId) :
  consistent w -> consistent (loadSection_enter w id).
Proof.
  intros Hw. unfold loadSection_enter.
  destruct (available id) eqn:Hav; simpl.
  2: { apply consistent_add_call; [apply consistent_log, Hw| |]; intros q; discriminate. }
  destruct (getSection (manager w) id) as [existing|] eqn:Hget.
  { apply consistent_add_call; [exact Hw| |]; intros q; discriminate. }
  destruct (loadPromises (manager w) !! id) as [loadPromise|] eqn:Hmark.
  { apply consistent_add_call; [exact Hw|intros q; discriminate|].
    intros q [= <-].
    destruct (marker_has_call w Hw id loadPromise Hmark) as [c Hc].
    apply (call_has_marker w Hw c id loadPromise Hc). }
  destruct Hw as [Hmc Hcm Hao Hfk Hpf]. split; simpl.
  - intros id' p Hm. apply lookup_insert_Some in Hm.
    destruct Hm as [[<- <-]|[Hne Hm]].
    + exists (length (calls w)). apply lookup_snoc_Some. right. split; reflexivity.
    + destruct (Hmc id' p Hm) as [c Hc]. exists c. apply lookup_old_call, Hc.
  - intros c id' p Hc. apply lookup_snoc_Some in Hc.
    destruct Hc as [[_ Hc]|[_ [= <- <-]]].
    + destruct (Hcm c id' p Hc) as (Hm & Hg & Ha & Hp).
      assert (Hne : id <> id') by (intros ->; congruence).
      rewrite lookup_insert_ne by exact Hne.
      rewrite length_app. simpl. repeat split; try assumption. lia.
    + rewrite lookup_insert_eq, length_app. simpl. repeat split; try assumption. lia.
  - intros c1 c2 id1 id2 p H1 H2.
    apply lookup_snoc_Some in H1. apply lookup_snoc_Some in H2.
    destruct H1 as [[_ H1]|[-> E1]], H2 as [[_ H2]|[-> E2]].
    + apply (Hao c1 c2 id1 id2 p H1 H2).
    + injection E2 as _ <-. destruct (Hcm c1 id1 _ H1) as (_ & _ & _ & Hlt). lia.
    + injection E1 as _ <-. destruct (Hcm c2 id2 _ H2) as (_ & _ & _ & Hlt). lia.
    + reflexivity.
  - intros c id' p Hc. apply lookup_snoc_Some in Hc.
    destruct Hc as [[_ Hc]|[_ [=]]].
    rewrite length_app. simpl. specialize (Hfk c id' p Hc). lia.
  - rewrite !length_app. simpl. lia.
Qed.

Lemma consistent_import (w w' : World) (p : PromiseRef) (r : ImportResult) :
  consistent w -> step w (ImportDone p r) = Some w' -> consistent w'.
Proof.
  intros [Hmc Hcm Hao Hfk Hpf]. simpl.
  destruct (promises w !! p) as [[| |]|]; try discriminate.
  intros [= <-]. split; simpl; try assumption.
  - intros c id q Hc. rewrite length_insert. apply (Hcm c id q Hc).
  - intros c id q Hc. rewrite length_insert. apply (Hfk c id q Hc).
  - rewrite length_insert. exact Hpf.
Qed.

(** Resuming call [c] for [id]: the [finally] block removes the marker of
    [id], the call becomes a returned one, and on success [id] is registered. *)
Lemma consistent_resume (w : World) (c : nat) (id : SectionId) (p : PromiseRef)
    (settled : SectionRegistryEntry + JsError) :
  consistent w ->
  calls w !! c = Some (mkCall id (Awaiting p)) ->
  consistent (loadSection_resume w c id settled).
Proof.
  intros [Hmc Hcm Hao Hfk Hpf] Hc.
  assert (Hother : forall c' id' q result,
            <[c := mkCall id (Returned result)]> (calls w) !! c'
            = Some (mkCall id' (Awaiting q)) ->
            c <> c' /\ id <> id' /\ calls w !! c' = Some (mkCall id' (Awaiting q))).
  { intros c' id' q result H. apply list_lookup_insert_Some in H.
    destruct H as [(_ & [=] & _)|[Hne H]].
    split; [exact Hne|]. split; [|exact H].
    intros <-. apply Hne.
    destruct (Hcm c id p Hc) as (Hm & _). destruct (Hcm c' id q H) as (Hm' & _).
    assert (p = q) by congruence. subst q. apply (Hao c c' id id p Hc H). }
  assert (Hmarker : forall id' q result,
            delete id (loadPromises (manager w)) !! id' = Some q ->
            exists c', <[c := mkCall id (Returned result)]> (calls w) !! c'
                       = Some (mkCall id' (Awaiting q))).
  { intros id' q result H. apply lookup_delete_Some in H. destruct H as [Hne H].
    destruct (Hmc id' q H) as [c' Hc']. exists c'.
    rewrite list_lookup_insert_ne; [exact Hc'|].
    intros <-. rewrite Hc in Hc'. injection Hc' as Hid _. contradiction. }
  assert (Hfwd : forall c' id' q result,
            <[c := mkCall id (Returned result)]> (calls w) !! c'
            = Some (mkCall id' (Forwarded q)) -> q < length (promises w)).
  { intros c' id' q result H. apply list_lookup_insert_Some in H.
    destruct H as [(_ & [=] & _)|[_ H]]. apply (Hfk c' id' q H). }
  destruct settled as [entry|reason]; split; simpl.
  - intros id' q. apply Hmarker.
  - intros c' id' q H. apply Hother in H. destruct H as (_ & Hne & H).
    destruct (Hcm c' id' q H) as (Hm & Hg & Ha & Hp).
    rewrite lookup_delete_ne by exact Hne.
    unfold getSection in *. simpl. rewrite map_get_set_ne by exact Hne.
    repeat split; assumption.
  - intros c1 c2 id1 id2 q H1 H2. apply Hother in H1, H2.
    destruct H1 as (_ & _ & H1), H2 as (_ & _ & H2). apply (Hao c1 c2 id1 id2 q H1 H2).
  - intros c' id' q. apply Hfwd.
  - exact Hpf.
  - intros id' q. apply Hmarker.
  - intros c' id' q H. apply Hother in H. destruct H as (_ & Hne & H).
    destruct (Hcm c' id' q H) as (Hm & Hg & Ha & Hp).
    rewrite lookup_delete_ne by exact Hne.
    repeat split; assumption.
  - intros c1 c2 id1 id2 q H1 H2. apply Hother in H1, H2.
    destruct H1 as (_ & _ & H1), H2 as (_ & _ & H2). apply (Hao c1 c2 id1 id2 q H1 H2).
  - intros c' id' q. apply Hfwd.
  - exact Hpf.
Qed.

Lemma consistent_step (w w' : World) (ev : Event) :
  consistent w -> step w ev = Some w' -> consistent w'.
Proof.
  intros Hw. destruct ev as [id|p r|c].
  - intros [= <-]. apply consistent_enter, Hw.
  - apply consistent_import, Hw.
  - unfold step. destruct (calls w !! c) as [[id [result|q|p]]|] eqn:Hc; try discriminate.
    destruct (promises w !! p) as [[|entry|reason]|]; try discriminate; intros [= <-].
    + apply (consistent_resume w c id p (inl entry) Hw Hc).
    + apply (consistent_resume w c id p (inr reason) Hw Hc).
Qed.

Lemma consistent_run (evs : list Event) (w w' : World) :
  consistent w -> run w evs = Some w' -> consistent w'.
Proof.
  revert w. induction evs as [|ev rest IH]; intros w Hw; simpl.
  - intros [= <-]. exact Hw.
  - destruct (step w ev) as [w1|] eqn:Hstep; [|discriminate].
    apply IH. eapply consistent_step; eassumption.
Qed.

Lemma reachable_consistent (w : World) : reachable w -> consistent w.
Proof. intros [evs Hrun]. eapply consistent_run; [apply consistent_initial|exact Hrun]. Qed.

Lemma run_app (evs1 evs2 : list Event) (w : World) :
  run w (evs1 ++ evs2)%list
  = match run w evs1 with Some w1 => run w1 evs2 | None => None end.
Proof.
  revert w. induction evs1 as [|ev rest IH]; intros w; simpl; [reflexivity|].
  destruct (step w ev); [apply IH|reflexivity].
Qed.

Lemma reachable_step (w w' : World) (ev : Event) :
  reachable w -> step w ev = Some w' -> reachable w'.
Proof.
  intros [evs Hrun] Hstep. exists (evs ++ [ev])%list.
  rewrite run_app, Hrun. simpl. rewrite Hstep. reflexivity.
Qed.

Lemma available_hero (id : SectionId) : available id = true <-> id = "hero".
Proof.
  unfold available. simpl. rewrite orb_false_r. apply String.eqb_eq.
Qed.

Lemma not_available (id : SectionId) : available id = false <-> ~ In id AVAILABLE_SECTIONS.
Proof.
  unfold available. simpl. rewrite orb_false_r. split.
  - intros H [<-|[]]. rewrite String.eqb_refl in H. discriminate.
  - intros H. apply String.eqb_neq. intros ->. apply H. left. reflexivity.
Qed.

(** At most one suspended call per identifier. *)
Lemma in_flight_at_most_one (w : World) (id : SectionId) :
  consistent w -> length (in_flight w id) <= 1.
Proof.
  intros Hw. unfold in_flight.
  assert (Huniq : forall c1 c2 x1 x2,
            calls w !! c1 = Some x1 -> calls w !! c2 = Some x2 ->
            (String.eqb (call_id x1) id
             && match call_status x1 with Awaiting _ => true | _ => false end) = true ->
            (String.eqb (call_id x2) id
             && match call_status x2 with Awaiting _ => true | _ => false end) = true ->
            c1 = c2).
  { intros c1 c2 [id1 s1] [id2 s2] H1 H2 E1 E2. simpl in E1, E2.
    apply andb_true_iff in E1, E2. destruct E1 as [E1 A1], E2 as [E2 A2].
    apply String.eqb_eq in E1, E2. subst id1 id2.
    destruct s1 as [| |p1]; try discriminate. destruct s2 as [| |p2]; try discriminate.
    destruct (call_has_marker w Hw c1 id p1 H1) as (M1 & _).
    destruct (call_has_marker w Hw c2 id p2 H2) as (M2 & _).
    assert (p1 = p2) by congruence. subst p2.
    apply (awaited_once w Hw c1 c2 id id p1 H1 H2). }
  revert Huniq. generalize (calls w). intros cs.
  induction cs as [|x rest IH]; intros Huniq; simpl; [lia|].
  destruct (String.eqb (call_id x) id
            && match call_status x with Awaiting _ => true | _ => false end) eqn:Hx.
  - simpl.
    assert (Hnone : List.filter
              (fun c => String.eqb (call_id c) id
                        && match call_status c with Awaiting _ => true | _ => false end)
              rest = []).
    { destruct (List.filter _ rest) as [|y ys] eqn:Hf; [reflexivity|].
      assert (Hin : In y (List.filter
                (fun c => String.eqb (call_id c) id
                          && match call_status c with Awaiting _ => true | _ => false end)
                rest)) by (rewrite Hf; left; reflexivity).
      apply filter_In in Hin. destruct Hin as [Hin Hy].
      apply list_elem_of_In, list_elem_of_lookup in Hin. destruct Hin as [i Hi].
      specialize (Huniq 0 (S i) x y eq_refl Hi Hx Hy). discriminate. }
    rewrite Hnone. simpl. lia.
  - apply IH. intros c1 c2 x1 x2 H1 H2. intros E1 E2.
    specialize (Huniq (S c1) (S c2) x1 x2 H1 H2 E1 E2). lia.
Qed.

(* ===================================================================== *)
(** * The load protocol: single steps                                      *)
(* ===================================================================== *)

Lemma enter_unavailable (w : World) (id : SectionId) :
  available id = false ->
  loadSection_enter w id
  = add_call (log w (console_warn ("Section " +:+ id +:+ " is not implemented yet")))
             id (Returned None).
Proof. unfold loadSection_enter. intros ->. reflexivity. Qed.

Lemma enter_existing (w : World) (id : SectionId) (existing : SectionRegistryEntry) :
  available id = true -> getSection (manager w) id = Some existing ->
  loadSection_enter w id = add_call w id (Returned (Some existing)).
Proof. unfold loadSection_enter. intros -> ->. reflexivity. Qed.

Lemma enter_join (w : World) (id : SectionId) (loadPromise : PromiseRef) :
  available id = true -> getSection (manager w) id = None ->
  loadPromises (manager w) !! id = Some loadPromise ->
  loadSection_enter w id = add_call w id (Forwarded loadPromise).
Proof. unfold loadSection_enter. intros -> -> ->. reflexivity. Qed.

Lemma enter_fresh (w : World) (id : SectionId) :
  available id = true -> getSection (manager w) id = None ->
  loadPromises (manager w) !! id = None ->
  loadSection_enter w id
  = {| manager := {| sections := sections (manager w);
                     loadPromises := <[id := length (promises w)]> (loadPromises (manager w)) |};
       promises := (promises w ++ [Pending])%list;
       calls := (calls w ++ [mkCall id (Awaiting (length (promises w)))])%list;
       imports := (imports w ++ [id])%list;
       console := console w |}.
Proof.
  unfold loadSection_enter. intros Hav -> ->. rewrite Hav. simpl.
  apply available_hero in Hav. subst id. reflexivity.
Qed.

(** No branch of the synchronous part touches the entry map. *)
Lemma enter_sections (w : World) (id : SectionId) :
  sections (manager (loadSection_enter w id)) = sections (manager w).
Proof.
  unfold loadSection_enter.
  destruct (available id); simpl; [|reflexivity].
  destruct (getSection (manager w) id); [reflexivity|].
  destruct (loadPromises (manager w) !! id); reflexivity.
Qed.

Lemma import_manager (w w' : World) (p : PromiseRef) (r : ImportResult) :
  step w (ImportDone p r) = Some w' -> manager w' = manager w.
Proof.
  simpl. destruct (promises w !! p) as [[| |]|]; try discriminate.
  intros [= <-]. reflexivity.
Qed.

Lemma resume_step (w : World) (c : nat) (id : SectionId) (p : PromiseRef) :
  calls w !! c = Some (mkCall id (Awaiting p)) ->
  (forall entry, promises w !! p = Some (Fulfilled entry) ->
     step w (Resume c) = Some (loadSection_resume w c id (inl entry)))
  /\ (forall reason, promises w !! p = Some (Rejected reason) ->
     step w (Resume c) = Some (loadSection_resume w c id (inr reason))).
Proof. intros Hc. unfold step. rewrite Hc. split; intros x ->; reflexivity. Qed.

Lemma outcome_resumed (w : World) (c : nat) (id : SectionId) (p : PromiseRef)
    (settled : SectionRegistryEntry + JsError) :
  calls w !! c = Some (mkCall id (Awaiting p)) ->
  outcome (loadSection_resume w c id settled) c
  = Some (Resolved (match settled with inl entry => Some entry | inr _ => None end)).
Proof.
  intros Hc. apply lookup_lt_Some in Hc.
  unfold outcome. destruct settled; simpl; rewrite list_lookup_insert_eq by exact Hc;
    reflexivity.
Qed.

Lemma outcome_forwarded_resumed (w : World) (c c2 : nat) (id id2 : SectionId)
    (p p2 : PromiseRef) (settled : SectionRegistryEntry + JsError) :
  calls w !! c = Some (mkCall id (Awaiting p)) ->
  calls w !! c2 = Some (mkCall id2 (Forwarded p2)) ->
  outcome (loadSection_resume w c id settled) c2 = outcome w c2.
Proof.
  intros Hc Hc2. unfold outcome.
  assert (Hne : c <> c2) by (intros <-; rewrite Hc in Hc2; discriminate).
  destruct settled; simpl; rewrite list_lookup_insert_ne by exact Hne; reflexivity.
Qed.

Lemma fetches_snoc (id : SectionId) (l : list SectionId) :
  length (List.filter (String.eqb id) (l ++ [id])%list)
  = S (length (List.filter (String.eqb id) l)).
Proof.
  rewrite List.filter_app, length_app. simpl. rewrite String.eqb_refl. simpl. lia.
Qed.

Lemma overlapping_run (w : World) (id : SectionId) (r : ImportResult) :
  available id = true -> getSection (manager w) id = None ->
  loadPromises (manager w) !! id = None ->
  exists w',
    run w (overlappingLoads w id r) = Some w'
    /\ outcome w' (length (calls w))
       = Some (Resolved (match r with Loaded m => Some (moduleEntry m) | Failed _ => None end))
    /\ outcome w' (S (length (calls w)))
       = Some (match r with
               | Loaded m => Resolved (Some (moduleEntry m))
               | Failed reason => RejectedWith reason
               end)
    /\ fetches w' id = S (fetches w id)
    /\ loadPromises (manager w') !! id = None
    /\ getSection (manager w') id
       = match r with Loaded m => Some (moduleEntry m) | Failed _ => None end.
Proof.
  intros Hav Hget Hmark.
  set (n := length (promises w)). set (c := length (calls w)).
  pose (w1 := loadSection_enter w id).
  assert (E1 : w1 = _) by apply (enter_fresh w id Hav Hget Hmark). fold n in E1.
  pose (w2 := loadSection_enter w1 id).
  assert (E2 : w2 = add_call w1 id (Forwarded n)).
  { apply enter_join; [exact Hav| |].
    - unfold getSection. unfold w1. rewrite enter_sections. exact Hget.
    - rewrite E1. simpl. apply lookup_insert_eq. }
  assert (Hp2 : promises w2 !! n = Some Pending).
  { rewrite E2, E1. simpl. apply lookup_snoc_Some. right. split; reflexivity. }
  assert (Hc2 : calls w2 !! c = Some (mkCall id (Awaiting n))).
  { rewrite E2, E1. simpl. apply lookup_old_call. apply lookup_snoc_Some.
    right. split; reflexivity. }
  assert (Hf2 : calls w2 !! S c = Some (mkCall id (Forwarded n))).
  { rewrite E2, E1. simpl. apply lookup_snoc_Some. right.
    rewrite length_app. simpl. split; [unfold c; lia|reflexivity]. }
  pose (w3 := {| manager := manager w2;
                 promises := <[n := dynamicImport_settle r]> (promises w2);
                 calls := calls w2; imports := imports w2; console := console w2 |}).
  assert (S3 : step w2 (ImportDone n r) = Some w3).
  { simpl. rewrite Hp2. reflexivity. }
  assert (Hp3 : promises w3 !! n = Some (dynamicImport_settle r)).
  { simpl. apply list_lookup_insert_eq. eapply lookup_lt_Some, Hp2. }
  assert (Hsec : sections (manager w2) = sections (manager w)).
  { unfold w2. rewrite enter_sections. unfold w1. apply enter_sections. }
  assert (Himp : imports w2 = (imports w ++ [id])%list).
  { rewrite E2, E1. reflexivity. }
  destruct (resume_step w3 c id n Hc2) as [Hok Hfail].
  destruct r as [m|reason]; cbn [dynamicImport_settle] in Hp3.
  - exists (loadSection_resume w3 c id (inl (moduleEntry m))).
    split; [|split; [|split; [|split; [|split]]]].
    + unfold overlappingLoads. fold n c. cbn [run].
      change (step w (Call id)) with (Some w1). cbn iota.
      change (step w1 (Call id)) with (Some w2). cbn iota.
      rewrite S3. rewrite (Hok _ Hp3). reflexivity.
    + apply (outcome_resumed w3 c id n (inl (moduleEntry m)) Hc2).
    + rewrite (outcome_forwarded_resumed w3 c (S c) id id n n _ Hc2 Hf2).
      unfold outcome. change (calls w3) with (calls w2). rewrite Hf2, Hp3. reflexivity.
    + unfold fetches. simpl. rewrite Himp. apply fetches_snoc.
    + simpl. apply lookup_delete_eq.
    + unfold getSection. simpl. apply map_get_set_eq.
  - exists (loadSection_resume w3 c id (inr reason)).
    split; [|split; [|split; [|split; [|split]]]].
    + unfold overlappingLoads. fold n c. cbn [run].
      change (step w (Call id)) with (Some w1). cbn iota.
      change (step w1 (Call id)) with (Some w2). cbn iota.
      rewrite S3. rewrite (Hfail _ Hp3). reflexivity.
    + apply (outcome_resumed w3 c id n (inr reason) Hc2).
    + rewrite (outcome_forwarded_resumed w3 c (S c) id id n n _ Hc2 Hf2).
      unfold outcome. change (calls w3) with (calls w2). rewrite Hf2, Hp3. reflexivity.
    + unfold fetches. simpl. rewrite Himp. apply fetches_snoc.
    + simpl. apply lookup_delete_eq.
    + unfold getSection. simpl. rewrite Hsec. exact Hget.
Qed.

(** C1, as the code has it.  In every reachable state: (1) each identifier
    has at most one in-flight load; (2) a call issued while a load of [id] is
    in flight returns that load's promise, invokes no fetch and creates no
    promise; (3) once that promise is fulfilled with an entry and the first
    call is resumed, the first call and every call that joined it have
    resolved to that same entry, which is now registered; (4) two overlapping
    calls for a loadable identifier that was neither registered nor being
    loaded run exactly one fetch, and when the fetch succeeds both resolve to
    the entry built from the imported module. *)
Theorem loadSection_coalesces (w : World) :
  reachable w ->
  (forall id, length (in_flight w id) <= 1)
  /\ (forall id c1 p,
        calls w !! c1 = Some (mkCall id (Awaiting p)) ->
        loadSection_enter w id = add_call w id (Forwarded p)
        /\ fetches (loadSection_enter w id) id = fetches w id
        /\ promises (loadSection_enter w id) = promises w
        /\ manager (loadSection_enter w id) = manager w)
  /\ (forall id c1 c2 p entry,
        calls w !! c1 = Some (mkCall id (Awaiting p)) ->
        calls w !! c2 = Some (mkCall id (Forwarded p)) ->
        promises w !! p = Some (Fulfilled entry) ->
        exists w',
          step w (Resume c1) = Some w'
          /\ outcome w' c1 = Some (Resolved (Some entry))
          /\ outcome w' c2 = Some (Resolved (Some entry))
          /\ getSection (manager w') id = Some entry)
  /\ (forall id m,
        available id = true -> getSection (manager w) id = None ->
        loadPromises (manager w) !! id = None ->
        exists w',
          run w (overlappingLoads w id (Loaded m)) = Some w'
          /\ outcome w' (length (calls w)) = Some (Resolved (Some (moduleEntry m)))
          /\ outcome w' (S (length (calls w))) = Some (Resolved (Some (moduleEntry m)))
          /\ fetches w' id = S (fetches w id)).
Proof.
  intros Hreach. pose proof (reachable_consistent w Hreach) as Hw.
  split; [|split; [|split]].
  - intros id. apply in_flight_at_most_one, Hw.
  - intros id c1 p Hc1.
    destruct (call_has_marker w Hw c1 id p Hc1) as (Hm & Hg & Ha & _).
    rewrite (enter_join w id p Ha Hg Hm). repeat split; reflexivity.
  - intros id c1 c2 p entry Hc1 Hc2 Hp.
    exists (loadSection_resume w c1 id (inl entry)).
    destruct (resume_step w c1 id p Hc1) as [Hok _].
    split; [apply (Hok _ Hp)|]. split; [|split].
    + apply (outcome_resumed w c1 id p (inl entry) Hc1).
    + rewrite (outcome_forwarded_resumed w c1 c2 id id p p _ Hc1 Hc2).
      unfold outcome. rewrite Hc2, Hp. reflexivity.
    + unfold getSection. simpl. apply map_get_set_eq.
  - intros id m Ha Hg Hm.
    destruct (overlapping_run w id (Loaded m) Ha Hg Hm) as (w' & Hrun & H1 & H2 & Hf & _).
    exists w'. repeat split; assumption.
Qed.

Lemma loadSection_coalesces_witness :
  let w := loadSection_enter initial "hero" in
  calls w !! 0 = Some (mkCall "hero" (Awaiting 0))
  /\ loadSection_enter w "hero" = add_call w "hero" (Forwarded 0)
  /\ fetches (loadSection_enter w "hero") "hero" = 1
  /\ exists w',
       step joinedLoad (Resume 0) = Some w'
       /\ outcome w' 0 = Some (Resolved (Some heroEntry))
       /\ outcome w' 1 = Some (Resolved (Some heroEntry))
       /\ getSection (manager w') "hero" = Some heroEntry.
Proof.
  cbv zeta.
  assert (Hreach : reachable (loadSection_enter initial "hero"))
    by (exists [Call "hero"]; reflexivity).
  assert (Hjoined : reachable joinedLoad)
    by (exists [Call "hero"; Call "hero"; ImportDone 0 (Loaded heroModule)]; reflexivity).
  destruct (loadSection_coalesces _ Hreach) as (_ & Hjoin & _).
  destruct (Hjoin "hero" 0 0 eq_refl) as (Henter & Hfetch & _).
  destruct (loadSection_coalesces _ Hjoined) as (_ & _ & Hsame & _).
  split; [reflexivity|]. split; [exact Henter|].
  split; [rewrite Hfetch; reflexivity|].
  apply (Hsame "hero" 0 1 0 heroEntry); reflexivity.
Defined.

(** C1 as stated fails when the fetch fails: of two overlapping calls the
    first resolves to [null] and the second, which returned the raw import
    promise, is rejected with the import error; neither resolves to a
    registry entry and the two results differ. *)
Lemma loadSection_overlap_on_failure :
  exists w',
    run initial [ Call "hero"; Call "hero";
                  ImportDone 0 (Failed (Error "ChunkLoadError")); Resume 0 ] = Some w'
    /\ outcome w' 0 = Some (Resolved None)
    /\ outcome w' 1 = Some (RejectedWith (Error "ChunkLoadError"))
    /\ fetches w' "hero" = 1
    /\ ~ (exists entry, outcome w' 0 = Some (Resolved (Some entry))
                        /\ outcome w' 1 = Some (Resolved (Some entry))).
Proof.
  eexists. split; [reflexivity|]. repeat split.
  intros [entry [H _]]. discriminate.
Qed.

Lemma single_run (w : World) (id : SectionId) (r : ImportResult) :
  available id = true -> getSection (manager w) id = None ->
  loadPromises (manager w) !! id = None ->
  exists w',
    run w (singleLoad w id r) = Some w'
    /\ outcome w' (length (calls w))
       = Some (Resolved (match r with Loaded m => Some (moduleEntry m) | Failed _ => None end))
    /\ sections (manager w')
       = match r with
         | Loaded m => map_set (sections (manager w)) id (moduleEntry m)
         | Failed _ => sections (manager w)
         end
    /\ loadPromises (manager w') = loadPromises (manager w)
    /\ fetches w' id = S (fetches w id).
Proof.
  intros Hav Hget Hmark.
  set (n := length (promises w)). set (c := length (calls w)).
  pose (w1 := loadSection_enter w id).
  assert (E1 : w1 = _) by apply (enter_fresh w id Hav Hget Hmark). fold n in E1.
  assert (Hp1 : promises w1 !! n = Some Pending).
  { rewrite E1. simpl. apply lookup_snoc_Some. right. split; reflexivity. }
  assert (Hc1 : calls w1 !! c = Some (mkCall id (Awaiting n))).
  { rewrite E1. simpl. apply lookup_snoc_Some. right. split; reflexivity. }
  pose (w2 := {| manager := manager w1;
                 promises := <[n := dynamicImport_settle r]> (promises w1);
                 calls := calls w1; imports := imports w1; console := console w1 |}).
  assert (S2 : step w1 (ImportDone n r) = Some w2).
  { simpl. rewrite Hp1. reflexivity. }
  assert (Hp2 : promises w2 !! n = Some (dynamicImport_settle r)).
  { simpl. apply list_lookup_insert_eq. eapply lookup_lt_Some, Hp1. }
  assert (Hman : manager w2
                 = {| sections := sections (manager w);
                      loadPromises := <[id := n]> (loadPromises (manager w)) |}).
  { change (manager w2) with (manager w1). rewrite E1. reflexivity. }
  assert (Himp : imports w2 = (imports w ++ [id])%list).
  { change (imports w2) with (imports w1). rewrite E1. reflexivity. }
  assert (Hdel : delete id (<[id := n]> (loadPromises (manager w))) = loadPromises (manager w)).
  { rewrite delete_insert_eq. apply delete_id, Hmark. }
  destruct (resume_step w2 c id n Hc1) as [Hok Hfail].
  destruct r as [m|reason]; cbn [dynamicImport_settle] in Hp2.
  - exists (loadSection_resume w2 c id (inl (moduleEntry m))).
    split; [|split; [|split; [|split]]].
    + unfold singleLoad. fold n c. cbn [run].
      change (step w (Call id)) with (Some w1). cbn iota.
      rewrite S2. rewrite (Hok _ Hp2). reflexivity.
    + apply (outcome_resumed w2 c id n (inl (moduleEntry m)) Hc1).
    + cbn [loadSection_resume manager sections register]. rewrite Hman. reflexivity.
    + cbn [loadSection_resume manager loadPromises register]. rewrite Hman. exact Hdel.
    + unfold fetches. cbn [loadSection_resume imports]. rewrite Himp. apply fetches_snoc.
  - exists (loadSection_resume w2 c id (inr reason)).
    split; [|split; [|split; [|split]]].
    + unfold singleLoad. fold n c. cbn [run].
      change (step w (Call id)) with (Some w1). cbn iota.
      rewrite S2. rewrite (Hfail _ Hp2). reflexivity.
    + apply (outcome_resumed w2 c id n (inr reason) Hc1).
    + cbn [loadSection_resume manager sections]. rewrite Hman. reflexivity.
    + cbn [loadSection_resume manager loadPromises]. rewrite Hman. exact Hdel.
    + unfold fetches. cbn [loadSection_resume imports]. rewrite Himp. apply fetches_snoc.
Qed.

(** A call that returned the in-flight promise keeps following it, whatever
    happens next. *)
Lemma forwarded_step (w w' : World) (ev : Event) (c : nat) (id : SectionId)
    (p : PromiseRef) :
  calls w !! c = Some (mkCall id (Forwarded p)) ->
  step w ev = Some w' ->
  calls w' !! c = Some (mkCall id (Forwarded p)).
Proof.
  intros Hc Hstep. destruct ev as [id0|q r|c0]; cbn [step] in Hstep.
  - injection Hstep as <-. unfold loadSection_enter.
    destruct (negb (available id0)); [apply lookup_app_l_Some; exact Hc|].
    destruct (getSection (manager w) id0); [apply lookup_app_l_Some; exact Hc|].
    destruct (loadPromises (manager w) !! id0); apply lookup_app_l_Some; exact Hc.
  - destruct (promises w !! q) as [[| |]|]; try discriminate.
    injection Hstep as <-. exact Hc.
  - destruct (calls w !! c0) as [[id0 [| |q]]|] eqn:Hc0; try discriminate.
    assert (Hne : c0 <> c) by (intros ->; rewrite Hc in Hc0; discriminate).
    destruct (promises w !! q) as [[| |]|]; try discriminate;
      injection Hstep as <-; simpl; rewrite list_lookup_insert_ne by exact Hne; exact Hc.
Qed.

Lemma forwarded_run (evs : list Event) (w w' : World) (c : nat) (id : SectionId)
    (p : PromiseRef) :
  calls w !! c = Some (mkCall id (Forwarded p)) ->
  run w evs = Some w' ->
  calls w' !! c = Some (mkCall id (Forwarded p)).
Proof.
  revert w. induction evs as [|ev rest IH]; intros w Hc Hrun; cbn [run] in Hrun.
  - injection Hrun as <-. exact Hc.
  - destruct (step w ev) as [w1|] eqn:Hstep; [|discriminate].
    apply (IH w1); [apply (forwarded_step w w1 ev c id p Hc Hstep)|exact Hrun].
Qed.

(** C5, as the code has it: the allow-list is [{"hero"}].  A call for an
    identifier outside it logs the warning, resolves to [null] at once and
    changes neither map of the registry nor starts a fetch.  A call for
    ["hero"] passes the gate and resolves to a populated entry when the entry
    is already registered, or when the import succeeds: with no load in
    flight the call fetches and, once the import has delivered the module,
    resolves to the entry built from it, which the registry then holds under
    ["hero"]; with a load in flight the call returns that load's promise and
    has resolved to the entry as soon as that promise is fulfilled with
    one. *)
Theorem loadSection_allow_list (w : World) :
  AVAILABLE_SECTIONS = ["hero"]
  /\ (forall id,
        ~ In id AVAILABLE_SECTIONS ->
        outcome (loadSection_enter w id) (length (calls w)) = Some (Resolved None)
        /\ console (loadSection_enter w id)
           = (console w ++ [console_warn ("Section " +:+ id +:+ " is not implemented yet")])%list
        /\ manager (loadSection_enter w id) = manager w
        /\ promises (loadSection_enter w id) = promises w
        /\ imports (loadSection_enter w id) = imports w)
  /\ (forall existing,
        getSection (manager w) "hero" = Some existing ->
        outcome (loadSection_enter w "hero") (length (calls w))
        = Some (Resolved (Some existing))
        /\ manager (loadSection_enter w "hero") = manager w)
  /\ (forall m,
        getSection (manager w) "hero" = None ->
        loadPromises (manager w) !! "hero" = None ->
        exists w',
          run w (singleLoad w "hero" (Loaded m)) = Some w'
          /\ outcome w' (length (calls w)) = Some (Resolved (Some (moduleEntry m)))
          /\ getSection (manager w') "hero" = Some (moduleEntry m)
          /\ sections (manager w') = map_set (sections (manager w)) "hero" (moduleEntry m))
  /\ (forall p,
        getSection (manager w) "hero" = None ->
        loadPromises (manager w) !! "hero" = Some p ->
        loadSection_enter w "hero" = add_call w "hero" (Forwarded p)
        /\ console (loadSection_enter w "hero") = console w
        /\ (forall evs w' entry,
              run (loadSection_enter w "hero") evs = Some w' ->
              promises w' !! p = Some (Fulfilled entry) ->
              outcome w' (length (calls w)) = Some (Resolved (Some entry)))).
Proof.
  split; [reflexivity|]. split; [|split; [|split]].
  - intros id Hid. apply not_available in Hid. rewrite (enter_unavailable w id Hid).
    unfold outcome. simpl. rewrite lookup_app_r by lia.
    rewrite Nat.sub_diag. repeat split; reflexivity.
  - intros existing Hget. rewrite (enter_existing w "hero" existing eq_refl Hget).
    unfold outcome. simpl. rewrite lookup_app_r by lia.
    rewrite Nat.sub_diag. split; reflexivity.
  - intros m Hget Hmark.
    destruct (single_run w "hero" (Loaded m) eq_refl Hget Hmark)
      as (w' & Hrun & Hout & Hsec & _).
    exists w'. split; [exact Hrun|]. split; [exact Hout|]. split; [|exact Hsec].
    unfold getSection. rewrite Hsec. apply map_get_set_eq.
  - intros p Hget Hmark.
    pose proof (enter_join w "hero" p eq_refl Hget Hmark) as Henter.
    split; [exact Henter|]. split; [rewrite Henter; reflexivity|].
    intros evs w' entry Hrun Hp.
    assert (Hc : calls (loadSection_enter w "hero") !! length (calls w)
                 = Some (mkCall "hero" (Forwarded p))).
    { rewrite Henter. simpl. apply lookup_snoc_Some. right. split; reflexivity. }
    pose proof (forwarded_run evs _ w' _ _ _ Hc Hrun) as Hc'.
    unfold outcome. rewrite Hc', Hp. reflexivity.
Qed.

Lemma loadSection_allow_list_witness :
  outcome (loadSection_enter initial "features") 0 = Some (Resolved None)
  /\ sections (manager (loadSection_enter initial "features")) = []
  /\ (exists w',
        run initial (singleLoad initial "hero" (Loaded heroModule)) = Some w'
        /\ outcome w' 0 = Some (Resolved (Some heroEntry))
        /\ sections (manager w') = [("hero", heroEntry)])
  /\ outcome (loadSection_enter heroLoaded "hero") 1 = Some (Resolved (Some heroEntry))
  /\ outcome joinedLoad 1 = Some (Resolved (Some heroEntry)).
Proof.
  destruct (loadSection_allow_list initial) as (_ & Hout & _ & Hin & _).
  destruct (loadSection_allow_list heroLoaded) as (_ & _ & Hexisting & _).
  destruct (loadSection_allow_list (loadSection_enter initial "hero"))
    as (_ & _ & _ & _ & Hjoin).
  assert (Hfeatures : ~ In "features" AVAILABLE_SECTIONS).
  { simpl. intros [H|[]]. discriminate. }
  destruct (Hout "features" Hfeatures) as (H1 & _ & H2 & _).
  split; [exact H1|]. split; [rewrite H2; reflexivity|]. split; [|split].
  - destruct (Hin heroModule eq_refl eq_refl) as (w' & Hrun & Hres & _ & Hsec).
    exists w'. split; [exact Hrun|]. split; [exact Hres|exact Hsec].
  - apply (Hexisting heroEntry eq_refl).
  - destruct (Hjoin 0 eq_refl eq_refl) as (_ & _ & Hfollow).
    apply (Hfollow [ImportDone 0 (Loaded heroModule)] joinedLoad heroEntry);
      reflexivity.
Defined.

(** C5 as stated fails when the import fails: ["hero"] is on the allow-list,
    yet the call resolves to [null], not to a populated entry, and the
    registry stays empty. *)
Lemma loadSection_hero_null_on_failed_import :
  exists w',
    run initial [ Call "hero"; ImportDone 0 (Failed (Error "ChunkLoadError")); Resume 0 ]
    = Some w'
    /\ In "hero" AVAILABLE_SECTIONS
    /\ outcome w' 0 = Some (Resolved None)
    /\ sections (manager w') = []
    /\ ~ (exists entry, outcome w' 0 = Some (Resolved (Some entry))).
Proof.
  eexists. split; [reflexivity|]. split; [left; reflexivity|].
  split; [reflexivity|]. split; [reflexivity|].
  intros [entry H]. discriminate.
Qed.

(** C6: when the promise awaited by a suspended [loadSection(id)] call has
    been rejected, resuming the call logs the error, resolves the call to
    [null] and leaves the entry map as it was (as do the call's synchronous
    part and the import's completion); whether the promise was rejected or
    fulfilled, the resumed call has removed the in-flight marker of [id] when
    it returns; after a failure the next [loadSection(id)] call therefore
    starts a new fetch with a new promise, and after a success it returns the
    registered entry. *)
Theorem loadSection_failure_then_retry
    (w : World) (c : nat) (id : SectionId) (p : PromiseRef) :
  reachable w ->
  calls w !! c = Some (mkCall id (Awaiting p)) ->
  (forall reason,
     promises w !! p = Some (Rejected reason) ->
     exists w',
       step w (Resume c) = Some w'
       /\ outcome w' c = Some (Resolved None)
       /\ sections (manager w') = sections (manager w)
       /\ console w'
          = (console w ++ [console_error ("Failed to load section: " +:+ id) reason])%list
       /\ loadPromises (manager w') !! id = None
       /\ calls (loadSection_enter w' id) !! length (calls w')
          = Some (mkCall id (Awaiting (length (promises w'))))
       /\ promises (loadSection_enter w' id) = (promises w' ++ [Pending])%list
       /\ fetches (loadSection_enter w' id) id = S (fetches w' id))
  /\ (forall entry,
        promises w !! p = Some (Fulfilled entry) ->
        exists w',
          step w (Resume c) = Some w'
          /\ outcome w' c = Some (Resolved (Some entry))
          /\ loadPromises (manager w') !! id = None
          /\ getSection (manager w') id = Some entry
          /\ loadSection_enter w' id = add_call w' id (Returned (Some entry)))
  /\ (forall id', sections (manager (loadSection_enter w id')) = sections (manager w))
  /\ (forall q r w', step w (ImportDone q r) = Some w' -> manager w' = manager w).
Proof.
  intros Hreach Hc. pose proof (reachable_consistent w Hreach) as Hw.
  destruct (call_has_marker w Hw c id p Hc) as (Hm & Hg & Ha & _).
  destruct (resume_step w c id p Hc) as [Hok Hfail].
  split; [|split; [|split]].
  - intros reason Hp. exists (loadSection_resume w c id (inr reason)).
    split; [apply (Hfail _ Hp)|]. split; [apply (outcome_resumed w c id p (inr reason) Hc)|].
    split; [reflexivity|]. split; [reflexivity|].
    split; [simpl; apply lookup_delete_eq|].
    rewrite enter_fresh.
    + simpl. split; [|split; [reflexivity|]].
      * apply lookup_snoc_Some. right. split; reflexivity.
      * unfold fetches. simpl. apply fetches_snoc.
    + exact Ha.
    + exact Hg.
    + simpl. apply lookup_delete_eq.
  - intros entry Hp. exists (loadSection_resume w c id (inl entry)).
    split; [apply (Hok _ Hp)|]. split; [apply (outcome_resumed w c id p (inl entry) Hc)|].
    split; [simpl; apply lookup_delete_eq|].
    assert (Hreg : getSection (manager (loadSection_resume w c id (inl entry))) id
                   = Some entry).
    { unfold getSection. simpl. apply map_get_set_eq. }
    split; [exact Hreg|]. apply enter_existing; [exact Ha|exact Hreg].
  - intros id'. apply enter_sections.
  - intros q r w'. apply import_manager.
Qed.

Lemma loadSection_failure_then_retry_witness :
  exists w',
    step failedImport (Resume 0) = Some w'
    /\ outcome w' 0 = Some (Resolved None)
    /\ sections (manager w') = []
    /\ loadPromises (manager w') !! "hero" = None
    /\ fetches (loadSection_enter w' "hero") "hero" = 2.
Proof.
  assert (Hreach : reachable failedImport).
  { exists [Call "hero"; ImportDone 0 (Failed (Error "ChunkLoadError"))]. reflexivity. }
  destruct (loadSection_failure_then_retry failedImport 0 "hero" 0 Hreach eq_refl)
    as (Hfail & _).
  destruct (Hfail (Error "ChunkLoadError") eq_refl)
    as (w' & Hstep & Hout & Hsec & _ & Hmark & _ & _ & Hfetch).
  exists w'. split; [exact Hstep|]. split; [exact Hout|]. split; [exact Hsec|].
  split; [exact Hmark|]. rewrite Hfetch.
  injection Hstep as <-. reflexivity.
Defined.

(** The same call when the import has succeeded: the marker is removed and
    the next call returns the registered entry. *)
Lemma loadSection_success_then_cached :
  exists w',
    step joinedLoad (Resume 0) = Some w'
    /\ loadPromises (manager w') !! "hero" = None
    /\ loadSection_enter w' "hero" = add_call w' "hero" (Returned (Some heroEntry)).
Proof.
  eexists. split; [reflexivity|]. split; reflexivity.
Qed.

(* ===================================================================== *)
(** * [validateSectionProps]                                               *)
(* ===================================================================== *)

Lemma checkRequired_acc (props : PlainObject Value) (schema : PlainObject string)
    (acc : list string) :
  fold_left
    (fun (errors : list string) '(propName, propType) =>
       if negb (has_property props propName)
       then (errors ++ ["Missing required prop: " +:+ propName +:+ " (" +:+ propType +:+ ")"])%list
       else errors)
    schema acc
  = (acc ++ checkRequired props schema)%list.
Proof.
  unfold checkRequired. revert acc.
  induction schema as [|[propName propType] rest IH]; intros acc; simpl.
  - rewrite app_nil_r. reflexivity.
  - rewrite IH. rewrite (IH (if negb (has_property props propName) then _ else _)).
    destruct (negb (has_property props propName)); simpl; [|reflexivity].
    rewrite <- app_assoc. reflexivity.
Qed.

(** The first loop reports every schema key that is not [in props]; the
    optional marker of its tag is never consulted. *)
Lemma checkRequired_reports_absent (props : PlainObject Value) (schema : PlainObject string)
    (propName propType : string) :
  In (propName, propType) schema ->
  has_property props propName = false ->
  In ("Missing required prop: " +:+ propName +:+ " (" +:+ propType +:+ ")")
     (checkRequired props schema).
Proof.
  intros Hin Habsent. induction schema as [|[k t] rest IH]; [destruct Hin|].
  unfold checkRequired. simpl. rewrite checkRequired_acc. apply in_or_app.
  destruct Hin as [[= -> ->]|Hin].
  - left. rewrite Habsent. simpl. left. reflexivity.
  - right. apply IH, Hin.
Qed.

(** The second loop only ever appends to the messages it is given. *)
Lemma checkType_keeps (schema : PlainObject string) (errors errors' : list string)
    (propName : string) (propValue : Value) :
  checkType schema errors propName propValue = Normal errors' ->
  forall message, In message errors -> In message errors'.
Proof.
  unfold checkType. intros H message Hin.
  destruct (has_property schema propName); [|injection H as <-; exact Hin].
  destruct (JS.get VString schema propName) as [| | | |expectedType| | |];
    try discriminate.
  repeat match type of H with
         | (if ?b then _ else _) = _ => destruct b
         end;
    injection H as <-; try exact Hin; apply in_or_app; left; exact Hin.
Qed.

Lemma typed_loop_keeps (schema : PlainObject string) (props : PlainObject Value)
    (errors errors' : list string) :
  fold_left
    (fun (acc : Completion (list string)) '(propName, propValue) =>
       match acc with
       | Normal errors => checkType schema errors propName propValue
       | Throws e => Throws e
       end)
    props (Normal errors) = Normal errors' ->
  forall message, In message errors -> In message errors'.
Proof.
  revert errors. induction props as [|[propName propValue] rest IH]; intros errors; simpl.
  - intros [= <-] message Hin. exact Hin.
  - destruct (checkType schema errors propName propValue) as [errors1|e] eqn:Hcheck.
    + intros Hrest message Hin. apply (IH errors1 Hrest).
      apply (checkType_keeps _ _ _ _ _ Hcheck), Hin.
    + intros Hrest. exfalso. clear -Hrest.
      induction rest as [|[k v] rest IH]; simpl in Hrest; [discriminate|auto].
Qed.

(** Whenever [validateSectionProps] returns, a schema key that is absent from
    [props] makes the result invalid, optional marker or not. *)
Lemma validateSectionProps_absent_key_invalid
    (props : PlainObject Value) (config : SectionConfig) (result : Validation)
    (propName propType : string) :
  validateSectionProps props config = Normal result ->
  In (propName, propType) (cfg_props config) ->
  has_property props propName = false ->
  valid result = false
  /\ In ("Missing required prop: " +:+ propName +:+ " (" +:+ propType +:+ ")")
        (errors result).
Proof.
  unfold validateSectionProps. intros Hres Hin Habsent.
  destruct (fold_left _ props _) as [errs|e] eqn:Hloop; [|discriminate].
  injection Hres as <-. simpl.
  pose proof (typed_loop_keeps _ _ _ _ Hloop _
                (checkRequired_reports_absent props _ _ _ Hin Habsent)) as Hmsg.
  split; [|exact Hmsg].
  destruct errs; [destruct Hmsg|reflexivity].
Qed.

(** C8, the code at the failing input: the schema marks [className] optional
    ([string?]) and the props supply the required [title] only, yet the
    result is invalid with a missing-property message for [className]. *)
Theorem validateSectionProps_rejects_absent_optional :
  endsWith "string?" "?" = true
  /\ has_property [("title", VString "KOVA")] "title" = true
  /\ validateSectionProps [("title", VString "KOVA")] optionalSchema
     = Normal {| valid := false;
                 errors := ["Missing required prop: className (string?)"] |}.
Proof. repeat split. Qed.

(** An optional property that is present with a string value is reported too:
    its tag [string?] is compared with [typeof] as it stands. *)
Lemma validateSectionProps_rejects_present_optional :
  validateSectionProps [("title", VString "KOVA"); ("className", VString "dark")]
                       optionalSchema
  = Normal {| valid := false;
              errors := ["Prop className should be string?, got string"] |}.
Proof. reflexivity. Qed.

(** A property named like a member of [Object.prototype] passes the [in]
    test against any schema and makes the call throw. *)
Lemma validateSectionProps_throws_on_inherited_name :
  validateSectionProps [("toString", VString "x")] heroSectionConfig
  = Throws "expectedType.includes is not a function".
Proof. reflexivity. Qed.

(** With the hero schema and well-typed props the result is valid. *)
Lemma validateSectionProps_hero_valid :
  validateSectionProps
    [ ("title", VString "La Nueva Generacion De"); ("subtitle", VString "Beneficios");
      ("description", VString "KOVA"); ("features", VArray []);
      ("dynamicWords", VArray [VString "relevantes."]) ]
    heroSectionConfig
  = Normal {| valid := true; errors := [] |}.
Proof. reflexivity. Qed.

(* ===================================================================== *)
(** * Further properties of the registry                                  *)
(* ===================================================================== *)

Lemma map_has_get {V : Type} (m : MapOf V) (key : string) :
  map_has m key = true <-> exists v, map_get m key = Some v.
Proof.
  unfold map_has. destruct (map_get m key) as [v|].
  - split; [intros _; exists v; reflexivity|reflexivity].
  - split; [discriminate|intros [v H]; discriminate].
Qed.

(** X1: [register(id, entry)] followed by [getSection(id)] gives back [entry],
    also when another entry was registered under [id] before (the last write
    wins, nothing is merged); the entry of any other identifier and the
    in-flight markers are untouched. *)
Theorem register_then_getSection
    (this : SectionRegistryManager) (id id' : SectionId)
    (first entry : SectionRegistryEntry) :
  getSection (register this id entry) id = Some entry
  /\ getSection (register (register this id first) id entry) id = Some entry
  /\ hasSection (register this id entry) id = true
  /\ loadPromises (register this id entry) = loadPromises this
  /\ (id' <> id ->
      getSection (register this id entry) id' = getSection this id'
      /\ hasSection (register this id entry) id' = hasSection this id').
Proof.
  unfold getSection, hasSection, register. simpl.
  split; [apply map_get_set_eq|]. split; [apply map_get_set_eq|].
  split; [unfold map_has; rewrite map_get_set_eq; reflexivity|].
  split; [reflexivity|].
  intros Hne. assert (Hget : map_get (map_set (sections this) id entry) id'
                             = map_get (sections this) id').
  { apply map_get_set_ne. intros E. apply Hne. symmetry. exact E. }
  split; [exact Hget|]. unfold map_has. rewrite Hget. reflexivity.
Qed.

Lemma register_then_getSection_witness :
  getSection (register sampleRegistry "hero" heroEntry) "pricing"
  = Some (sampleEntry "pricing" 2)
  /\ getSection (register sampleRegistry "hero" heroEntry) "hero" = Some heroEntry.
Proof.
  destruct (register_then_getSection sampleRegistry "hero" "pricing"
              heroEntry heroEntry) as (Hsame & _ & _ & _ & Hother).
  split; [|exact Hsame].
  destruct Hother as [-> _]; [discriminate|reflexivity].
Defined.

Lemma map_set_keys_present {V : Type} (m : MapOf V) (key : string) (v : V) :
  map_has m key = true -> map_keys (map_set m key v) = map_keys m.
Proof.
  unfold map_has, map_keys.
  induction m as [|[k x] rest IH]; simpl; [discriminate|].
  destruct (String.eqb k key) eqn:Hk; simpl; [reflexivity|].
  intros H. rewrite (IH H). reflexivity.
Qed.

Lemma map_has_keys {V : Type} (m : MapOf V) (key : string) :
  map_has m key = true <-> In key (map_keys m).
Proof.
  unfold map_has, map_keys.
  induction m as [|[k x] rest IH]; simpl.
  - split; [discriminate|intros []].
  - destruct (String.eqb k key) eqn:Hk.
    + apply String.eqb_eq in Hk. split; [intros _; left; exact Hk|reflexivity].
    + apply String.eqb_neq in Hk. rewrite IH. split.
      * intros H. right. exact H.
      * intros [H|H]; [contradiction|exact H].
Qed.

(** X2: [register] keeps one entry per identifier.  Registering under an
    identifier that is already present replaces the entry in place: the list
    of keys, hence the number and the order of the entries of
    [getAllSections()], does not change.  Registering under a new identifier
    appends the entry at the end.  In both cases keys that were distinct stay
    distinct. *)
Theorem register_one_entry_per_id
    (this : SectionRegistryManager) (id : SectionId) (entry : SectionRegistryEntry) :
  (hasSection this id = true ->
   map_keys (sections (register this id entry)) = map_keys (sections this)
   /\ length (getAllSections (register this id entry)) = length (getAllSections this))
  /\ (hasSection this id = false ->
      getAllSections (register this id entry) = (getAllSections this ++ [entry])%list
      /\ map_keys (sections (register this id entry))
         = (map_keys (sections this) ++ [id])%list)
  /\ (List.NoDup (map_keys (sections this)) ->
      List.NoDup (map_keys (sections (register this id entry)))).
Proof.
  assert (Hfresh : hasSection this id = false ->
                   sections (register this id entry)
                   = (sections this ++ [(id, entry)])%list).
  { unfold hasSection, map_has. simpl. intros H. apply map_set_fresh.
    destruct (map_get (sections this) id); [discriminate|reflexivity]. }
  split; [|split].
  - intros Hhas. unfold hasSection in Hhas.
    pose proof (map_set_keys_present (sections this) id entry Hhas) as Hkeys.
    split; [exact Hkeys|].
    unfold getAllSections, map_values. simpl. rewrite !length_map.
    apply (f_equal (@length string)) in Hkeys. unfold map_keys in Hkeys.
    rewrite !length_map in Hkeys. exact Hkeys.
  - intros Hnot. unfold getAllSections, map_values, map_keys.
    rewrite (Hfresh Hnot), !map_app. split; reflexivity.
  - intros Hnd. destruct (hasSection this id) eqn:Hhas.
    + simpl. unfold hasSection in Hhas.
      rewrite (map_set_keys_present _ _ _ Hhas). exact Hnd.
    + unfold map_keys. rewrite (Hfresh eq_refl), map_app. simpl.
      apply List.NoDup_app; [exact Hnd|apply List.NoDup_cons; [intros []|apply List.NoDup_nil]|].
      intros k Hin [E|[]]. subst k.
      apply (map_has_keys (sections this) id) in Hin.
      unfold hasSection in Hhas. congruence.
Qed.

Lemma register_one_entry_per_id_witness :
  map_keys (sections (register sampleRegistry "hero" heroEntry))
  = ["pricing"; "hero"; "features"]
  /\ getAllSections (register sampleRegistry "contact" (sampleEntry "contact" 5))
     = [sampleEntry "pricing" 2; sampleEntry "hero" 2; sampleEntry "features" 1;
        sampleEntry "contact" 5]
  /\ List.NoDup (map_keys (sections (register sectionRegistry "hero" heroEntry))).
Proof.
  destruct (register_one_entry_per_id sampleRegistry "hero" heroEntry) as (Hsame & _ & _).
  destruct (register_one_entry_per_id sampleRegistry "contact" (sampleEntry "contact" 5))
    as (_ & Hnew & _).
  destruct (register_one_entry_per_id sectionRegistry "hero" heroEntry) as (_ & _ & Hnd).
  split; [destruct (Hsame eq_refl) as [-> _]; reflexivity|].
  split; [destruct (Hnew eq_refl) as [-> _]; reflexivity|].
  apply Hnd. apply List.NoDup_nil.
Defined.

(* ===================================================================== *)
(** * Further properties of the load protocol                              *)
(* ===================================================================== *)

Lemma available_In (id : SectionId) : available id = true <-> In id AVAILABLE_SECTIONS.
Proof.
  rewrite available_hero. simpl. split.
  - intros ->. left. reflexivity.
  - intros [H|[]]. symmetry. exact H.
Qed.

Lemma gated_step (w w' : World) (ev : Event) :
  consistent w -> gated w -> step w ev = Some w' -> gated w'.
Proof.
  intros Hw (Himp & Hsec & Hmark). destruct ev as [id|p r|c].
  - intros [= <-]. unfold gated. rewrite enter_sections.
    unfold loadSection_enter.
    destruct (available id) eqn:Hav; simpl.
    2: { repeat split; assumption. }
    destruct (getSection (manager w) id); [repeat split; assumption|].
    destruct (loadPromises (manager w) !! id); [repeat split; assumption|].
    simpl. split; [|split].
    + intros id' Hin. apply in_app_or in Hin. destruct Hin as [Hin|[<-|[]]].
      * apply Himp, Hin.
      * apply available_In, Hav.
    + exact Hsec.
    + intros id' p Hm. apply lookup_insert_Some in Hm. destruct Hm as [[<- _]|[_ Hm]].
      * apply available_In, Hav.
      * apply (Hmark id' p Hm).
  - intros Hstep. pose proof (import_manager w w' p r Hstep) as Hman.
    simpl in Hstep. destruct (promises w !! p) as [[| |]|]; try discriminate.
    injection Hstep as <-. repeat split; assumption.
  - unfold step. destruct (calls w !! c) as [[id [result|q|p]]|] eqn:Hc; try discriminate.
    destruct (call_has_marker w Hw c id p Hc) as (_ & _ & Hav & _).
    apply available_In in Hav.
    assert (Hdel : forall id' q, delete id (loadPromises (manager w)) !! id' = Some q ->
                                 In id' AVAILABLE_SECTIONS).
    { intros id' q Hm. apply lookup_delete_Some in Hm. destruct Hm as [_ Hm].
      apply (Hmark id' q Hm). }
    destruct (promises w !! p) as [[|entry|reason]|]; try discriminate; intros [= <-];
      simpl; (split; [exact Himp|split; [|exact Hdel]]).
    + intros id' e Hin. apply map_set_In in Hin. destruct Hin as [[= -> _]|Hin].
      * exact Hav.
      * apply (Hsec id' e Hin).
    + exact Hsec.
Qed.

Lemma gated_run (evs : list Event) (w w' : World) :
  consistent w -> gated w -> run w evs = Some w' -> gated w'.
Proof.
  revert w. induction evs as [|ev rest IH]; intros w Hw Hg; simpl.
  - intros [= <-]. exact Hg.
  - destruct (step w ev) as [w1|] eqn:Hstep; [|discriminate].
    apply IH.
    + eapply consistent_step; eassumption.
    + eapply gated_step; eassumption.
Qed.

Lemma reachable_gated (w : World) : reachable w -> gated w.
Proof.
  intros [evs Hrun].
  apply (gated_run evs initial w consistent_initial); [|exact Hrun].
  split; [|split]; simpl.
  - intros id [].
  - intros id entry [].
  - intros id p H. rewrite lookup_empty in H. discriminate.
Qed.

(** In a reachable state only ['hero'] can be registered or in flight. *)
Lemma only_gated (w : World) :
  reachable w ->
  (forall id, hasSection (manager w) id = true -> id = "hero")
  /\ (forall id p, loadPromises (manager w) !! id = Some p -> id = "hero").
Proof.
  intros Hreach. destruct (reachable_gated w Hreach) as (_ & Hsec & Hmark).
  assert (Hhero : forall id, In id AVAILABLE_SECTIONS -> id = "hero").
  { intros id [H|[]]. symmetry. exact H. }
  split.
  - intros id Hhas. unfold hasSection in Hhas. apply map_has_get in Hhas.
    destruct Hhas as [e He]. apply map_get_In in He. apply Hhero, (Hsec id e He).
  - intros id p Hm. apply Hhero, (Hmark id p Hm).
Qed.

(** X3: in every reachable state, [dynamicImport] has been invoked for
    allow-listed identifiers only (so its [default] branch, which throws, has
    never run), and only allow-listed identifiers are registered or marked as
    in flight, whatever identifiers [loadSection] was called with. *)
Theorem only_available_sections_are_loaded (w : World) :
  reachable w ->
  (forall id, In id (imports w) -> id = "hero")
  /\ (forall id, hasSection (manager w) id = true -> id = "hero")
  /\ (forall id p, loadPromises (manager w) !! id = Some p -> id = "hero")
  /\ (forall id, fetches w id <> 0 -> dynamicImport id = Pending).
Proof.
  intros Hreach. destruct (reachable_gated w Hreach) as (Himp & _).
  destruct (only_gated w Hreach) as (Hsec & Hmark).
  assert (Hhero : forall id, In id AVAILABLE_SECTIONS -> id = "hero").
  { intros id [H|[]]. symmetry. exact H. }
  split; [|split; [|split]].
  - intros id Hin. apply Hhero, Himp, Hin.
  - exact Hsec.
  - exact Hmark.
  - intros id Hf. unfold fetches in Hf.
    destruct (List.filter (String.eqb id) (imports w)) as [|x rest] eqn:Hfil;
      [contradiction|].
    assert (Hin : In x (List.filter (String.eqb id) (imports w)))
      by (rewrite Hfil; left; reflexivity).
    apply filter_In in Hin. destruct Hin as [Hin Heq]. apply String.eqb_eq in Heq. subst x.
    rewrite (Hhero id (Himp id Hin)). reflexivity.
Qed.

Lemma only_available_sections_are_loaded_witness :
  let w := loadSection_enter (loadSection_enter initial "features") "hero" in
  imports w = ["hero"] /\ forall id, In id (imports w) -> id = "hero".
Proof.
  cbv zeta. split; [reflexivity|].
  apply only_available_sections_are_loaded.
  exists [Call "features"; Call "hero"]. reflexivity.
Defined.

Lemma registered_step (w w' : World) (ev : Event) (id : SectionId)
    (entry : SectionRegistryEntry) :
  consistent w -> getSection (manager w) id = Some entry -> step w ev = Some w' ->
  getSection (manager w') id = Some entry /\ fetches w' id = fetches w id.
Proof.
  intros Hw Hreg. destruct ev as [id'|p r|c].
  - intros [= <-]. split.
    + unfold getSection. rewrite enter_sections. exact Hreg.
    + unfold fetches, loadSection_enter.
      destruct (available id') eqn:Hav; simpl; [|reflexivity].
      destruct (getSection (manager w) id') eqn:Hget; [reflexivity|].
      destruct (loadPromises (manager w) !! id'); [reflexivity|].
      simpl. rewrite List.filter_app. simpl.
      destruct (String.eqb id id') eqn:Heq.
      * apply String.eqb_eq in Heq. subst id'. congruence.
      * rewrite app_nil_r. reflexivity.
  - intros Hstep. rewrite (import_manager w w' p r Hstep). split; [exact Hreg|].
    simpl in Hstep. destruct (promises w !! p) as [[| |]|]; try discriminate.
    injection Hstep as <-. reflexivity.
  - unfold step. destruct (calls w !! c) as [[id' [result|q|p]]|] eqn:Hc; try discriminate.
    destruct (call_has_marker w Hw c id' p Hc) as (_ & Hnone & _).
    assert (Hne : id' <> id) by (intros ->; congruence).
    destruct (promises w !! p) as [[|e|reason]|]; try discriminate; intros [= <-];
      (split; [|reflexivity]).
    + unfold getSection. simpl. rewrite map_get_set_ne by exact Hne. exact Hreg.
    + exact Hreg.
Qed.

(** X4: once a section is registered, no later event of the load protocol
    replaces or removes its entry, starts another fetch for it, or marks it as
    in flight: every later [loadSection] call for it is served from the
    registry. *)
Theorem registered_entry_is_permanent
    (w w' : World) (evs : list Event) (id : SectionId) (entry : SectionRegistryEntry) :
  reachable w ->
  getSection (manager w) id = Some entry ->
  run w evs = Some w' ->
  getSection (manager w') id = Some entry
  /\ fetches w' id = fetches w id
  /\ loadPromises (manager w') !! id = None
  /\ (In id AVAILABLE_SECTIONS ->
      loadSection_enter w' id = add_call w' id (Returned (Some entry))).
Proof.
  intros Hreach Hreg Hrun.
  assert (Hkeep : getSection (manager w') id = Some entry /\ fetches w' id = fetches w id
                  /\ consistent w').
  { pose proof (reachable_consistent w Hreach) as Hw. clear Hreach.
    revert w Hw Hreg Hrun. induction evs as [|ev rest IH]; intros w Hw Hreg; simpl.
    - intros [= <-]. split; [exact Hreg|split; [reflexivity|exact Hw]].
    - destruct (step w ev) as [w1|] eqn:Hstep; [|discriminate]. intros Hrun.
      destruct (registered_step w w1 ev id entry Hw Hreg Hstep) as [Hreg1 Hf1].
      destruct (IH w1 (consistent_step w w1 ev Hw Hstep) Hreg1 Hrun) as (H1 & H2 & H3).
      split; [exact H1|split; [congruence|exact H3]]. }
  destruct Hkeep as (Hreg' & Hf & Hw').
  split; [exact Hreg'|]. split; [exact Hf|]. split.
  - destruct (loadPromises (manager w') !! id) as [p|] eqn:Hm; [|reflexivity].
    destruct (marker_has_call w' Hw' id p Hm) as [c Hc].
    destruct (call_has_marker w' Hw' c id p Hc) as (_ & Hnone & _). congruence.
  - intros Hav. apply enter_existing; [apply available_In, Hav|exact Hreg'].
Qed.

Lemma registered_entry_is_permanent_witness :
  exists w',
    run heroLoaded [Call "hero"; Call "features"; Call "hero"] = Some w'
    /\ getSection (manager w') "hero" = Some heroEntry
    /\ fetches w' "hero" = 1.
Proof.
  eexists. split; [reflexivity|].
  assert (Hreach : reachable heroLoaded).
  { exists (singleLoad initial "hero" (Loaded heroModule)). reflexivity. }
  destruct (registered_entry_is_permanent heroLoaded _
              [Call "hero"; Call "features"; Call "hero"] "hero" heroEntry
              Hreach eq_refl eq_refl) as (Hreg & Hf & _).
  split; [exact Hreg|]. rewrite Hf. reflexivity.
Defined.

Lemma getLoadStatus_own (this : SectionRegistryManager) (id : SectionId) :
  In id allSectionIds -> own (getLoadStatus this) id = Some (statusOf this id).
Proof.
  intros Hid. rewrite getLoadStatus_loop, assign_each.
  - unfold allSectionIds in *. simpl in *.
    destruct Hid as [<-|[<-|[<-|[<-|[<-|[]]]]]]; reflexivity.
  - apply allSectionIds_NoDup.
  - reflexivity.
Qed.

(** X5: in every reachable state the derived status agrees with the protocol:
    [getLoadStatus()] reports a known identifier as loading exactly while a
    [loadSection] call for it is suspended at its [await], as loaded exactly
    when it is registered, and every identifier other than ['hero'] as
    not-loaded. *)
Theorem getLoadStatus_tracks_protocol (w : World) (id : SectionId) :
  reachable w ->
  In id allSectionIds ->
  (own (getLoadStatus (manager w)) id = Some loading <-> suspended w id)
  /\ (own (getLoadStatus (manager w)) id = Some loaded
      <-> exists entry, getSection (manager w) id = Some entry)
  /\ (id <> "hero" -> own (getLoadStatus (manager w)) id = Some not_loaded).
Proof.
  intros Hreach Hid. pose proof (reachable_consistent w Hreach) as Hw.
  rewrite (getLoadStatus_own (manager w) id Hid). unfold statusOf, hasSection.
  split; [|split].
  - split.
    + destruct (map_has (sections (manager w)) id); [discriminate|].
      destruct (bool_decide (is_Some (loadPromises (manager w) !! id))) eqn:Hb;
        [|discriminate].
      intros _. apply bool_decide_eq_true in Hb. destruct Hb as [p Hp].
      destruct (marker_has_call w Hw id p Hp) as [c Hc]. exists c, p. exact Hc.
    + intros (c & p & Hc).
      destruct (call_has_marker w Hw c id p Hc) as (Hm & Hnone & _).
      unfold map_has. unfold getSection in Hnone. rewrite Hnone.
      rewrite bool_decide_eq_true_2; [reflexivity|]. exists p. exact Hm.
  - unfold getSection. rewrite <- map_has_get.
    destruct (map_has (sections (manager w)) id).
    + split; reflexivity.
    + split; [|discriminate].
      destruct (bool_decide (is_Some (loadPromises (manager w) !! id))); discriminate.
  - intros Hne.
    destruct (only_gated w Hreach) as (Hsec & Hmark).
    destruct (map_has (sections (manager w)) id) eqn:Hhas.
    + exfalso. apply Hne, Hsec, Hhas.
    + destruct (bool_decide (is_Some (loadPromises (manager w) !! id))) eqn:Hb;
        [|reflexivity].
      apply bool_decide_eq_true in Hb. destruct Hb as [p Hp].
      exfalso. apply Hne, (Hmark id p Hp).
Qed.

Lemma getLoadStatus_tracks_protocol_witness :
  let w := loadSection_enter initial "hero" in
  own (getLoadStatus (manager w)) "hero" = Some loading
  /\ own (getLoadStatus (manager w)) "features" = Some not_loaded.
Proof.
  cbv zeta.
  assert (Hreach : reachable (loadSection_enter initial "hero"))
    by (exists [Call "hero"]; reflexivity).
  assert (Hhero : In "hero" allSectionIds) by (left; reflexivity).
  assert (Hfeatures : In "features" allSectionIds) by (right; left; reflexivity).
  destruct (getLoadStatus_tracks_protocol _ "hero" Hreach Hhero) as (Hloading & _).
  destruct (getLoadStatus_tracks_protocol _ "features" Hreach Hfeatures) as (_ & _ & Hnot).
  split.
  - apply Hloading. exists 0, 0. reflexivity.
  - apply Hnot. discriminate.
Defined.

(* ===================================================================== *)
(** * Further properties of the feature flags                              *)
(* ===================================================================== *)

Lemma own_set_eq {V : Type} (o : PlainObject V) (key : string) (v : V) :
  own (JS.set o key v) key = Some v.
Proof.
  induction o as [|[k x] rest IH]; simpl.
  - rewrite String.eqb_refl. reflexivity.
  - destruct (String.eqb k key) eqn:Hk; simpl; rewrite Hk; [reflexivity|exact IH].
Qed.

Lemma own_set_ne {V : Type} (o : PlainObject V) (key key' : string) (v : V) :
  key <> key' -> own (JS.set o key v) key' = own o key'.
Proof.
  intros Hne. induction o as [|[k x] rest IH]; simpl.
  - destruct (String.eqb key key') eqn:Hk; [|reflexivity].
    apply String.eqb_eq in Hk. contradiction.
  - destruct (String.eqb k key) eqn:Hk; simpl.
    + apply String.eqb_eq in Hk. subst k.
      destruct (String.eqb key key') eqn:Hk'; [|reflexivity].
      apply String.eqb_eq in Hk'. contradiction.
    + destruct (String.eqb k key'); [reflexivity|exact IH].
Qed.

Lemma get_set_ne {V : Type} (inj : V -> Value) (o : PlainObject V)
    (key key' : string) (v : V) :
  key <> key' -> JS.get inj (JS.set o key v) key' = JS.get inj o key'.
Proof. intros Hne. unfold JS.get. rewrite own_set_ne by exact Hne. reflexivity. Qed.

(** X6: [setFeatureFlag] does nothing outside development mode.  In
    development mode it makes the table hold [enabled] for the flag and leaves
    every other flag as it was; [isFeatureEnabled] then returns [enabled] for
    the flag unless its environment override is set, in which case the
    override still decides and the call has no visible effect. *)
Theorem setFeatureFlag_read_back
    (env : Env) (flags : FlagTable) (feature other : string) (enabled : bool) :
  feature <> "__proto__" ->
  (development env = false -> setFeatureFlag env flags feature enabled = flags)
  /\ (development env = true ->
      flag_lookup (setFeatureFlag env flags feature enabled) feature = VBool enabled
      /\ (other <> feature ->
          flag_lookup (setFeatureFlag env flags feature enabled) other
          = flag_lookup flags other)
      /\ (env !! ("FEATURE_" +:+ feature) = None ->
          isFeatureEnabled env (setFeatureFlag env flags feature enabled) feature
          = VBool enabled)
      /\ (forall envOverride,
            env !! ("FEATURE_" +:+ feature) = Some envOverride ->
            isFeatureEnabled env (setFeatureFlag env flags feature enabled) feature
            = isFeatureEnabled env flags feature)).
Proof.
  intros _. unfold setFeatureFlag. split; [intros ->; reflexivity|].
  intros Hdev. rewrite Hdev.
  assert (Hread : flag_lookup (JS.set flags feature enabled) feature = VBool enabled).
  { unfold flag_lookup, JS.get. rewrite own_set_eq. reflexivity. }
  split; [exact Hread|]. split; [|split].
  - intros Hne. unfold flag_lookup. apply get_set_ne.
    intros E. apply Hne. symmetry. exact E.
  - intros Hnone. unfold isFeatureEnabled. rewrite Hdev, Hnone. exact Hread.
  - intros envOverride Hset. unfold isFeatureEnabled. rewrite Hdev, Hset. reflexivity.
Qed.

Lemma setFeatureFlag_read_back_witness :
  isFeatureEnabled sampleEnv (setFeatureFlag sampleEnv FEATURE_FLAGS "PRICING_SECTION" true)
                   "PRICING_SECTION" = VBool true
  /\ setFeatureFlag prodEnv FEATURE_FLAGS "PRICING_SECTION" true = FEATURE_FLAGS.
Proof.
  assert (Hname : "PRICING_SECTION" <> "__proto__") by discriminate.
  destruct (setFeatureFlag_read_back sampleEnv FEATURE_FLAGS "PRICING_SECTION"
              "HERO_SECTION" true Hname) as (_ & Hdev).
  destruct (setFeatureFlag_read_back prodEnv FEATURE_FLAGS "PRICING_SECTION"
              "HERO_SECTION" true Hname) as (Hprod & _).
  split; [|apply Hprod; reflexivity].
  destruct (Hdev eq_refl) as (_ & _ & Hread & _). apply Hread. reflexivity.
Defined.

Lemma own_key_In {V : Type} (o : PlainObject V) (key : string) :
  In key (map fst o) <-> exists v, own o key = Some v.
Proof.
  induction o as [|[k x] rest IH]; simpl.
  - split; [intros []|intros [v H]; discriminate].
  - destruct (String.eqb k key) eqn:Hk.
    + apply String.eqb_eq in Hk. split; [intros _; exists x; reflexivity|].
      intros _. left. exact Hk.
    + apply String.eqb_neq in Hk. rewrite <- IH. split.
      * intros [H|H]; [contradiction|exact H].
      * intros H. right. exact H.
Qed.

(** X7: [getEnabledFeatures()] lists keys of the table only.  Outside
    development mode a flag is listed exactly when the table holds [true] for
    it; in development mode with the flag's override set, exactly when the
    override is the string ["true"].  An identifier that is not a key of the
    table is never listed, not even when an override makes
    [isFeatureEnabled] return true for it. *)
Theorem getEnabledFeatures_lists_table_keys
    (env : Env) (flags : FlagTable) (feature : string) :
  (In feature (getEnabledFeatures env flags) -> In feature (map fst flags))
  /\ (development env = false ->
      (In feature (getEnabledFeatures env flags) <-> own flags feature = Some true))
  /\ (forall envOverride,
        development env = true ->
        env !! ("FEATURE_" +:+ feature) = Some envOverride ->
        (In feature (getEnabledFeatures env flags)
         <-> In feature (map fst flags) /\ envOverride = "true"))
  /\ (own flags feature = None -> ~ In feature (getEnabledFeatures env flags)).
Proof.
  unfold getEnabledFeatures. split; [|split; [|split]].
  - intros Hin. apply filter_In in Hin. apply Hin.
  - intros Hdev. rewrite filter_In, (isFeatureEnabled_production env flags feature Hdev).
    unfold flag_lookup, JS.get. split.
    + intros [Hkey Htrue]. apply own_key_In in Hkey. destruct Hkey as [b Hb].
      rewrite Hb in Htrue. simpl in Htrue. subst b. exact Hb.
    + intros Hown. split.
      * apply own_key_In. exists true. exact Hown.
      * rewrite Hown. reflexivity.
  - intros envOverride Hdev Hset. rewrite filter_In.
    unfold isFeatureEnabled. rewrite Hdev, Hset. simpl.
    rewrite String.eqb_eq. reflexivity.
  - intros Hnone Hin. apply filter_In in Hin. destruct Hin as [Hkey _].
    apply own_key_In in Hkey. destruct Hkey as [b Hb]. congruence.
Qed.

Lemma getEnabledFeatures_lists_table_keys_witness :
  getEnabledFeatures prodEnv FEATURE_FLAGS = ["HERO_SECTION"]
  /\ isFeatureEnabled sampleEnv FEATURE_FLAGS "hero" = VBool true
  /\ ~ In "hero" (getEnabledFeatures sampleEnv FEATURE_FLAGS)
  /\ In "HERO_SECTION" (getEnabledFeatures prodEnv FEATURE_FLAGS).
Proof.
  destruct (getEnabledFeatures_lists_table_keys sampleEnv FEATURE_FLAGS "hero")
    as (_ & _ & _ & Hnokey).
  destruct (getEnabledFeatures_lists_table_keys prodEnv FEATURE_FLAGS "HERO_SECTION")
    as (_ & Hprod & _).
  split; [reflexivity|]. split; [reflexivity|]. split.
  - apply Hnokey. reflexivity.
  - apply Hprod; reflexivity.
Defined.

(* ===================================================================== *)
(** * Class names and data attributes                                      *)
(* ===================================================================== *)

(** X8: outside development mode [getSectionDataAttributes] throws for every
    section identifier, whatever the five flags hold, because the flag lookup
    is [undefined] and has no [toString]; in development mode with the
    identifier's override set it returns the three attributes, with
    [data-enabled] the text of the boolean "override equals true", and its
    [data-testid] is the class name [getSectionClassName] gives without extra
    classes. *)
Theorem getSectionDataAttributes_needs_a_flag
    (otherToString : Value -> string) (env : Env) (h f p t c : bool) (id : SectionId) :
  In id allSectionIds ->
  (development env = false ->
   getSectionDataAttributes otherToString env (flag_table h f p t c) id
   = Throws "Cannot read properties of undefined (reading 'toString')")
  /\ (forall envOverride,
        development env = true ->
        env !! ("FEATURE_" +:+ id) = Some envOverride ->
        getSectionDataAttributes otherToString env (flag_table h f p t c) id
        = Normal {| data_section := id;
                    data_testid := getSectionClassName id None;
                    data_enabled := if String.eqb envOverride "true"
                                    then "true" else "false" |}).
Proof.
  intros Hid. unfold getSectionDataAttributes. split.
  - intros Hdev.
    rewrite (isFeatureEnabled_section_undefined env h f p t c id Hdev Hid). reflexivity.
  - intros envOverride Hdev Hset. unfold isFeatureEnabled. rewrite Hdev, Hset. reflexivity.
Qed.

Lemma getSectionDataAttributes_needs_a_flag_witness :
  getSectionDataAttributes (fun _ => "") prodEnv FEATURE_FLAGS "hero"
  = Throws "Cannot read properties of undefined (reading 'toString')"
  /\ getSectionDataAttributes (fun _ => "") sampleEnv FEATURE_FLAGS "hero"
     = Normal {| data_section := "hero"; data_testid := "section-hero";
                 data_enabled := "true" |}.
Proof.
  assert (Hhero : In "hero" allSectionIds) by (left; reflexivity).
  destruct (getSectionDataAttributes_needs_a_flag (fun _ => "") prodEnv
              true false false false false "hero" Hhero) as (Hprod & _).
  destruct (getSectionDataAttributes_needs_a_flag (fun _ => "") sampleEnv
              true false false false false "hero" Hhero) as (_ & Hdev).
  split; [apply Hprod; reflexivity|].
  apply (Hdev "true"); reflexivity.
Defined.

(** The class name always starts with [section-<id>]; an omitted and an
    empty [additionalClasses] both give exactly [section-<id>], any other
    value is appended after one space. *)
Lemma getSectionClassName_base (id : SectionId) (additionalClasses : option string) :
  String.prefix ("section-" +:+ id) (getSectionClassName id additionalClasses) = true
  /\ getSectionClassName id None = "section-" +:+ id
  /\ getSectionClassName id (Some "") = "section-" +:+ id
  /\ (forall classes, classes <> "" ->
        getSectionClassName id (Some classes) = "section-" +:+ id +:+ " " +:+ classes).
Proof.
  assert (Hself : String.prefix ("section-" +:+ id) ("section-" +:+ id) = true).
  { generalize ("section-" +:+ id). intros s. induction s as [|a s IH]; simpl; [reflexivity|].
    destruct (ascii_dec a a); [exact IH|contradiction]. }
  split; [|split; [reflexivity|split; [reflexivity|]]].
  - unfold getSectionClassName. cbv zeta.
    destruct additionalClasses as [classes|]; [|exact Hself].
    destruct (truthy (VString classes)); [|exact Hself].
    apply prefix_append.
  - intros classes Hne. unfold getSectionClassName. simpl.
    apply String.eqb_neq in Hne. rewrite Hne. reflexivity.
Qed.

Lemma getSectionClassName_base_witness :
  getSectionClassName "hero" (Some "dark wide") = "section-hero dark wide".
Proof.
  destruct (getSectionClassName_base "hero" None) as (_ & _ & _ & H).
  apply (H "dark wide"). discriminate.
Defined.

(* ===================================================================== *)
(** * Further properties of [validateSectionProps]                         *)
(* ===================================================================== *)

Section ValidateFacts.
Context (schema : PlainObject string).

(** What one round of the second loop appends. *)
Lemma checkType_cases (errors : list string) (propName : string) (propValue : Value) :
  (shadowsBuiltin schema propName = true ->
   checkType schema errors propName propValue
   = Throws "expectedType.includes is not a function")
  /\ (shadowsBuiltin schema propName = false ->
      exists added,
        checkType schema errors propName propValue = Normal (errors ++ added)%list
        /\ (added = [] <-> conforms schema propName propValue = true)).
Proof.
  unfold shadowsBuiltin, conforms, checkType, has_property, JS.get, actualTypeOf.
  destruct (own schema propName) as [expectedType|] eqn:Hown.
  - split; [discriminate|]. intros _.
    destruct (includes expectedType "[]") eqn:Harr; simpl.
    + destruct (isArray propValue); simpl.
      * exists []. rewrite app_nil_r. split; [reflexivity|]. split; reflexivity.
      * eexists. split; [reflexivity|]. split; discriminate.
    + destruct (String.eqb expectedType (if isArray propValue then "array"
                                         else typeof propValue)) eqn:Hty; simpl.
      * exists []. rewrite app_nil_r. split; [reflexivity|]. split; reflexivity.
      * destruct (String.eqb (if isArray propValue then "array" else typeof propValue)
                             "undefined") eqn:Hund; simpl.
        -- exists []. rewrite app_nil_r. split; [reflexivity|]. split; reflexivity.
        -- rewrite andb_false_r. simpl.
           eexists. split; [reflexivity|]. split; discriminate.
  - destruct (inherited propName) eqn:Hinh.
    + split; [|discriminate]. intros _. unfold prototype_value.
      destruct (String.eqb propName "__proto__"); reflexivity.
    + split; [discriminate|]. intros _. exists []. rewrite app_nil_r.
      split; [reflexivity|]. split; reflexivity.
Qed.

Lemma typed_loop_throws (props : PlainObject Value) (e : string) :
  fold_left
    (fun (acc : Completion (list string)) '(propName, propValue) =>
       match acc with
       | Normal errors => checkType schema errors propName propValue
       | Throws e => Throws e
       end)
    props (Throws e) = Throws e.
Proof. induction props as [|[k v] rest IH]; simpl; [reflexivity|exact IH]. Qed.

Lemma typed_loop_cases (props : PlainObject Value) (errors : list string) :
  (existsb (fun '(propName, _) => shadowsBuiltin schema propName) props = true ->
   fold_left
     (fun (acc : Completion (list string)) '(propName, propValue) =>
        match acc with
        | Normal errors => checkType schema errors propName propValue
        | Throws e => Throws e
        end)
     props (Normal errors) = Throws "expectedType.includes is not a function")
  /\ (existsb (fun '(propName, _) => shadowsBuiltin schema propName) props = false ->
      exists added,
        fold_left
          (fun (acc : Completion (list string)) '(propName, propValue) =>
             match acc with
             | Normal errors => checkType schema errors propName propValue
             | Throws e => Throws e
             end)
          props (Normal errors) = Normal (errors ++ added)%list
        /\ (added = []
            <-> forall propName propValue,
                  In (propName, propValue) props ->
                  conforms schema propName propValue = true)).
Proof.
  revert errors. induction props as [|[k v] rest IH]; intros errors; simpl.
  - split; [discriminate|]. intros _. exists []. rewrite app_nil_r.
    split; [reflexivity|]. split; [intros _ ? ? []|reflexivity].
  - destruct (checkType_cases errors k v) as [Hthrow Hok].
    destruct (shadowsBuiltin schema k) eqn:Hk; simpl.
    + split; [|discriminate]. intros _. rewrite (Hthrow eq_refl). apply typed_loop_throws.
    + destruct (Hok eq_refl) as (added & Hstep & Hadded). rewrite Hstep.
      destruct (IH (errors ++ added)%list) as [IHthrow IHok]. split.
      * exact IHthrow.
      * intros Hrest. destruct (IHok Hrest) as (more & Hloop & Hmore).
        exists (added ++ more)%list. rewrite Hloop, app_assoc.
        split; [reflexivity|]. split.
        -- intros Hnil. apply app_eq_nil in Hnil. destruct Hnil as [Ha Hm].
           intros k' v' [[= <- <-]|Hin].
           ++ apply Hadded, Ha.
           ++ apply (proj1 Hmore Hm k' v' Hin).
        -- intros Hall.
           rewrite (proj2 Hadded (Hall k v (or_introl eq_refl))).
           rewrite (proj2 Hmore (fun k' v' Hin => Hall k' v' (or_intror Hin))).
           reflexivity.
Qed.

End ValidateFacts.

Lemma checkRequired_none (props : PlainObject Value) (schema : PlainObject string) :
  checkRequired props schema = []
  <-> forall propName propType, In (propName, propType) schema ->
                                has_property props propName = true.
Proof.
  induction schema as [|[k t] rest IH].
  - split; [intros _ ? ? []|reflexivity].
  - unfold checkRequired. simpl. rewrite checkRequired_acc.
    destruct (has_property props k) eqn:Hk; simpl.
    + rewrite IH. split.
      * intros H k' t' [[= <- <-]|Hin]; [exact Hk|apply (H k' t' Hin)].
      * intros H k' t' Hin. apply (H k' t'). right. exact Hin.
    + split; [discriminate|].
      intros H. specialize (H k t (or_introl eq_refl)). congruence.
Qed.


(** X9: [validateSectionProps] throws (a [TypeError], instead of returning a
    result) exactly when [props] has a property that is no own key of the
    schema but is named like a member of [Object.prototype], such as
    [toString]: the [in] test finds the name on the schema's prototype and the
    value found there has no [includes] method. *)
Theorem validateSectionProps_throws_iff
    (props : PlainObject Value) (config : SectionConfig) :
  (exists e, validateSectionProps props config = Throws e)
  <-> exists propName propValue,
        In (propName, propValue) props
        /\ own (cfg_props config) propName = None
        /\ inherited propName = true.
Proof.
  unfold validateSectionProps.
  destruct (typed_loop_cases (cfg_props config) props
              (checkRequired props (cfg_props config))) as [Hthrow Hok].
  destruct (existsb (fun '(propName, _) => shadowsBuiltin (cfg_props config) propName)
                    props) eqn:Hex.
  - rewrite (Hthrow eq_refl). split.
    + intros _. apply existsb_exists in Hex. destruct Hex as [[k v] [Hin Hk]].
      exists k, v. split; [exact Hin|]. unfold shadowsBuiltin in Hk.
      destruct (own (cfg_props config) k); [discriminate|]. split; [reflexivity|exact Hk].
    + intros _. eexists. reflexivity.
  - destruct (Hok eq_refl) as (added & -> & _). split.
    + intros [e He]. discriminate.
    + intros (k & v & Hin & Hown & Hinh). exfalso.
      assert (Htrue : existsb (fun '(propName, _) =>
                                 shadowsBuiltin (cfg_props config) propName) props = true).
      { apply existsb_exists. exists (k, v). split; [exact Hin|].
        unfold shadowsBuiltin. rewrite Hown. exact Hinh. }
      congruence.
Qed.

(** X10: when [validateSectionProps] returns, the result is valid exactly when
    every key of the schema is [in props] (optional marker or not) and every
    property of [props] that is an own key of the schema conforms to its tag:
    a tag containing [[]] needs an array; any other tag needs a value whose
    [typeof] is the tag itself, or [undefined].  Properties that are not in
    the schema are not checked. *)
Theorem validateSectionProps_valid_iff
    (props : PlainObject Value) (config : SectionConfig) (result : Validation) :
  validateSectionProps props config = Normal result ->
  (valid result = true <-> errors result = [])
  /\ (valid result = true
      <-> (forall propName propType,
             In (propName, propType) (cfg_props config) ->
             has_property props propName = true)
          /\ (forall propName propValue,
                In (propName, propValue) props ->
                conforms (cfg_props config) propName propValue = true)).
Proof.
  unfold validateSectionProps.
  destruct (typed_loop_cases (cfg_props config) props
              (checkRequired props (cfg_props config))) as [Hthrow Hok].
  destruct (existsb (fun '(propName, _) => shadowsBuiltin (cfg_props config) propName)
                    props) eqn:Hex.
  - rewrite (Hthrow eq_refl). discriminate.
  - destruct (Hok eq_refl) as (added & -> & Hadded). intros [= <-]. simpl.
    assert (Hlen : forall l : list string, (length l =? 0)%nat = true <-> l = []).
    { intros [|x l]; simpl; split; intros; try reflexivity; discriminate. }
    split; [apply Hlen|].
    rewrite Hlen, <- checkRequired_none, <- Hadded. split.
    + intros H. apply app_eq_nil in H. exact H.
    + intros [-> ->]. reflexivity.
Qed.

Lemma validateSectionProps_valid_iff_witness :
  validateSectionProps
    [ ("title", VString "KOVA"); ("className", VUndefined); ("extra", VNumber 3) ]
    optionalSchema
  = Normal {| valid := true; errors := [] |}.
Proof.
  destruct (validateSectionProps
              [ ("title", VString "KOVA"); ("className", VUndefined); ("extra", VNumber 3) ]
              optionalSchema) as [[v errs]|e] eqn:Hres; [|discriminate].
  destruct (validateSectionProps_valid_iff _ _ _ Hres) as [Hempty Hiff].
  simpl in Hempty, Hiff.
  assert (Hv : v = true).
  { apply Hiff. split.
    - intros k t [[= <- <-]|[[= <- <-]|[]]]; reflexivity.
    - intros k x [[= <- <-]|[[= <- <-]|[[= <- <-]|[]]]]; reflexivity. }
  subst v. rewrite (proj1 Hempty eq_refl). reflexivity.
Defined.

(* ===================================================================== *)
(** * [mergeDeep]                                                          *)
(* ===================================================================== *)

Lemma mergeDeep_fold (target source : PlainObject Value) :
  mergeDeep target source = fold_left mergeStep source target.
Proof.
  unfold mergeDeep. simpl. revert target.
  induction source as [|[key sourceValue] rest IH]; intros target; simpl; [reflexivity|].
  rewrite <- IH. reflexivity.
Qed.

Lemma distinct_cons (key : string) (rest : list string) :
  distinct (key :: rest) = true <-> ~ In key rest /\ distinct rest = true.
Proof.
  simpl. rewrite andb_true_iff, negb_true_iff. split.
  - intros [Hnot Hd]. split; [|exact Hd]. intros Hin.
    assert (Hex : existsb (String.eqb key) rest = true).
    { apply existsb_exists. exists key. split; [exact Hin|apply String.eqb_refl]. }
    congruence.
  - intros [Hnot Hd]. split; [|exact Hd].
    destruct (existsb (String.eqb key) rest) eqn:Hex; [|reflexivity].
    apply existsb_exists in Hex. destruct Hex as [k [Hin Hk]].
    apply String.eqb_eq in Hk. subst k. contradiction.
Qed.

Lemma own_distinct_In {V : Type} (o : PlainObject V) (key : string) (v : V) :
  distinct (map fst o) = true -> In (key, v) o -> own o key = Some v.
Proof.
  induction o as [|[k x] rest IH]; [intros _ []|].
  intros Hd. change (map fst ((k, x) :: rest)) with (k :: map fst rest) in Hd.
  apply distinct_cons in Hd. destruct Hd as [Hnot Hd]. simpl.
  intros [[= -> ->]|Hin].
  - rewrite String.eqb_refl. reflexivity.
  - destruct (String.eqb k key) eqn:Hk.
    + apply String.eqb_eq in Hk. subst k. exfalso. apply Hnot.
      apply in_map_iff. exists (key, v). split; [reflexivity|exact Hin].
    + apply IH; assumption.
Qed.

Lemma set_same {V : Type} (o : PlainObject V) (key : string) (v : V) :
  own o key = Some v -> JS.set o key v = o.
Proof.
  induction o as [|[k x] rest IH]; simpl; [discriminate|].
  destruct (String.eqb k key) eqn:Hk.
  - intros [= ->]. reflexivity.
  - intros H. rewrite (IH H). reflexivity.
Qed.

Lemma mergeValue_eq (sourceValue targetValue : Value) :
  mergeValue sourceValue targetValue
  = match sourceValue, targetValue with
    | VObject sourceFields, VObject targetFields =>
        VObject (mergeDeep targetFields sourceFields)
    | _, _ => sourceValue
    end.
Proof. destruct sourceValue, targetValue; reflexivity. Qed.

Lemma fold_mergeStep_lookup (target source : PlainObject Value) (key : string) :
  distinct (map fst source) = true ->
  own (fold_left mergeStep source target) key
  = match own source key with
    | None => own target key
    | Some sourceValue =>
        Some (mergeValue sourceValue (JS.get (fun v => v) target key))
    end.
Proof.
  revert target. induction source as [|[k sv] rest IH]; intros target Hd; [reflexivity|].
  change (map fst ((k, sv) :: rest)) with (k :: map fst rest) in Hd.
  apply distinct_cons in Hd. destruct Hd as [Hnot Hd].
  simpl fold_left. rewrite (IH _ Hd). unfold mergeStep. simpl fst. simpl snd. simpl own.
  destruct (String.eqb k key) eqn:Hk.
  - apply String.eqb_eq in Hk. subst k.
    destruct (own rest key) as [other|] eqn:Hrest.
    + exfalso. apply Hnot. apply own_key_In. exists other. exact Hrest.
    + apply own_set_eq.
  - apply String.eqb_neq in Hk.
    destruct (own rest key) as [other|].
    + rewrite get_set_ne by exact Hk. reflexivity.
    + apply own_set_ne, Hk.
Qed.

Lemma well_formed_distinct (fields : PlainObject Value) :
  well_formed (VObject fields) = true -> distinct (map fst fields) = true.
Proof.
  simpl. intros Hwf. apply andb_true_iff in Hwf. destruct Hwf as [Hwf _].
  apply andb_true_iff in Hwf. apply Hwf.
Qed.

(** X11: what [mergeDeep(target, source)] holds under a key.  A key that
    [source] lacks keeps the target's value; a key of [source] gets the
    source's value, except that two non-array objects are merged recursively.
    So scalars, [null] and arrays of the source replace the target's value
    whole, and no key of either argument is lost. *)
Theorem mergeDeep_lookup (target source : PlainObject Value) (key : string) :
  well_formed (VObject source) = true ->
  own (mergeDeep target source) key
  = match own source key with
    | None => own target key
    | Some sourceValue =>
        Some match sourceValue, JS.get (fun v => v) target key with
             | VObject sourceFields, VObject targetFields =>
                 VObject (mergeDeep targetFields sourceFields)
             | _, _ => sourceValue
             end
    end.
Proof.
  intros Hwf. rewrite mergeDeep_fold.
  rewrite (fold_mergeStep_lookup target source key (well_formed_distinct source Hwf)).
  destruct (own source key) as [sourceValue|]; [|reflexivity].
  rewrite mergeValue_eq. reflexivity.
Qed.

Lemma mergeDeep_lookup_witness :
  let target := [ ("theme", VObject [("mode", VString "dark"); ("accent", VString "gold")]);
                  ("tags", VArray [VString "a"; VString "b"]);
                  ("order", VNumber 1) ] in
  let source := [ ("theme", VObject [("mode", VString "light")]);
                  ("tags", VArray [VString "c"]) ] in
  own (mergeDeep target source) "theme"
  = Some (VObject [("mode", VString "light"); ("accent", VString "gold")])
  /\ own (mergeDeep target source) "tags" = Some (VArray [VString "c"])
  /\ own (mergeDeep target source) "order" = Some (VNumber 1).
Proof.
  cbv zeta. split; [|split]; rewrite mergeDeep_lookup; reflexivity.
Defined.

(** Induction on values through the properties of objects. *)
Section ValueInduction.
Context (P : Value -> Prop).
Hypothesis P_object :
  forall fields, List.Forall (fun entry => P (snd entry)) fields -> P (VObject fields).
Hypothesis P_other :
  forall v, (forall fields, v <> VObject fields) -> P v.

Lemma Value_object_ind (v : Value) : P v.
Proof.
  revert v. fix IH 1.
  intros [| | | | |elems|fields|]; try (apply P_other; intros; discriminate).
  apply P_object.
  induction fields as [|[key x] rest IHrest]; constructor; [apply IH|exact IHrest].
Qed.

End ValueInduction.

Lemma well_formed_fields (fields : PlainObject Value) (key : string) (v : Value) :
  well_formed (VObject fields) = true -> In (key, v) fields -> well_formed v = true.
Proof.
  simpl. intros Hwf. apply andb_true_iff in Hwf. destruct Hwf as [_ Hall].
  induction fields as [|[k x] rest IH]; [intros []|].
  apply andb_true_iff in Hall. destruct Hall as [Hx Hrest].
  intros [[= -> ->]|Hin]; [exact Hx|apply IH; assumption].
Qed.

Lemma fold_mergeStep_fixed (result : PlainObject Value) (source : PlainObject Value) :
  (forall entry, In entry source -> mergeStep result entry = result) ->
  fold_left mergeStep source result = result.
Proof.
  induction source as [|entry rest IH]; intros Hfix; simpl; [reflexivity|].
  rewrite (Hfix entry (or_introl eq_refl)). apply IH.
  intros e Hin. apply Hfix. right. exact Hin.
Qed.

Lemma get_own (o : PlainObject Value) (key : string) (v : Value) :
  own o key = Some v -> JS.get (fun x => x) o key = v.
Proof. unfold JS.get. intros ->. reflexivity. Qed.

(** Merging an object into itself, and merging the same source twice. *)
Lemma mergeDeep_stable (source : Value) :
  well_formed source = true ->
  forall fields, source = VObject fields ->
    mergeDeep fields fields = fields
    /\ forall target, mergeDeep (mergeDeep target fields) fields = mergeDeep target fields.
Proof.
  induction source as [fields IH|v Hv] using Value_object_ind.
  2: { intros _ fields E. exfalso. apply (Hv fields E). }
  intros Hwf fields' [= <-].
  pose proof (well_formed_distinct fields Hwf) as Hd.
  rewrite List.Forall_forall in IH.
  assert (Hself : forall key v, In (key, v) fields -> mergeValue v v = v).
  { intros key v Hin. rewrite mergeValue_eq. destruct v as [| | | | | |vf|]; try reflexivity.
    destruct (IH (key, VObject vf) Hin (well_formed_fields fields key _ Hwf Hin) vf eq_refl)
      as [-> _]. reflexivity. }
  split.
  - rewrite mergeDeep_fold. apply fold_mergeStep_fixed.
    intros [key v] Hin. unfold mergeStep. simpl fst. simpl snd.
    pose proof (own_distinct_In fields key v Hd Hin) as Hown.
    rewrite (get_own fields key v Hown), (Hself key v Hin).
    apply set_same, Hown.
  - intros target. rewrite (mergeDeep_fold (mergeDeep target fields)).
    apply fold_mergeStep_fixed.
    intros [key v] Hin. unfold mergeStep. simpl fst. simpl snd.
    pose proof (own_distinct_In fields key v Hd Hin) as Hown.
    assert (Hres : own (mergeDeep target fields) key
                   = Some (mergeValue v (JS.get (fun x => x) target key))).
    { rewrite mergeDeep_fold, (fold_mergeStep_lookup target fields key Hd), Hown.
      reflexivity. }
    rewrite (get_own _ key _ Hres).
    assert (Hfix : mergeValue v (mergeValue v (JS.get (fun x => x) target key))
                   = mergeValue v (JS.get (fun x => x) target key)).
    { rewrite !mergeValue_eq.
      destruct v as [| | | | | |vf|]; try reflexivity.
      destruct (IH (key, VObject vf) Hin (well_formed_fields fields key _ Hwf Hin) vf eq_refl)
        as [Hvself Hvidem].
      destruct (JS.get (fun x => x) target key) as [| | | | | |tf|];
        try (rewrite Hvself; reflexivity).
      rewrite Hvidem. reflexivity. }
    rewrite Hfix. apply set_same, Hres.
Qed.

(** X12: [mergeDeep] is idempotent in its source: merging the same source a
    second time changes nothing, and merging an object into itself returns
    it unchanged. *)
Theorem mergeDeep_idempotent (target source : PlainObject Value) :
  well_formed (VObject source) = true ->
  mergeDeep (mergeDeep target source) source = mergeDeep target source
  /\ mergeDeep source source = source.
Proof.
  intros Hwf. destruct (mergeDeep_stable (VObject source) Hwf source eq_refl) as [Hself Hidem].
  split; [apply Hidem|exact Hself].
Qed.

Lemma mergeDeep_idempotent_witness :
  let target := [ ("theme", VObject [("mode", VString "dark"); ("accent", VString "gold")]);
                  ("order", VNumber 1) ] in
  let source := [ ("theme", VObject [("mode", VString "light")]);
                  ("tags", VArray [VString "c"]) ] in
  mergeDeep (mergeDeep target source) source
  = [ ("theme", VObject [("mode", VString "light"); ("accent", VString "gold")]);
      ("order", VNumber 1); ("tags", VArray [VString "c"]) ].
Proof.
  cbv zeta.
  destruct (mergeDeep_idempotent
              [ ("theme", VObject [("mode", VString "dark"); ("accent", VString "gold")]);
                ("order", VNumber 1) ]
              [ ("theme", VObject [("mode", VString "light")]);
                ("tags", VArray [VString "c"]) ] eq_refl) as [-> _].
  reflexivity.
Defined.

(* ===================================================================== *)
(** * [debounce]                                                           *)
(* ===================================================================== *)

Section DebounceFacts.
Context {Args : Type}.
Import Debounce.

Local Abbreviation State := (Debounce.State Args).
Local Abbreviation Timer := (Debounce.Timer Args).
Local Abbreviation Event := (Debounce.Event Args).

Lemma pending_none (ts : list Timer) :
  (forall t args, ts !! t <> Some (Scheduled args)) -> pending ts = [].
Proof.
  induction ts as [|x rest IH]; intros Hnone; simpl; [reflexivity|].
  destruct x as [args| |].
  - exfalso. apply (Hnone 0 args). reflexivity.
  - apply IH. intros t args. apply (Hnone (S t) args).
  - apply IH. intros t args. apply (Hnone (S t) args).
Qed.

Lemma pending_app (l1 l2 : list Timer) :
  pending (l1 ++ l2)%list = (pending l1 ++ pending l2)%list.
Proof.
  induction l1 as [|x rest IH]; simpl; [reflexivity|].
  destruct x; simpl; rewrite IH; reflexivity.
Qed.

(** With a single scheduled timer, the pending arguments are its arguments,
    and none are left once it is replaced by a settled timer. *)
Lemma pending_single (ts : list Timer) (t : nat) (args : Args) (x : Timer) :
  ts !! t = Some (Scheduled args) ->
  (forall t' args', ts !! t' = Some (Scheduled args') -> t' = t) ->
  (forall args', x <> Scheduled args') ->
  pending ts = [args] /\ pending (<[t := x]> ts) = [].
Proof.
  intros Ht Huniq Hx.
  assert (Hbefore : pending (take t ts) = []).
  { apply pending_none. intros t' args' H.
    apply lookup_take_Some in H. destruct H as [H Hlt].
    specialize (Huniq t' args' H). lia. }
  assert (Hafter : pending (drop (S t) ts) = []).
  { apply pending_none. intros t' args' H.
    rewrite lookup_drop in H. specialize (Huniq _ args' H). lia. }
  split.
  - rewrite <- (take_drop_middle ts t (Scheduled args) Ht), pending_app. simpl.
    rewrite Hbefore, Hafter. reflexivity.
  - rewrite insert_take_drop by (eapply lookup_lt_Some, Ht).
    rewrite pending_app. simpl. rewrite Hbefore.
    destruct x as [args'| |]; [exfalso; apply (Hx args'); reflexivity| |]; exact Hafter.
Qed.

Lemma clearTimeout_none (s : State) (t0 : nat) :
  single_timer s -> timeout s = Some t0 ->
  forall t args, clearTimeout (timers s) t0 !! t <> Some (Scheduled args).
Proof.
  intros Hs Ht0 t args H. unfold clearTimeout in H.
  destruct (timers s !! t0) as [[a| |]|] eqn:H0.
  - apply list_lookup_insert_Some in H. destruct H as [(_ & [=] & _)|[Hne H]].
    specialize (Hs t args H). congruence.
  - specialize (Hs t args H). assert (t = t0) by congruence. subst t. congruence.
  - specialize (Hs t args H). assert (t = t0) by congruence. subst t. congruence.
  - specialize (Hs t args H). assert (t = t0) by congruence. subst t. congruence.
Qed.

(** The timers left after the clearing part of a call hold nothing pending. *)
Lemma call_cleared (s : State) :
  single_timer s ->
  forall t args,
    match timeout s with
    | Some t0 => clearTimeout (timers s) t0
    | None => timers s
    end !! t <> Some (Scheduled args).
Proof.
  intros Hs t args. destruct (timeout s) as [t0|] eqn:Ht0.
  - apply (clearTimeout_none s t0 Hs Ht0).
  - intros H. specialize (Hs t args H). congruence.
Qed.

Lemma single_timer_call (s : State) (args : Args) :
  single_timer s -> single_timer (call s args).
Proof.
  intros Hs t a H. unfold call in *. simpl in *.
  apply lookup_snoc_Some in H. destruct H as [[_ H]|[-> _]].
  - exfalso. apply (call_cleared s Hs t a H).
  - reflexivity.
Qed.

Lemma single_timer_elapse (s s' : State) (t : nat) :
  single_timer s -> elapse s t = Some s' -> single_timer s'.
Proof.
  intros Hs. unfold elapse.
  destruct (timers s !! t) as [[a| |]|] eqn:Ht; try discriminate.
  intros [= <-] t' a' H. simpl in *.
  apply list_lookup_insert_Some in H. destruct H as [(_ & [=] & _)|[_ H]].
  apply (Hs t' a' H).
Qed.

Lemma single_timer_run (evs : list Event) (s s' : State) :
  single_timer s -> Debounce.run s evs = Some s' -> single_timer s'.
Proof.
  revert s. induction evs as [|ev rest IH]; intros s Hs; simpl.
  - intros [= <-]. exact Hs.
  - destruct ev as [args|t]; simpl.
    + apply IH, single_timer_call, Hs.
    + destruct (elapse s t) as [s1|] eqn:He; [|discriminate].
      apply IH. eapply single_timer_elapse; eassumption.
Qed.

Lemma single_timer_initial : single_timer (@debounce Args).
Proof. intros t args H. simpl in H. rewrite lookup_nil in H. discriminate. Qed.

Lemma pending_call (s : State) (args : Args) :
  single_timer s -> pending (timers (call s args)) = [args].
Proof.
  intros Hs. unfold call. simpl. rewrite pending_app.
  rewrite (pending_none _ (call_cleared s Hs)). reflexivity.
Qed.

Lemma single_timer_unique (s : State) (t t' : nat) (a a' : Args) :
  single_timer s ->
  timers s !! t = Some (Scheduled a) -> timers s !! t' = Some (Scheduled a') -> t' = t.
Proof.
  intros Hs H H'. pose proof (Hs t a H). pose proof (Hs t' a' H'). congruence.
Qed.

(** X13: however the debounced function has been called and whichever timers
    have run, at most one timer is pending, and it is the one the closure's
    [timeout] refers to.  After a call, the only invocation of [func] that can
    follow is the one with that call's arguments: every timer scheduled by an
    earlier call has been cancelled or has already run. *)
Theorem debounce_last_call_wins (evs : list Event) (s : State) (args : Args) :
  Debounce.run debounce evs = Some s ->
  length (pending (timers s)) <= 1
  /\ (forall t a, timers s !! t = Some (Scheduled a) -> timeout s = Some t)
  /\ pending (timers (call s args)) = [args]
  /\ (forall t s', elapse (call s args) t = Some s' ->
        invoked s' = (invoked s ++ [args])%list /\ pending (timers s') = []).
Proof.
  intros Hrun.
  pose proof (single_timer_run evs debounce s single_timer_initial Hrun) as Hs.
  split; [|split; [exact Hs|split; [apply pending_call, Hs|]]].
  - destruct (pending (timers s)) as [|a rest] eqn:Hp; [simpl; lia|].
    assert (Hex : exists t a', timers s !! t = Some (Scheduled a')).
    { clear -Hp. revert Hp. generalize (timers s). intros ts.
      induction ts as [|x r IH]; simpl; [discriminate|].
      destruct x as [a'| |].
      - intros _. exists 0, a'. reflexivity.
      - intros H. destruct (IH H) as (t & a' & Ht). exists (S t), a'. exact Ht.
      - intros H. destruct (IH H) as (t & a' & Ht). exists (S t), a'. exact Ht. }
    destruct Hex as (t & a' & Ht).
    destruct (pending_single (timers s) t a' Cleared Ht) as [Hone _].
    + intros t' a'' H'. apply (single_timer_unique s t t' a' a'' Hs Ht H').
    + intros a'' [=].
    + rewrite Hone in Hp. injection Hp as _ <-. simpl. lia.
  - intros t s' He. pose proof (single_timer_call s args Hs) as Hc.
    unfold elapse in He.
    destruct (timers (call s args) !! t) as [[a| |]|] eqn:Ht; try discriminate.
    injection He as <-. simpl.
    destruct (pending_single (timers (call s args)) t a Fired Ht) as [Hone Hnone].
    + intros t' a' H'. apply (single_timer_unique (call s args) t t' a a' Hc Ht H').
    + intros a' [=].
    + rewrite (pending_call s args Hs) in Hone. injection Hone as <-.
      split; [reflexivity|exact Hnone].
Qed.

Lemma run_snoc (evs : list Event) (ev : Event) (s0 : State) :
  Debounce.run s0 (evs ++ [ev])%list
  = match Debounce.run s0 evs with
    | Some s => Debounce.step s ev
    | None => None
    end.
Proof.
  revert s0. induction evs as [|e rest IH]; intros s0; simpl.
  - destruct (Debounce.step s0 ev); reflexivity.
  - destruct (Debounce.step s0 e); [apply IH|reflexivity].
Qed.

Lemma callsOf_app (evs1 evs2 : list Event) :
  callsOf (evs1 ++ evs2)%list = (callsOf evs1 ++ callsOf evs2)%list.
Proof.
  induction evs1 as [|[a|t] rest IH]; simpl; [reflexivity| |exact IH].
  rewrite IH. reflexivity.
Qed.

Lemma debounce_log (evs : list Event) (s : State) :
  Debounce.run debounce evs = Some s ->
  single_timer s /\ sublist (invoked s ++ pending (timers s))%list (callsOf evs).
Proof.
  revert s. induction evs as [|ev evs IH] using rev_ind; intros s.
  - intros [= <-]. split; [apply single_timer_initial|]. simpl. constructor.
  - rewrite run_snoc. destruct (Debounce.run debounce evs) as [s0|]; [|discriminate].
    destruct (IH s0 eq_refl) as [Hs0 Hsub]. rewrite callsOf_app.
    destruct ev as [args|t]; simpl.
    + intros [= <-]. split; [apply single_timer_call, Hs0|].
      rewrite (pending_call s0 args Hs0).
      change (invoked (call s0 args)) with (invoked s0).
      apply sublist_app; [|reflexivity].
      transitivity (invoked s0 ++ pending (timers s0))%list; [|exact Hsub].
      apply sublist_inserts_r. reflexivity.
    + intros He. split; [eapply single_timer_elapse; eassumption|].
      rewrite app_nil_r. unfold elapse in He.
      destruct (timers s0 !! t) as [[a| |]|] eqn:Ht; try discriminate.
      injection He as <-. simpl.
      destruct (pending_single (timers s0) t a Fired Ht) as [Hone Hnone].
      * intros t' a' H'. apply (single_timer_unique s0 t t' a a' Hs0 Ht H').
      * intros a' [=].
      * rewrite Hnone, app_nil_r. rewrite Hone in Hsub. exact Hsub.
Qed.

(** X14: [func] is invoked only with arguments of earlier calls of the
    debounced function, in the order of those calls and at most once per
    call: the invocations, followed by the pending one, form a subsequence of
    the calls' arguments.  In particular [func] never runs more often than
    the debounced function was called. *)
Theorem debounce_invocations_are_calls (evs : list Event) (s : State) :
  Debounce.run debounce evs = Some s ->
  sublist (invoked s ++ pending (timers s))%list (callsOf evs)
  /\ sublist (invoked s) (callsOf evs)
  /\ length (invoked s) <= length (callsOf evs).
Proof.
  intros Hrun. destruct (debounce_log evs s Hrun) as [_ Hsub].
  assert (Hinv : sublist (invoked s) (callsOf evs)).
  { transitivity (invoked s ++ pending (timers s))%list; [|exact Hsub].
    apply sublist_inserts_r. reflexivity. }
  split; [exact Hsub|]. split; [exact Hinv|]. apply sublist_length, Hinv.
Qed.

End DebounceFacts.

Lemma debounce_last_call_wins_witness :
  exists s',
    Debounce.run Debounce.debounce
      [Debounce.Invoke "a"; Debounce.Invoke "b"; Debounce.Invoke "c"; Debounce.Elapse 2]
    = Some s'
    /\ Debounce.invoked s' = ["c"]
    /\ Debounce.elapse (Debounce.call Debounce.debounce "a") 0 <> None.
Proof.
  eexists. split; [reflexivity|].
  destruct (debounce_last_call_wins
              [Debounce.Invoke "a"; Debounce.Invoke "b"] _ "c" eq_refl)
    as (_ & _ & _ & Hfire).
  split.
  - destruct (Hfire 2 _ eq_refl) as [H _]. exact H.
  - discriminate.
Defined.

Lemma debounce_invocations_are_calls_witness :
  exists s,
    Debounce.run Debounce.debounce
      [Debounce.Invoke "a"; Debounce.Elapse 0; Debounce.Invoke "b"; Debounce.Invoke "c"]
    = Some s
    /\ sublist (Debounce.invoked s) ["a"; "b"; "c"].
Proof.
  eexists. split; [reflexivity|].
  destruct (debounce_invocations_are_calls
              [Debounce.Invoke "a"; Debounce.Elapse 0; Debounce.Invoke "b";
               Debounce.Invoke "c"] _ eq_refl) as (_ & H & _).
  exact H.
Defined.

(* ===================================================================== *)
(** * [SectionErrorBoundary]                                               *)
(* ===================================================================== *)

Section BoundaryFacts.
Import ErrorBoundary.
Context (env : Env) (props : ErrorBoundaryProps).

Lemma boundary_run_snoc (evs : list ErrorBoundary.Event) (ev : ErrorBoundary.Event) :
  ErrorBoundary.run env props (evs ++ [ev])%list
  = ErrorBoundary.step env props (ErrorBoundary.run env props evs) ev.
Proof. unfold ErrorBoundary.run. rewrite fold_left_app. reflexivity. Qed.

(** The [onError] calls among the effects. *)
Lemma boundary_reports (evs : list ErrorBoundary.Event) :
  List.filter (fun eff => match eff with onError_called _ _ => true | _ => false end)
              (snd (ErrorBoundary.run env props evs))
  = if onError props
    then map (fun '(e, info) => onError_called e info) (caughtOf evs)
    else [].
Proof.
  induction evs as [|ev evs IH] using rev_ind.
  - simpl. destruct (onError props); reflexivity.
  - rewrite boundary_run_snoc.
    assert (Hc : caughtOf (evs ++ [ev])%list = (caughtOf evs ++ caughtOf [ev])%list).
    { clear. induction evs as [|[e info|] rest IHl]; simpl; [reflexivity| |exact IHl].
      rewrite IHl. reflexivity. }
    rewrite Hc. destruct ev as [e info|]; simpl.
    + rewrite List.filter_app, IH.
      destruct (onError props), (development env); simpl;
        rewrite ?map_app, ?app_nil_r; reflexivity.
    + rewrite IH, app_nil_r. reflexivity.
Qed.

Lemma boundary_quiet (evs : list ErrorBoundary.Event) :
  development env = false ->
  forall eff, In eff (snd (ErrorBoundary.run env props evs)) ->
              exists e info, eff = onError_called e info.
Proof.
  intros Hdev. induction evs as [|ev evs IH] using rev_ind; [intros eff []|].
  rewrite boundary_run_snoc. destruct ev as [e info|]; simpl; [|exact IH].
  rewrite Hdev, app_nil_r. intros eff Hin. apply in_app_or in Hin.
  destruct Hin as [Hin|Hin]; [apply IH, Hin|].
  destruct (onError props); [|destruct Hin].
  destruct Hin as [<-|[]]. exists e, info. reflexivity.
Qed.

End BoundaryFacts.

(** X15: a boundary renders the fallback, carrying the most recent error,
    from the moment a descendant throws until retry is pressed; retry puts it
    back into its initial state, whatever happened before, and it renders its
    children again.  [onError], when given, is called once per caught error,
    in order, with that error; outside development mode nothing is written
    to the console. *)
Theorem boundary_fails_and_recovers
    (env : Env) (props : ErrorBoundary.ErrorBoundaryProps)
    (evs : list ErrorBoundary.Event) (e : Loader.JsError) (info : ErrorBoundary.ErrorInfo) :
  (fst (ErrorBoundary.run env props (evs ++ [ErrorBoundary.Retry])%list)
   = ErrorBoundary.constructor
   /\ ErrorBoundary.render props
        (fst (ErrorBoundary.run env props (evs ++ [ErrorBoundary.Retry])%list))
      = ErrorBoundary.Children)
  /\ (exists name,
        ErrorBoundary.render props
          (fst (ErrorBoundary.run env props (evs ++ [ErrorBoundary.Caught e info])%list))
        = ErrorBoundary.Fallback name (Some e)
        /\ name = match ErrorBoundary.fallback props with
                  | Some given => given
                  | None => "DefaultErrorFallback"
                  end)
  /\ List.filter (fun eff => match eff with
                             | ErrorBoundary.onError_called _ _ => true
                             | _ => false
                             end)
                 (snd (ErrorBoundary.run env props evs))
     = (if ErrorBoundary.onError props
        then map (fun '(e, info) => ErrorBoundary.onError_called e info)
                 (ErrorBoundary.caughtOf evs)
        else [])
  /\ (development env = false ->
      forall eff, In eff (snd (ErrorBoundary.run env props evs)) ->
                  exists e' info', eff = ErrorBoundary.onError_called e' info').
Proof.
  split; [|split; [|split]].
  - rewrite boundary_run_snoc. split; reflexivity.
  - rewrite boundary_run_snoc. eexists. split; reflexivity.
  - apply boundary_reports.
  - apply boundary_quiet.
Qed.

Lemma boundary_fails_and_recovers_witness :
  let props := {| ErrorBoundary.fallback := Some "SectionErrorFallback";
                  ErrorBoundary.sectionId := Some "hero";
                  ErrorBoundary.onError := true |} in
  let boom := Error "boom" in
  let info := {| ErrorBoundary.componentStack := "at HeroContent" |} in
  fst (ErrorBoundary.run prodEnv props [ErrorBoundary.Caught boom info; ErrorBoundary.Retry])
  = ErrorBoundary.constructor
  /\ snd (ErrorBoundary.run prodEnv props
            [ErrorBoundary.Caught boom info; ErrorBoundary.Retry])
     = [ErrorBoundary.onError_called boom info]
  /\ ErrorBoundary.render props
       (fst (ErrorBoundary.run prodEnv props [ErrorBoundary.Caught boom info]))
     = ErrorBoundary.Fallback "SectionErrorFallback" (Some boom).
Proof.
  cbv zeta.
  destruct (boundary_fails_and_recovers prodEnv
              {| ErrorBoundary.fallback := Some "SectionErrorFallback";
                 ErrorBoundary.sectionId := Some "hero";
                 ErrorBoundary.onError := true |}
              [ErrorBoundary.Caught (Error "boom")
                 {| ErrorBoundary.componentStack := "at HeroContent" |}]
              (Error "boom") {| ErrorBoundary.componentStack := "at HeroContent" |})
    as ([Hretry _] & _ & _ & _).
  split; [exact Hretry|]. split; reflexivity.
Defined.

(* ===================================================================== *)
(** * [initializeSections]                                                 *)
(* ===================================================================== *)

Lemma lookup_last {A : Type} (l : list A) (x : A) : (l ++ [x])%list !! length l = Some x.
Proof. apply lookup_snoc_Some. right. split; reflexivity. Qed.

Lemma await_unavailable (w : World) (id : SectionId) (r : ImportResult) :
  available id = false ->
  LandingPage.awaitLoadSection w id r
  = (add_call (log w (console_warn ("Section " +:+ id +:+ " is not implemented yet")))
              id (Returned None),
     Some (Resolved None)).
Proof.
  intros Hav. unfold LandingPage.awaitLoadSection. rewrite (enter_unavailable w id Hav).
  unfold outcome. simpl. rewrite lookup_last. simpl. rewrite lookup_last. reflexivity.
Qed.

Lemma await_existing (w : World) (id : SectionId) (r : ImportResult)
    (existing : SectionRegistryEntry) :
  available id = true -> getSection (manager w) id = Some existing ->
  LandingPage.awaitLoadSection w id r
  = (add_call w id (Returned (Some existing)), Some (Resolved (Some existing))).
Proof.
  intros Hav Hget. unfold LandingPage.awaitLoadSection.
  rewrite (enter_existing w id existing Hav Hget).
  unfold outcome. simpl. rewrite lookup_last. simpl. rewrite lookup_last. reflexivity.
Qed.

Lemma await_fresh (w w' : World) (id : SectionId) (r : ImportResult) :
  available id = true -> getSection (manager w) id = None ->
  loadPromises (manager w) !! id = None ->
  run w (singleLoad w id r) = Some w' ->
  LandingPage.awaitLoadSection w id r = (w', outcome w' (length (calls w))).
Proof.
  intros Hav Hget Hmark Hrun. unfold LandingPage.awaitLoadSection.
  unfold singleLoad in Hrun. cbn [run] in Hrun.
  change (step w (Call id)) with (Some (loadSection_enter w id)) in Hrun. cbn iota in Hrun.
  assert (Hc : calls (loadSection_enter w id) !! length (calls w)
               = Some (mkCall id (Awaiting (length (promises w))))).
  { rewrite (enter_fresh w id Hav Hget Hmark). simpl. apply lookup_last. }
  cbv zeta. rewrite Hc.
  destruct (step (loadSection_enter w id) (ImportDone (length (promises w)) r))
    as [imported|]; [|discriminate].
  destruct (step imported (Resume (length (calls w)))) as [resumed|]; [|discriminate].
  injection Hrun as <-. reflexivity.
Qed.

(** What [await loadSection('hero')] gives when no hero load is in flight. *)
Lemma await_hero (w : World) (r : ImportResult) :
  loadPromises (manager w) !! "hero" = None ->
  exists w' heroEntry,
    LandingPage.awaitLoadSection w "hero" r = (w', Some (Resolved heroEntry))
    /\ getSection (manager w') "hero" = heroEntry
    /\ fetches w' "hero" <= S (fetches w "hero").
Proof.
  intros Hmark. destruct (getSection (manager w) "hero") as [existing|] eqn:Hget.
  - exists (add_call w "hero" (Returned (Some existing))), (Some existing).
    split; [apply (await_existing w "hero" r existing eq_refl Hget)|].
    split; [exact Hget|]. unfold fetches. simpl. lia.
  - destruct (single_run w "hero" r eq_refl Hget Hmark)
      as (w' & Hrun & Hout & Hsec & _ & Hf).
    exists w', (match r with Loaded m => Some (moduleEntry m) | Failed _ => None end).
    split; [rewrite (await_fresh w w' "hero" r eq_refl Hget Hmark Hrun), Hout; reflexivity|].
    split; [|lia].
    unfold getSection. rewrite Hsec. destruct r as [m|reason].
    + apply map_get_set_eq.
    + exact Hget.
Qed.

(** The warning [loadSection] logs for an identifier outside the allow-list. *)
Lemma loadAdditional_unavailable (r : ImportResult) (st : LandingPage.Progress)
    (entry : SectionRegistryEntry) :
  LandingPage.suspended_forever st = false ->
  cfg_id (config entry) <> "hero" ->
  LandingPage.loadAdditional r st entry
  = {| LandingPage.world :=
         add_call (log (LandingPage.world st)
                     (console_warn ("Section " +:+ cfg_id (config entry)
                                    +:+ " is not implemented yet")))
                  (cfg_id (config entry)) (Returned None);
       LandingPage.page :=
         LandingPage.setLoadingStatus (LandingPage.page st)
           (cfg_id (config entry)) LandingPage.page_loading;
       LandingPage.suspended_forever := false |}.
Proof.
  intros Hrun Hid.
  assert (Hav : available (cfg_id (config entry)) = false).
  { apply not_available. intros [H|[]]. apply Hid. symmetry. exact H. }
  unfold LandingPage.loadAdditional. rewrite Hrun. cbv zeta.
  rewrite (await_unavailable _ _ r Hav). reflexivity.
Qed.

(** The loop over sections other than the hero: every round marks the section
    as loading, gets [null] from [loadSection] and goes on. *)
Lemma loadAdditional_loop (r : ImportResult) (entries : list SectionRegistryEntry)
    (st : LandingPage.Progress) :
  LandingPage.suspended_forever st = false ->
  (forall entry, In entry entries -> cfg_id (config entry) <> "hero") ->
  LandingPage.suspended_forever (fold_left (LandingPage.loadAdditional r) entries st) = false
  /\ manager (LandingPage.world (fold_left (LandingPage.loadAdditional r) entries st))
     = manager (LandingPage.world st)
  /\ imports (LandingPage.world (fold_left (LandingPage.loadAdditional r) entries st))
     = imports (LandingPage.world st)
  /\ LandingPage.sections
       (LandingPage.page (fold_left (LandingPage.loadAdditional r) entries st))
     = LandingPage.sections (LandingPage.page st)
  /\ LandingPage.isInitialized
       (LandingPage.page (fold_left (LandingPage.loadAdditional r) entries st))
     = LandingPage.isInitialized (LandingPage.page st)
  /\ (forall id,
        own (LandingPage.loadingStatus
               (LandingPage.page (fold_left (LandingPage.loadAdditional r) entries st))) id
        = if existsb (fun entry => String.eqb (cfg_id (config entry)) id) entries
          then Some LandingPage.page_loading
          else own (LandingPage.loadingStatus (LandingPage.page st)) id)
  /\ console (LandingPage.world (fold_left (LandingPage.loadAdditional r) entries st))
     = (console (LandingPage.world st)
        ++ map (fun entry => console_warn ("Section " +:+ cfg_id (config entry)
                                           +:+ " is not implemented yet")) entries)%list.
Proof.
  revert st. induction entries as [|entry rest IH]; intros st Hrun Hids.
  - simpl. rewrite app_nil_r. repeat split; try reflexivity. exact Hrun.
  - simpl fold_left.
    rewrite (loadAdditional_unavailable r st entry Hrun (Hids entry (or_introl eq_refl))).
    match goal with
    | |- context [fold_left (LandingPage.loadAdditional r) rest ?st0] =>
        destruct (IH st0 eq_refl (fun e Hin => Hids e (or_intror Hin)))
          as (H1 & H2 & H3 & H4 & H5 & H6 & H7)
    end.
    simpl in H2, H3, H4, H5, H6, H7.
    split; [exact H1|]. split; [exact H2|]. split; [exact H3|]. split; [exact H4|].
    split; [exact H5|]. split.
    + intros id. rewrite H6. simpl.
      destruct (existsb (fun e => String.eqb (cfg_id (config e)) id) rest) eqn:Hrest.
      * rewrite orb_true_r. reflexivity.
      * rewrite orb_false_r. destruct (String.eqb (cfg_id (config entry)) id) eqn:Hid.
        -- apply String.eqb_eq in Hid. subst id. apply own_set_eq.
        -- apply String.eqb_neq in Hid. apply own_set_ne, Hid.
    + rewrite H7. simpl. rewrite <- app_assoc. reflexivity.
Qed.

(** X16: started while no hero load is in flight and left undisturbed,
    [initializeSections] runs to its end and sets [isInitialized].  The render
    list then holds exactly the hero entry if the registry has one, and
    nothing otherwise; every enabled section other than the hero has been sent
    through [loadSection], which answered [null] with a warning, so its status
    stays [loading]; no status is ever [error]; and at most one fetch was
    started. *)
Theorem initializeSections_outcome
    (env : Env) (flags : FlagTable) (w : World) (r : ImportResult) :
  loadPromises (manager w) !! "hero" = None ->
  let done := LandingPage.initializeSections env flags w r in
  LandingPage.suspended_forever done = false
  /\ LandingPage.isInitialized (LandingPage.page done) = true
  /\ LandingPage.sections (LandingPage.page done)
     = match getSection (manager (LandingPage.world done)) "hero" with
       | Some heroEntry => [heroEntry]
       | None => []
       end
  /\ (forall id, own (LandingPage.loadingStatus (LandingPage.page done)) id
                 <> Some LandingPage.page_error)
  /\ (forall entry,
        In entry (getEnabledSections env flags (manager (LandingPage.world done))) ->
        cfg_id (config entry) <> "hero" ->
        own (LandingPage.loadingStatus (LandingPage.page done)) (cfg_id (config entry))
        = Some LandingPage.page_loading
        /\ In (console_warn ("Section " +:+ cfg_id (config entry)
                             +:+ " is not implemented yet"))
              (console (LandingPage.world done)))
  /\ fetches (LandingPage.world done) "hero" <= S (fetches w "hero").
Proof.
  intros Hmark. cbv zeta.
  destruct (await_hero w r Hmark) as (w1 & heroEntry & Hawait & Hget & Hfetch).
  unfold LandingPage.initializeSections. rewrite Hawait. cbv zeta.
  set (seeded := match heroEntry with
                 | Some entry =>
                     LandingPage.setLoadingStatus
                       (LandingPage.setSections LandingPage.mounted [entry])
                       "hero" LandingPage.page_loaded
                 | None => LandingPage.mounted
                 end).
  set (additional := List.filter
                       (fun entry => negb (String.eqb (cfg_id (config entry)) "hero"))
                       (getEnabledSections env flags (manager w1))).
  assert (Hids : forall entry, In entry additional -> cfg_id (config entry) <> "hero").
  { intros entry Hin. apply filter_In in Hin. destruct Hin as [_ Hne].
    apply negb_true_iff, String.eqb_neq in Hne. exact Hne. }
  destruct (loadAdditional_loop r additional
              {| LandingPage.world := w1; LandingPage.page := seeded;
                 LandingPage.suspended_forever := false |} eq_refl Hids)
    as (Hrun & Hman & Himp & Hsec & _ & Hstatus & Hconsole).
  simpl in Hman, Himp, Hsec, Hstatus, Hconsole.
  rewrite Hrun. simpl.
  assert (Hadditional : forall entry,
            In entry (getEnabledSections env flags (manager w1)) ->
            cfg_id (config entry) <> "hero" ->
            existsb (fun e => String.eqb (cfg_id (config e)) (cfg_id (config entry)))
                    additional = true).
  { intros entry Hin Hne. apply existsb_exists. exists entry. split.
    - apply filter_In. split; [exact Hin|].
      apply negb_true_iff, String.eqb_neq. exact Hne.
    - apply String.eqb_refl. }
  split; [reflexivity|]. split; [reflexivity|]. split; [|split; [|split]].
  - rewrite Hsec, Hman, Hget. unfold seeded. destruct heroEntry; reflexivity.
  - intros id. rewrite Hstatus.
    destruct (existsb (fun e => String.eqb (cfg_id (config e)) id) additional);
      [discriminate|].
    unfold seeded. destruct heroEntry; cbn [LandingPage.loadingStatus LandingPage.page
      LandingPage.setLoadingStatus LandingPage.setSections LandingPage.mounted JS.set own].
    + destruct (String.eqb "hero" id); intros [=].
    + intros [=].
  - intros entry Hin Hne. rewrite Hman in Hin. split.
    + rewrite Hstatus, (Hadditional entry Hin Hne). reflexivity.
    + rewrite Hconsole. apply in_or_app. right.
      apply in_map_iff. exists entry. split; [reflexivity|].
      apply filter_In. split; [exact Hin|].
      apply negb_true_iff, String.eqb_neq. exact Hne.
  - unfold fetches. rewrite Himp. exact Hfetch.
Qed.

Lemma initializeSections_outcome_witness :
  let done := LandingPage.initializeSections sampleEnv FEATURE_FLAGS initial
                                             (Loaded heroModule) in
  LandingPage.isInitialized (LandingPage.page done) = true
  /\ LandingPage.sections (LandingPage.page done) = [heroEntry]
  /\ LandingPage.loadingStatus (LandingPage.page done) = [("hero", LandingPage.page_loaded)].
Proof.
  cbv zeta.
  destruct (initializeSections_outcome sampleEnv FEATURE_FLAGS initial
              (Loaded heroModule) eq_refl) as (_ & Hinit & Hsec & _).
  split; [exact Hinit|]. split; [rewrite Hsec; reflexivity|reflexivity].
Defined.
